(** * MatrixDisplay: a shallow embedding of the tile-grid engine

    The development follows [matrix-display.ts] (class [MatrixDisplay]) and
    [types.ts].  The engine is a single mutable object; every method becomes
    a function in a small state-and-exception monad over the record
    [MatrixDisplay] below.

    Conventions of the embedding:
    - JavaScript numbers that callers pass as grid coordinates, z-indices
      and world or viewport sizes are integers ([Z]), and fill fractions are
      rationals ([Q]).  The numbers the engine computes from the cell size
      (the cell size in device pixels, the viewport origin, the coordinates
      in a dirty key, pixel geometry) are of type [Number]: an exact
      rational, an infinity or [NaN].  A rational that is given, such as
      the device pixel ratio, is the exact value of the double.
    - A JavaScript string is given by its UTF-8 encoding; [codePoints]
      recovers the characters that [Array.from] enumerates and [jsLength]
      the value of [.length].
    - A [Tile] is a mutable JavaScript object that is shared between the
      tile index ([tileMap]) and the cell lists.  Objects live in [heap];
      a reference is an index into it.  [tileMap] and the cells hold
      references, so a mutation through one alias is seen through the other.
    - A tile id is the string [t_<timestamp>_<counter>]; the two numbers
      determine the string and conversely, so an id is the pair.
    - A dirty key is the string [<x>,<y>]; the string and the pair of
      numbers determine each other.  [Set] iterates in insertion order,
      hence a duplicate-free list.
    - [setTiles] keeps the array it is given.  The cell lists of the
      embedding are values, so an array that the caller hands to two cells,
      or goes on using, is outside of it (see [setTiles]).
    - Reading a property of [undefined] raises [TypeError]. *)

From Stdlib Require Import ZArith QArith Qround Qcanon String Ascii List Lia.
From stdpp Require Import gmap list.

Local Open Scope Z_scope.

(** ** Numbers *)

(** A JavaScript number that need not be whole.  [Frac] holds a rational
    that is not whole, in lowest terms; the operations keep it so.  Finite
    values are exact: the rounding of doubles and the sign of zero are not
    part of the embedding. *)
Inductive Number :=
| Int (z : Z)
| Frac (q : Q)
| PosInfinity
| NegInfinity
| NaN.

Declare Scope num_scope.
Delimit Scope num_scope with num.
Bind Scope num_scope with Number.

#[global] Instance Q_eq_dec : EqDecision Q.
Proof. solve_decision. Defined.

#[global] Instance Number_eq_dec : EqDecision Number.
Proof. solve_decision. Defined.

Module Num.

Definition ofQ (q : Q) : Number :=
  let r := Qred q in
  if Z.pos (Qden r) =? 1 then Int (Qnum r) else Frac r.

Definition toQ (n : Number) : option Q :=
  match n with
  | Int z => Some (inject_Z z)
  | Frac q => Some q
  | _ => None
  end.

Definition isNaN (n : Number) : bool :=
  match n with NaN => true | _ => false end.

Definition finite (n : Number) : bool :=
  match n with Int _ | Frac _ => true | _ => false end.

Definition negative (n : Number) : bool :=
  match n with
  | Int z => z <? 0
  | Frac q => Qnum q <? 0
  | NegInfinity => true
  | _ => false
  end.

Definition isZero (n : Number) : bool :=
  match n with
  | Int z => z =? 0
  | Frac q => Qnum q =? 0
  | _ => false
  end.

Definition infinity (positive : bool) : Number :=
  if positive then PosInfinity else NegInfinity.

Definition neg (n : Number) : Number :=
  match n with
  | Int z => Int (- z)
  | Frac q => Frac (- q)
  | PosInfinity => NegInfinity
  | NegInfinity => PosInfinity
  | NaN => NaN
  end.

(** [a + b]. *)
Definition add (a b : Number) : Number :=
  match a, b with
  | Int x, Int y => Int (x + y)
  | _, _ =>
      match toQ a, toQ b with
      | Some p, Some q => ofQ (p + q)
      | _, _ =>
          if isNaN a || isNaN b then NaN
          else if finite a then b
          else if finite b then a
          else if Bool.eqb (negative a) (negative b) then a
          else NaN
      end
  end.

(** [a - b]. *)
Definition sub (a b : Number) : Number :=
  match a, b with
  | Int x, Int y => Int (x - y)
  | _, _ => add a (neg b)
  end.

(** [a * b]. *)
Definition mul (a b : Number) : Number :=
  match a, b with
  | Int x, Int y => Int (x * y)
  | _, _ =>
      match toQ a, toQ b with
      | Some p, Some q => ofQ (p * q)
      | _, _ =>
          if isNaN a || isNaN b || isZero a || isZero b then NaN
          else infinity (Bool.eqb (negative a) (negative b))
      end
  end.

(** [a / b]. *)
Definition div (a b : Number) : Number :=
  match toQ a, toQ b with
  | Some p, Some q =>
      if isZero b
      then if isZero a then NaN else infinity (negb (negative a))
      else ofQ (p / q)
  | Some _, None => if isNaN b then NaN else Int 0
  | None, Some _ =>
      if isNaN a then NaN else infinity (Bool.eqb (negative a) (negative b))
  | None, None => NaN
  end.

(** The order of two numbers, none if one of them is [NaN]. *)
Definition compare (a b : Number) : option comparison :=
  match a, b with
  | Int x, Int y => Some (x ?= y)
  | _, _ =>
      if isNaN a || isNaN b then None
      else
        match toQ a, toQ b with
        | Some p, Some q => Some (p ?= q)%Q
        | None, Some _ => Some (if negative a then Lt else Gt)
        | Some _, None => Some (if negative b then Gt else Lt)
        | None, None =>
            Some (if Bool.eqb (negative a) (negative b) then Eq
                  else if negative a then Lt else Gt)
        end
  end.

(** The conversion of a number to [unsigned long]: truncated, modulo
    [2^32]. *)
Definition toUint32 (n : Number) : Z :=
  match n with
  | Int z => z mod 4294967296
  | Frac q => (Z.quot (Qnum q) (Z.pos (Qden q))) mod 4294967296
  | _ => 0
  end.

End Num.

Infix "+" := Num.add : num_scope.
Infix "-" := Num.sub : num_scope.
Infix "*" := Num.mul : num_scope.
Infix "/" := Num.div : num_scope.

Module Math.

Definition min (a b : Number) : Number :=
  match a, b with
  | Int x, Int y => Int (Z.min x y)
  | _, _ =>
      match Num.compare a b with
      | None => NaN
      | Some Gt => b
      | Some _ => a
      end
  end.

Definition max (a b : Number) : Number :=
  match a, b with
  | Int x, Int y => Int (Z.max x y)
  | _, _ =>
      match Num.compare a b with
      | None => NaN
      | Some Lt => b
      | Some _ => a
      end
  end.

Definition floor (n : Number) : Number :=
  match n with
  | Frac q => Int (Qfloor q)
  | _ => n
  end.

End Math.

(** ** Data model *)

Inductive LogLevel := NONE | ERROR | WARN | INFO | DEBUG | VERBOSE.

Definition levelNumber (l : LogLevel) : Z :=
  match l with
  | NONE => 0 | ERROR => 1 | WARN => 2 | INFO => 3 | DEBUG => 4 | VERBOSE => 5
  end.

Inductive FillDirection := TOP | RIGHT | BOTTOM | LEFT.

Definition Color : Type := string.

(** [TileId]: the time stamp and the counter of [generateTileId]. *)
Abbreviation TileId := (Z * nat)%type (only parsing).

Module Tile.
Record t := mk {
  id : TileId;
  x : Z;
  y : Z;
  char : string;
  color : Color;
  backgroundColor : Color;
  zIndex : Z;
  bgPercent : Q;
  fillDirection : FillDirection
}.
End Tile.

(** [Partial<Omit<Tile, 'id'>>]: a present key is [Some]. *)
Module Updates.
Record t := mk {
  x : option Z;
  y : option Z;
  char : option string;
  color : option Color;
  backgroundColor : option Color;
  zIndex : option Z;
  bgPercent : option Q;
  fillDirection : option FillDirection
}.
Definition none : t := mk None None None None None None None None.
End Updates.

(** A reference to a tile object: its index in the heap. *)
Abbreviation TileRef := nat (only parsing).

Module Cell.
Record t := mk {
  overlay : Color;
  tiles : list TileRef;
  isDirty : bool
}.
End Cell.

Module Viewport.
Record t := mk { x : Number; y : Number; width : Z; height : Z }.
End Viewport.

(** A dirty key. *)
Abbreviation Key := (Number * Number)%type (only parsing).

(** The key of the cell at [(x,y)]. *)
Definition cellKey (x y : Z) : Key := (Int x, Int y).

(** Canvas calls, recorded in the order they are issued. *)
Inductive DrawCmd :=
| Save
| ClipRect (px py w h : Number)
| ClearRect (px py w h : Number)
| FillRect (style : Color) (px py w h : Number)
| FillText (style : Color) (text : string) (px py : Number)
| DrawImage (sx sy sw sh dx dy dw dh : Number)
| Restore.

(** The messages handed to [this.log]. *)
Inductive Msg :=
| MsgCreating (id : TileId) (x y : Z)
| MsgMoveMissing (id : TileId)
| MsgMoveOutside (x y : Z)
| MsgMoving (id : TileId) (x y : Z)
| MsgUpdateMissing (id : TileId)
| MsgUpdating (id : TileId)
| MsgRemoveMissing (id : TileId)
| MsgRemoving (id : TileId)
| MsgOverlayOutside (x y : Z)
| MsgEmptyOutside (x y : Z)
| MsgSetViewport (x y : Z)
| MsgStartRender (n : nat)
| MsgNoDirty
| MsgDirtyBounds (minX minY maxX maxY : Number)
| MsgRenderedDirty
| MsgCopying
| MsgClearing
| MsgClearingOverlays
| MsgElementIdRequired
| MsgCanvasNotFound (elementId : string)
| MsgInitializing
| MsgLogLevel (from to : LogLevel)
| MsgInitialized.

Inductive Exn :=
| TypeError
| Error (message : string)
| DanglingReference.

(** The counters of [PerformanceMetrics]; its timings and frame rate read
    the wall clock and are left out. *)
Module Metrics.
Record t := mk { dirtyRectCount : nat; totalRenderCalls : nat }.
End Metrics.

Record MatrixDisplay := mkDisplay {
  cells : list (list Cell.t);
  viewport : Viewport.t;
  cellSize : Number;
  dirtyRects : list Key;
  metrics : Metrics.t;
  worldWidth : Z;
  worldHeight : Z;
  worldCanvasWidth : Z;
  worldCanvasHeight : Z;
  displayCanvasWidth : Z;
  displayCanvasHeight : Z;
  heap : list Tile.t;
  tileMap : gmap TileId TileRef;
  tileIdCounter : nat;
  autoRender : bool;
  logLevel : LogLevel;
  console : list (LogLevel * Msg);
  worldCtx : list DrawCmd;
  displayCtx : list DrawCmd
}.

(** What [document.getElementById] finds: a canvas, whose [getContext('2d')]
    gives a context or [null], or an element of another kind. *)
Inductive Element :=
| CanvasElement (context2d : bool)
| OtherElement.

(** What the engine takes from its surroundings: the clock read by
    [generateTileId] (one reading per counter value), the text-markup parser
    of [text-parser.ts], the elements of the document, and the device pixel
    ratio. *)
Record Env := mkEnv {
  now : nat -> Z;
  parse : string -> list (string * Color);
  getElementById : string -> option Element;
  devicePixelRatio : Q
}.

(** ** Field updates *)

Definition with_cells (v : list (list Cell.t)) (s : MatrixDisplay) : MatrixDisplay :=
  mkDisplay v (viewport s) (cellSize s) (dirtyRects s) (metrics s) (worldWidth s)
    (worldHeight s) (worldCanvasWidth s) (worldCanvasHeight s) (displayCanvasWidth s)
    (displayCanvasHeight s) (heap s) (tileMap s) (tileIdCounter s) (autoRender s)
    (logLevel s) (console s) (worldCtx s) (displayCtx s).

Definition with_viewport (v : Viewport.t) (s : MatrixDisplay) : MatrixDisplay :=
  mkDisplay (cells s) v (cellSize s) (dirtyRects s) (metrics s) (worldWidth s)
    (worldHeight s) (worldCanvasWidth s) (worldCanvasHeight s) (displayCanvasWidth s)
    (displayCanvasHeight s) (heap s) (tileMap s) (tileIdCounter s) (autoRender s)
    (logLevel s) (console s) (worldCtx s) (displayCtx s).

Definition with_dirtyRects (v : list Key) (s : MatrixDisplay) : MatrixDisplay :=
  mkDisplay (cells s) (viewport s) (cellSize s) v (metrics s) (worldWidth s)
    (worldHeight s) (worldCanvasWidth s) (worldCanvasHeight s) (displayCanvasWidth s)
    (displayCanvasHeight s) (heap s) (tileMap s) (tileIdCounter s) (autoRender s)
    (logLevel s) (console s) (worldCtx s) (displayCtx s).

Definition with_metrics (v : Metrics.t) (s : MatrixDisplay) : MatrixDisplay :=
  mkDisplay (cells s) (viewport s) (cellSize s) (dirtyRects s) v (worldWidth s)
    (worldHeight s) (worldCanvasWidth s) (worldCanvasHeight s) (displayCanvasWidth s)
    (displayCanvasHeight s) (heap s) (tileMap s) (tileIdCounter s) (autoRender s)
    (logLevel s) (console s) (worldCtx s) (displayCtx s).

Definition with_heap (v : list Tile.t) (s : MatrixDisplay) : MatrixDisplay :=
  mkDisplay (cells s) (viewport s) (cellSize s) (dirtyRects s) (metrics s) (worldWidth s)
    (worldHeight s) (worldCanvasWidth s) (worldCanvasHeight s) (displayCanvasWidth s)
    (displayCanvasHeight s) v (tileMap s) (tileIdCounter s) (autoRender s)
    (logLevel s) (console s) (worldCtx s) (displayCtx s).

Definition with_tileMap (v : gmap TileId TileRef) (s : MatrixDisplay) : MatrixDisplay :=
  mkDisplay (cells s) (viewport s) (cellSize s) (dirtyRects s) (metrics s) (worldWidth s)
    (worldHeight s) (worldCanvasWidth s) (worldCanvasHeight s) (displayCanvasWidth s)
    (displayCanvasHeight s) (heap s) v (tileIdCounter s) (autoRender s)
    (logLevel s) (console s) (worldCtx s) (displayCtx s).

Definition with_tileIdCounter (v : nat) (s : MatrixDisplay) : MatrixDisplay :=
  mkDisplay (cells s) (viewport s) (cellSize s) (dirtyRects s) (metrics s) (worldWidth s)
    (worldHeight s) (worldCanvasWidth s) (worldCanvasHeight s) (displayCanvasWidth s)
    (displayCanvasHeight s) (heap s) (tileMap s) v (autoRender s)
    (logLevel s) (console s) (worldCtx s) (displayCtx s).

Definition with_autoRender (v : bool) (s : MatrixDisplay) : MatrixDisplay :=
  mkDisplay (cells s) (viewport s) (cellSize s) (dirtyRects s) (metrics s) (worldWidth s)
    (worldHeight s) (worldCanvasWidth s) (worldCanvasHeight s) (displayCanvasWidth s)
    (displayCanvasHeight s) (heap s) (tileMap s) (tileIdCounter s) v
    (logLevel s) (console s) (worldCtx s) (displayCtx s).

Definition with_logLevel (v : LogLevel) (s : MatrixDisplay) : MatrixDisplay :=
  mkDisplay (cells s) (viewport s) (cellSize s) (dirtyRects s) (metrics s) (worldWidth s)
    (worldHeight s) (worldCanvasWidth s) (worldCanvasHeight s) (displayCanvasWidth s)
    (displayCanvasHeight s) (heap s) (tileMap s) (tileIdCounter s) (autoRender s)
    v (console s) (worldCtx s) (displayCtx s).

Definition with_console (v : list (LogLevel * Msg)) (s : MatrixDisplay) : MatrixDisplay :=
  mkDisplay (cells s) (viewport s) (cellSize s) (dirtyRects s) (metrics s) (worldWidth s)
    (worldHeight s) (worldCanvasWidth s) (worldCanvasHeight s) (displayCanvasWidth s)
    (displayCanvasHeight s) (heap s) (tileMap s) (tileIdCounter s) (autoRender s)
    (logLevel s) v (worldCtx s) (displayCtx s).

Definition with_worldCtx (v : list DrawCmd) (s : MatrixDisplay) : MatrixDisplay :=
  mkDisplay (cells s) (viewport s) (cellSize s) (dirtyRects s) (metrics s) (worldWidth s)
    (worldHeight s) (worldCanvasWidth s) (worldCanvasHeight s) (displayCanvasWidth s)
    (displayCanvasHeight s) (heap s) (tileMap s) (tileIdCounter s) (autoRender s)
    (logLevel s) (console s) v (displayCtx s).

Definition with_displayCtx (v : list DrawCmd) (s : MatrixDisplay) : MatrixDisplay :=
  mkDisplay (cells s) (viewport s) (cellSize s) (dirtyRects s) (metrics s) (worldWidth s)
    (worldHeight s) (worldCanvasWidth s) (worldCanvasHeight s) (displayCanvasWidth s)
    (displayCanvasHeight s) (heap s) (tileMap s) (tileIdCounter s) (autoRender s)
    (logLevel s) (console s) (worldCtx s) v.

(** ** The monad of methods: state, and a result or a thrown exception *)

Inductive Result (A : Type) :=
| Ok (a : A)
| Throw (e : Exn).
Arguments Ok {A} a.
Arguments Throw {A} e.

Definition M (A : Type) : Type := MatrixDisplay -> Result A * MatrixDisplay.

Definition ret {A} (a : A) : M A := fun s => (Ok a, s).

Definition bind {A B} (m : M A) (k : A -> M B) : M B :=
  fun s => match m s with
           | (Ok a, s') => k a s'
           | (Throw e, s') => (Throw e, s')
           end.

Definition throw {A} (e : Exn) : M A := fun s => (Throw e, s).
Definition get : M MatrixDisplay := fun s => (Ok s, s).
Definition modify (f : MatrixDisplay -> MatrixDisplay) : M unit := fun s => (Ok tt, f s).

Notation "'do' x <- m ; k" := (bind m (fun x => k))
  (at level 10, x name, m at level 100, k at level 200).
Notation "'do' ' pat <- m ; k" := (bind m (fun x => match x with pat => k end))
  (at level 10, pat pattern, m at level 100, k at level 200).
Notation "'run' m ; k" := (bind m (fun _ => k))
  (at level 10, m at level 100, k at level 200).

(** [array.forEach(f)]: left to right, an exception ends the loop. *)
Fixpoint forEach {A} (l : list A) (f : A -> M unit) : M unit :=
  match l with
  | [] => ret tt
  | a :: l' => run f a; forEach l' f
  end.

(** A loop that collects what its body returns, in order. *)
Fixpoint mapM {A B} (f : A -> M B) (l : list A) : M (list B) :=
  match l with
  | [] => ret []
  | a :: l' => do b <- f a; do bs <- mapM f l'; ret (b :: bs)
  end.

(** The state a call leaves behind, returned or thrown. *)
Definition exec {A} (m : M A) (s : MatrixDisplay) : MatrixDisplay := snd (m s).
Definition result {A} (m : M A) (s : MatrixDisplay) : Result A := fst (m s).

(** ** Arrays, the dirty set and tile objects *)

(** [a[i]] for an integer [i]: [undefined] outside the array. *)
Definition index {A} (l : list A) (i : Z) : option A :=
  if i <? 0 then None else l !! Z.to_nat i.

(** [a[n]] for a number [n]: [undefined] unless [n] is whole and inside
    the array. *)
Definition item {A} (l : list A) (n : Number) : option A :=
  match n with
  | Int i => index l i
  | _ => None
  end.

(** [this.cells[y][x]], when it is an object. *)
Definition cellAt (s : MatrixDisplay) (x y : Z) : option Cell.t :=
  match index (cells s) y with
  | Some row => index row x
  | None => None
  end.

(** Assignment to the fields of the cell object at an existing [(x,y)]. *)
Definition updateCell (x y : Z) (f : Cell.t -> Cell.t) (s : MatrixDisplay) : MatrixDisplay :=
  with_cells (alter (alter f (Z.to_nat x)) (Z.to_nat y) (cells s)) s.

(** [this.dirtyRects.add(`${x},${y}`)]. *)
Definition addKey (k : Key) (d : list Key) : list Key :=
  if decide (k ∈ d) then d else d ++ [k].

Definition addDirtyKey (k : Key) : M unit :=
  modify (fun s => with_dirtyRects (addKey k (dirtyRects s)) s).

Definition addDirty (x y : Z) : M unit := addDirtyKey (cellKey x y).

(** [array.findIndex(p)]; [None] stands for [-1]. *)
Fixpoint findIndex {A} (p : A -> bool) (l : list A) : option nat :=
  match l with
  | [] => None
  | a :: l' => if p a then Some 0%nat else S <$> findIndex p l'
  end.

(** [array.splice(i, 0, a)]. *)
Definition splice {A} (i : nat) (a : A) (l : list A) : list A :=
  take i l ++ a :: drop i l.

(** Fields read through a reference.  References come from allocation
    only, so the lookups succeed (see [refs_valid]); the defaults are never
    used. *)
Definition zIndexOf (h : list Tile.t) (r : TileRef) : Z :=
  match h !! r with Some o => Tile.zIndex o | None => 0 end.

Definition idOf (h : list Tile.t) (r : TileRef) : option TileId :=
  Tile.id <$> h !! r.

Definition deref (r : TileRef) : M Tile.t :=
  fun s => match heap s !! r with
           | Some o => (Ok o, s)
           | None => (Throw DanglingReference, s)
           end.

(** A fresh object for an object literal. *)
Definition alloc (o : Tile.t) : M TileRef :=
  fun s => (Ok (length (heap s)), with_heap (heap s ++ [o]) s).

(** [Object.assign(tile, updates)]. *)
Definition assign (o : Tile.t) (u : Updates.t) : Tile.t :=
  Tile.mk (Tile.id o)
    (default (Tile.x o) (Updates.x u))
    (default (Tile.y o) (Updates.y u))
    (default (Tile.char o) (Updates.char u))
    (default (Tile.color o) (Updates.color u))
    (default (Tile.backgroundColor o) (Updates.backgroundColor u))
    (default (Tile.zIndex o) (Updates.zIndex u))
    (default (Tile.bgPercent o) (Updates.bgPercent u))
    (default (Tile.fillDirection o) (Updates.fillDirection u)).

Definition setPosition (o : Tile.t) (x y : Z) : Tile.t :=
  Tile.mk (Tile.id o) x y (Tile.char o) (Tile.color o) (Tile.backgroundColor o)
    (Tile.zIndex o) (Tile.bgPercent o) (Tile.fillDirection o).

Definition store (r : TileRef) (o : Tile.t) : M unit :=
  modify (fun s => with_heap (<[r := o]> (heap s)) s).

(** [cell.tiles.filter(t => t.id !== tileId)]. *)
Definition withoutId (h : list Tile.t) (tileId : TileId) (l : list TileRef) : list TileRef :=
  filter (fun t => idOf h t ≠ Some tileId) l.

(** The list [setTileInCell] leaves in the cell: the tile goes before the
    first tile of strictly greater z-index, at the end if there is none. *)
Definition insertByZ (h : list Tile.t) (r : TileRef) (l : list TileRef) : list TileRef :=
  match findIndex (fun t => zIndexOf h r <? zIndexOf h t) l with
  | None => l ++ [r]
  | Some insertIndex => splice insertIndex r l
  end.

(** [0..n-1], the values of a counting [for] loop. *)
Definition range (n : Z) : list Z := Z.of_nat <$> seq 0 (Z.to_nat n).

(** [for (let i = a; i < b; i++)]. *)
Definition fromTo (a b : Z) : list Z := (fun i => a + i) <$> range (b - a).

(** ** Logging *)

(** [if (this.logLevel >= lvl) console.log(...)]: the console gains the
    message or stays as it is. *)
Definition emit (lvl : LogLevel) (m : Msg) : M unit :=
  modify (fun s => with_console
                     (if levelNumber (logLevel s) >=? levelNumber lvl
                      then console s ++ [(lvl, m)]
                      else console s) s).

Definition log_error := emit ERROR.
Definition log_warn := emit WARN.
Definition log_info := emit INFO.
Definition log_debug := emit DEBUG.
Definition log_verbose := emit VERBOSE.

(** ** The compositor *)

Definition transparent : Color := "#00000000"%string.

(** A string in a condition: true unless empty. *)
Definition truthy (s : string) : bool := negb (String.eqb s ""%string).

Definition draw (c : list DrawCmd) : M unit :=
  modify (fun s => with_worldCtx (worldCtx s ++ c) s).

Definition drawDisplay (c : list DrawCmd) : M unit :=
  modify (fun s => with_displayCtx (displayCtx s ++ c) s).

(** [Array.prototype.sort] with [(a, b) => a.zIndex - b.zIndex]: the sort
    is stable, so the result is the one of this insertion sort. *)
Fixpoint insertSorted (h : list Tile.t) (r : TileRef) (l : list TileRef) : list TileRef :=
  match l with
  | [] => [r]
  | b :: l' => if zIndexOf h r <=? zIndexOf h b then r :: b :: l'
               else b :: insertSorted h r l'
  end.

Definition sortByZ (h : list Tile.t) (l : list TileRef) : list TileRef :=
  foldr (insertSorted h) [] l.

(** The body of [sortedTiles.forEach] in [renderCell]. *)
Definition paintTile (cs pixelX pixelY : Number) (tile : Tile.t) : list DrawCmd :=
  let cellWidth := (cs / Int 2)%num in
  let cellHeight := cs in
  let bgPercent := Num.ofQ (Tile.bgPercent tile) in
  (if truthy (Tile.backgroundColor tile)
      && negb (String.eqb (Tile.backgroundColor tile) transparent)
   then
     if negb (Qle_bool (Tile.bgPercent tile) 0) then
       match Tile.fillDirection tile with
       | TOP =>
           [FillRect (Tile.backgroundColor tile)
              pixelX pixelY cellWidth (cellHeight * bgPercent)]
       | RIGHT =>
           [FillRect (Tile.backgroundColor tile)
              (pixelX + cellWidth * (Int 1 - bgPercent)) pixelY
              (cellWidth * bgPercent) cellHeight]
       | BOTTOM =>
           [FillRect (Tile.backgroundColor tile)
              pixelX (pixelY + cellHeight * (Int 1 - bgPercent))
              cellWidth (cellHeight * bgPercent)]
       | LEFT =>
           [FillRect (Tile.backgroundColor tile)
              pixelX pixelY (cellWidth * bgPercent) cellHeight]
       end
     else []
   else [])
  ++
  (if truthy (Tile.char tile) && truthy (Tile.color tile) then
     let bottomPadding := Math.floor (cs * Num.ofQ (5 # 100)) in
     [FillText (Tile.color tile) (Tile.char tile)
        (pixelX + cs / Int 4)
        (pixelY + cs - bottomPadding)]
   else []).

(** [renderCell(cell, x, y)]; [cell] is [undefined] when [this.cells[y]]
    has no entry [x]. *)
Definition renderCell (cell : option Cell.t) (x y : Number) : M unit :=
  do s <- get;
  let cs := cellSize s in
  let pixelX := (x * cs / Int 2)%num in
  let pixelY := (y * cs)%num in
  run draw [Save; ClipRect pixelX pixelY cs cs;
            ClearRect pixelX pixelY (cs / Int 2) cs];
  match cell with
  | None => throw TypeError
  | Some c =>
      let sortedTiles := sortByZ (heap s) (Cell.tiles c) in
      run forEach sortedTiles (fun r =>
            do tile <- deref r; draw (paintTile cs pixelX pixelY tile));
      run (if truthy (Cell.overlay c) && negb (String.eqb (Cell.overlay c) transparent)
           then draw [FillRect (Cell.overlay c) pixelX pixelY (cs / Int 2) cs]
           else ret tt);
      draw [Restore]
  end.

Definition updateMetrics : M unit :=
  modify (fun s =>
    with_metrics (Metrics.mk (Metrics.dirtyRectCount (metrics s))
                             (S (Metrics.totalRenderCalls (metrics s)))) s).

(** The bounds [render] logs: minimum of the keys, maximum of the keys
    plus one, starting from the infinities. *)
Definition dirtyBounds (d : list Key) : Msg :=
  MsgDirtyBounds
    (foldl Math.min PosInfinity (fst <$> d))
    (foldl Math.min PosInfinity (snd <$> d))
    (foldl Math.max NegInfinity ((fun k => fst k + Int 1)%num <$> d))
    (foldl Math.max NegInfinity ((fun k => snd k + Int 1)%num <$> d)).

Definition render : M unit :=
  do s <- get;
  run log_verbose (MsgStartRender (length (dirtyRects s)));
  if (length (dirtyRects s) =? 0)%nat then
    run log_debug MsgNoDirty;
    updateMetrics
  else
    run modify (fun s => with_metrics
                  (Metrics.mk (length (dirtyRects s))
                              (Metrics.totalRenderCalls (metrics s))) s);
    run log_debug (dirtyBounds (dirtyRects s));
    run forEach (dirtyRects s) (fun key =>
          do s' <- get;
          match item (cells s') (snd key) with
          | None => throw TypeError
          | Some row => renderCell (item row (fst key)) (fst key) (snd key)
          end);
    run log_verbose MsgRenderedDirty;
    run modify (with_dirtyRects []);
    run log_debug MsgCopying;
    let cs := cellSize s in
    let srcX := (Viewport.x (viewport s) * cs / Int 2)%num in
    let srcY := (Viewport.y (viewport s) * cs)%num in
    let srcWidth := (Int (Viewport.width (viewport s)) * cs / Int 2)%num in
    let srcHeight := (Int (Viewport.height (viewport s)) * cs)%num in
    run drawDisplay
          [ClearRect (Int 0) (Int 0) (Int (displayCanvasWidth s))
             (Int (displayCanvasHeight s));
           DrawImage srcX srcY srcWidth srcHeight (Int 0) (Int 0) srcWidth srcHeight];
    updateMetrics.

Definition setAutoRender (enabled : bool) : M unit :=
  modify (with_autoRender enabled).

Definition renderIfAuto : M unit :=
  do s <- get;
  if autoRender s then render else ret tt.

Definition setLogLevel (level : LogLevel) : M unit :=
  do s <- get;
  run log_info (MsgLogLevel (logLevel s) level);
  modify (with_logLevel level).

(** A loop over [l] that updates local variables [b]. *)
Fixpoint foldM {A B} (f : B -> A -> M B) (b : B) (l : list A) : M B :=
  match l with
  | [] => ret b
  | a :: l' => do b' <- f b a; foldM f b' l'
  end.

(** ** Strings and words *)

(** A character of a text: a Unicode code point. *)
Abbreviation CodePoint := N (only parsing).

(** A byte that continues a character in UTF-8. *)
Definition isContinuation (b : ascii) : bool :=
  let n := N_of_ascii b in ((128 <=? n) && (n <? 192))%N.

(** The bytes of a text, one group per character: a byte and the
    continuation bytes that follow it. *)
Fixpoint groupBytes (l : list ascii) : list (list ascii) :=
  match l with
  | [] => []
  | b :: l' =>
      match groupBytes l' with
      | (b' :: group) :: groups =>
          if isContinuation b' then (b :: b' :: group) :: groups
          else [b] :: (b' :: group) :: groups
      | groups => [b] :: groups
      end
  end.

(** The code point that a group of bytes encodes. *)
Definition decode (group : list ascii) : CodePoint :=
  match group with
  | [] => 0%N
  | b :: rest =>
      let n := N_of_ascii b in
      let lead := (if n <? 128 then n else if n <? 192 then n - 128
                   else if n <? 224 then n - 192
                   else if n <? 240 then n - 224 else n - 240)%N in
      foldl (fun acc b' => (acc * 64 + N_of_ascii b' mod 64)%N) lead rest
  end.

(** [Array.from(text)]: the characters of the text, a surrogate pair
    counting as one. *)
Definition codePoints (text : string) : list CodePoint :=
  decode <$> groupBytes (list_ascii_of_string text).

(** The string that consists of one character. *)
Definition charString (c : CodePoint) : string :=
  let byte (n : N) := ascii_of_N n in
  let cont (n : N) := byte (128 + n mod 64)%N in
  string_of_list_ascii
    (if (c <? 128)%N then [byte c]
     else if (c <? 2048)%N then [byte (192 + c / 64)%N; cont c]
     else if (c <? 65536)%N then [byte (224 + c / 4096)%N; cont (c / 64)%N; cont c]
     else [byte (240 + c / 262144)%N; cont (c / 4096)%N; cont (c / 64)%N; cont c]).

(** The number of UTF-16 code units of a character: two outside the basic
    plane. *)
Definition codeUnits (c : CodePoint) : Z := if (c <? 65536)%N then 1 else 2.

(** [word.length]: the number of code units. *)
Definition jsLength (word : list CodePoint) : Z :=
  foldr (fun c n => codeUnits c + n) 0 word.

(** [\s]: the white space and line terminators of ECMAScript. *)
Definition isSpace (c : CodePoint) : bool :=
  ((9 <=? c) && (c <=? 13) || (c =? 32) || (c =? 160) || (c =? 5760)
   || (8192 <=? c) && (c <=? 8202) || (c =? 8232) || (c =? 8233) || (c =? 8239)
   || (c =? 8287) || (c =? 12288) || (c =? 65279))%N.

(** [text.split(/(\s+)/)]: the pieces between the whitespace runs, with
    the runs themselves in between; the first and the last piece may be
    empty. *)
Fixpoint splitSpaces (l : list CodePoint) : list (list CodePoint) :=
  match l with
  | [] => [[]]
  | c :: l' =>
      let pieces := splitSpaces l' in
      if isSpace c then
        match pieces with
        | [] :: ws :: more => [] :: (c :: ws) :: more
        | _ => [] :: [c] :: pieces
        end
      else
        match pieces with
        | piece :: more => (c :: piece) :: more
        | [] => [[c]]
        end
  end.

Module Options.
Record t := mk {
  zIndex : option Z;
  backgroundColor : option Color;
  textBackgroundColor : option Color;
  fillBox : option bool;
  padding : option Z
}.
Definition empty : t := mk None None None None None.
End Options.

(** The local variables of [createWrappedString]. *)
Module Wrap.
Record t := mk {
  currentX : Z;
  currentY : Z;
  lineStart : Z;
  currentLineWords : list (list TileId * list CodePoint);
  tileIds : list TileId
}.
End Wrap.

(** [MatrixDisplayConfig]; the font options only reach the canvas font
    string and are left out. *)
Module Config.
Record t := mk {
  elementId : option string;
  cellSize : Q;
  worldWidth : Z;
  worldHeight : Z;
  viewportWidth : Z;
  viewportHeight : Z;
  logLevel : option LogLevel
}.
End Config.

(** ** The cell and tile store *)

Section Engine.

Context (env : Env).

(** The test of [setTileInCell]. *)
Definition insideWorld (s : MatrixDisplay) (x y : Z) : bool :=
  (x >=? 0) && (x <? worldWidth s) && (y >=? 0) && (y <? worldHeight s).

(** The test of [moveTile], [setOverlay] and [emptyCell]. *)
Definition outsideWorld (s : MatrixDisplay) (x y : Z) : bool :=
  (x <? 0) || (x >=? worldWidth s) || (y <? 0) || (y >=? worldHeight s).

Definition generateTileId : M TileId :=
  fun s => let n := tileIdCounter s in
           (Ok (now env n, n), with_tileIdCounter (S n) s).

Definition setTileInCell (tile : TileRef) : M unit :=
  do o <- deref tile;
  do s <- get;
  if insideWorld s (Tile.x o) (Tile.y o) then
    match cellAt s (Tile.x o) (Tile.y o) with
    | None => throw TypeError
    | Some _ =>
        run modify (updateCell (Tile.x o) (Tile.y o) (fun cell =>
              Cell.mk (Cell.overlay cell) (insertByZ (heap s) tile (Cell.tiles cell)) true));
        addDirty (Tile.x o) (Tile.y o)
    end
  else ret tt.

(** The optional arguments default to [zIndex = 1], [bgPercent = 1] and
    [fillDirection = BOTTOM]; callers here pass all of them. *)
Definition createTile (x y : Z) (char : string) (color backgroundColor : Color)
    (zIndex : Z) (bgPercent : Q) (fillDirection : FillDirection) : M TileId :=
  do id <- generateTileId;
  run log_verbose (MsgCreating id x y);
  do tile <- alloc (Tile.mk id x y char color backgroundColor zIndex bgPercent fillDirection);
  run modify (fun s => with_tileMap (<[id := tile]> (tileMap s)) s);
  run setTileInCell tile;
  run renderIfAuto;
  ret id.

Definition moveTile (tileId : TileId) (newX newY : Z) : M unit :=
  do s <- get;
  match tileMap s !! tileId with
  | None => log_warn (MsgMoveMissing tileId)
  | Some tile =>
      if outsideWorld s newX newY then log_warn (MsgMoveOutside newX newY)
      else
        run log_verbose (MsgMoving tileId newX newY);
        do o <- deref tile;
        match cellAt s (Tile.x o) (Tile.y o) with
        | None => throw TypeError
        | Some _ =>
            run modify (updateCell (Tile.x o) (Tile.y o) (fun oldCell =>
                  Cell.mk (Cell.overlay oldCell)
                          (withoutId (heap s) tileId (Cell.tiles oldCell)) true));
            run addDirty (Tile.x o) (Tile.y o);
            run store tile (setPosition o newX newY);
            run setTileInCell tile;
            renderIfAuto
        end
  end.

Definition moveTiles (tileIds : list TileId) (dx dy : Z) : M unit :=
  forEach tileIds (fun tileId =>
    do s <- get;
    match tileMap s !! tileId with
    | None => ret tt
    | Some tile => do o <- deref tile; moveTile tileId (Tile.x o + dx) (Tile.y o + dy)
    end).

Definition updateTile (tileId : TileId) (updates : Updates.t) : M unit :=
  do s <- get;
  match tileMap s !! tileId with
  | None => log_warn (MsgUpdateMissing tileId)
  | Some tile =>
      run log_verbose (MsgUpdating tileId);
      do o <- deref tile;
      let o' := assign o updates in
      run store tile o';
      if bool_decide (is_Some (Updates.x updates)) || bool_decide (is_Some (Updates.y updates))
      then moveTile tileId (Tile.x o') (Tile.y o')
      else
        match cellAt s (Tile.x o') (Tile.y o') with
        | None => throw TypeError
        | Some _ =>
            run modify (updateCell (Tile.x o') (Tile.y o') (fun cell =>
                  Cell.mk (Cell.overlay cell) (Cell.tiles cell) true));
            run addDirty (Tile.x o') (Tile.y o');
            renderIfAuto
        end
  end.

Definition updateTiles (tileIds : list TileId) (updates : Updates.t) : M unit :=
  forEach tileIds (fun tileId => updateTile tileId updates).

Definition removeTile (tileId : TileId) : M unit :=
  do s <- get;
  match tileMap s !! tileId with
  | None => log_warn (MsgRemoveMissing tileId)
  | Some tile =>
      run log_verbose (MsgRemoving tileId);
      do o <- deref tile;
      match cellAt s (Tile.x o) (Tile.y o) with
      | None => throw TypeError
      | Some _ =>
          run modify (updateCell (Tile.x o) (Tile.y o) (fun cell =>
                Cell.mk (Cell.overlay cell)
                        (withoutId (heap s) tileId (Cell.tiles cell)) true));
          run addDirty (Tile.x o) (Tile.y o);
          run modify (fun s => with_tileMap (delete tileId (tileMap s)) s);
          renderIfAuto
      end
  end.

Definition removeTiles (tileIds : list TileId) : M unit :=
  forEach tileIds removeTile.

Definition setOverlay (x y : Z) (color : Color) : M unit :=
  do s <- get;
  if outsideWorld s x y then log_warn (MsgOverlayOutside x y)
  else
    match cellAt s x y with
    | None => throw TypeError
    | Some _ =>
        run modify (updateCell x y (fun cell => Cell.mk color (Cell.tiles cell) true));
        run addDirty x y;
        renderIfAuto
    end.

(** The width of the world in cells is recovered as the quotient of the
    canvas width, a whole number of pixels, and the cell size. *)
Definition setViewport (x y : Z) : M unit :=
  run log_debug (MsgSetViewport x y);
  run modify (fun s =>
        let v := viewport s in
        let x' := Math.max (Int 0)
                    (Math.min (Int x)
                       (Int (worldCanvasWidth s) / cellSize s - Int (Viewport.width v))) in
        let y' := Math.max (Int 0)
                    (Math.min (Int y)
                       (Int (worldCanvasHeight s) / cellSize s - Int (Viewport.height v))) in
        with_viewport (Viewport.mk x' y' (Viewport.width v) (Viewport.height v)) s);
  do s <- get;
  run forEach (range (Viewport.height (viewport s))) (fun vy =>
        forEach (range (Viewport.width (viewport s))) (fun vx =>
          let worldX := (Int vx + Viewport.x (viewport s))%num in
          let worldY := (Int vy + Viewport.y (viewport s))%num in
          addDirtyKey (worldX, worldY)));
  renderIfAuto.

Definition getTile (tileId : TileId) (s : MatrixDisplay) : option Tile.t :=
  match tileMap s !! tileId with
  | Some tile => heap s !! tile
  | None => None
  end.

Definition getWorldWidth (s : MatrixDisplay) : Z := worldWidth s.
Definition getWorldHeight (s : MatrixDisplay) : Z := worldHeight s.
Definition getViewportWidth (s : MatrixDisplay) : Z := Viewport.width (viewport s).
Definition getViewportHeight (s : MatrixDisplay) : Z := Viewport.height (viewport s).

Definition emptyCellObject : Cell.t := Cell.mk transparent [] true.

Definition clear : M unit :=
  run log_info MsgClearing;
  do s <- get;
  run forEach (imap (fun y row => (Z.of_nat y, range (Z.of_nat (length row)))) (cells s))
        (fun '(y, xs) => forEach xs (fun x =>
           run modify (updateCell x y (fun _ => emptyCellObject));
           addDirty x y));
  run drawDisplay [ClearRect (Int 0) (Int 0) (Int (displayCanvasWidth s))
                     (Int (displayCanvasHeight s))];
  run draw [ClearRect (Int 0) (Int 0) (Int (worldCanvasWidth s))
              (Int (worldCanvasHeight s))];
  renderIfAuto.

(** [tiles] are the objects the caller passes, by reference.  The cell
    keeps the array itself, which [setTileInCell] later changes in place;
    the list stored here stands for an array that is handed to this one
    cell and not touched by the caller afterwards. *)
Definition setTiles (x y : Z) (tiles : list TileRef) : M unit :=
  do s <- get;
  match cellAt s x y with
  | None => throw TypeError
  | Some _ =>
      run modify (updateCell x y (fun cell => Cell.mk (Cell.overlay cell) tiles true));
      addDirty x y
  end.

Definition clearOverlays : M unit :=
  run log_debug MsgClearingOverlays;
  do s <- get;
  run forEach (imap (fun y row => (Z.of_nat y, range (Z.of_nat (length row)))) (cells s))
        (fun '(y, xs) => forEach xs (fun x =>
           run modify (updateCell x y (fun cell =>
                 Cell.mk transparent (Cell.tiles cell) true));
           addDirty x y));
  renderIfAuto.

Definition setBackground (symbol : string) (fgColor bgColor : Color) : M unit :=
  do s <- get;
  run forEach (range (worldHeight s)) (fun y =>
        forEach (range (worldWidth s)) (fun x =>
          do id <- generateTileId;
          do backgroundTile <- alloc (Tile.mk id x y symbol fgColor bgColor (-1) 1 BOTTOM);
          do s' <- get;
          match cellAt s' x y with
          | None => throw TypeError
          | Some _ =>
              run modify (updateCell x y (fun cell =>
                    Cell.mk (Cell.overlay cell)
                      (filter (fun t => zIndexOf (heap s') t ≠ -1) (Cell.tiles cell)
                         ++ [backgroundTile]) true));
              addDirty x y
          end));
  renderIfAuto.

Definition emptyCell (x y : Z) : M unit :=
  do s <- get;
  if outsideWorld s x y then log_warn (MsgEmptyOutside x y)
  else
    match cellAt s x y with
    | None => throw TypeError
    | Some cell =>
        let tileIds := omap (idOf (heap s)) (Cell.tiles cell) in
        forEach tileIds removeTile
    end.

(** ** Text layout *)

Definition createString (x y : Z) (text : string) (zIndex : Z) : M (list TileId) :=
  let segments := parse env text in
  do '(_, tileIds) <-
     foldM (fun acc segment =>
              foldM (fun '(currentX, tileIds) char =>
                       do tileId <- createTile currentX y (charString char) (snd segment)
                                      "#000000FF"%string zIndex 1 BOTTOM;
                       ret (currentX + 1, tileIds ++ [tileId]))
                    acc (codePoints (fst segment)))
           (x, []) segments;
  ret tileIds.

(** The body of [words.forEach] in [createWrappedString]: the tiles of the
    word are created at the cursor, one per character; the cursor wraps if
    the word does not fit; the tiles are moved to the cursor, and the cursor
    advances by the length of the word in code units. *)
Definition placeWord (x width zIndex : Z) (textBackgroundColor color : Color)
    (w : Wrap.t) (word : list CodePoint) : M Wrap.t :=
  if jsLength word =? 0 then ret w
  else
    do wordTileIds <-
       foldM (fun wordTileIds char =>
                do tileId <- createTile (Wrap.currentX w + Z.of_nat (length wordTileIds))
                               (Wrap.currentY w) (charString char) color
                               textBackgroundColor zIndex 1 BOTTOM;
                ret (wordTileIds ++ [tileId]))
             [] word;
    let w1 :=
      if (Wrap.currentX w - Wrap.lineStart w + jsLength word >? width)
         && (0 <? length (Wrap.currentLineWords w))%nat
      then Wrap.mk x (Wrap.currentY w + 1) x [] (Wrap.tileIds w)
      else w in
    run forEach (imap (fun i tileId => (Z.of_nat i, tileId)) wordTileIds)
          (fun '(i, tileId) => moveTile tileId (Wrap.currentX w1 + i) (Wrap.currentY w1));
    ret (Wrap.mk (Wrap.currentX w1 + jsLength word) (Wrap.currentY w1)
           (Wrap.lineStart w1)
           (Wrap.currentLineWords w1 ++ [(wordTileIds, word)])
           (Wrap.tileIds w1 ++ wordTileIds)).

Definition createWrappedString (x y width height : Z) (text : string)
    (options : Options.t) : M (list TileId) :=
  let zIndex := default 1 (Options.zIndex options) in
  let backgroundColor := default transparent (Options.backgroundColor options) in
  let textBackgroundColor := default transparent (Options.textBackgroundColor options) in
  let fillBox := default false (Options.fillBox options) in
  let padding := default 0 (Options.padding options) in
  let actualX := x - padding in
  let actualY := y - padding in
  let actualWidth := width + padding * 2 in
  let actualHeight := height + padding * 2 + 1 in
  do tileIds <-
     (if fillBox then
        foldM (fun tileIds py =>
                 foldM (fun tileIds px =>
                          do tileId <- createTile px py " "%string transparent
                                         backgroundColor (zIndex - 1) 1 BOTTOM;
                          ret (tileIds ++ [tileId]))
                       tileIds (fromTo actualX (actualX + actualWidth)))
              [] (fromTo actualY (actualY + actualHeight))
      else ret []);
  let segments := parse env text in
  do w <- foldM (fun w segment =>
                   foldM (placeWord x width zIndex textBackgroundColor (snd segment))
                         w (splitSpaces (codePoints (fst segment))))
                (Wrap.mk x y x [] tileIds) segments;
  ret (Wrap.tileIds w).

(** ** Construction *)

Definition initializeCells (width height : Z) : list (list Cell.t) :=
  replicate (Z.to_nat height) (replicate (Z.to_nat width) emptyCellObject).

(** The value the [width] or [height] of a canvas has after a number is
    assigned to it: the number as an [unsigned long] if that is at most
    [2^31 - 1], and the default of the attribute if not. *)
Definition canvasLength (default : Z) (n : Number) : Z :=
  let v := Num.toUint32 n in
  if v <=? 2147483647 then v else default.

(** The object the constructor builds.  [cellSize] is the configured size
    times the device pixel ratio; the canvases are sized from it, in whole
    pixels. *)
Definition newDisplay (options : Config.t) : MatrixDisplay :=
  let scale := if Qeq_bool (devicePixelRatio env) 0 then 1%Q else devicePixelRatio env in
  let cs := (Num.ofQ (Config.cellSize options) * Num.ofQ scale)%num in
  exec (run log_info MsgInitializing; log_info MsgInitialized)
    {| cells := initializeCells (Config.worldWidth options) (Config.worldHeight options);
       viewport := Viewport.mk (Int 0) (Int 0) (Config.viewportWidth options)
                                   (Config.viewportHeight options);
       cellSize := cs;
       dirtyRects := [];
       metrics := Metrics.mk 0 0;
       worldWidth := Config.worldWidth options;
       worldHeight := Config.worldHeight options;
       worldCanvasWidth := canvasLength 300 (Int (Config.worldWidth options) * cs);
       worldCanvasHeight := canvasLength 150 (Int (Config.worldHeight options) * cs);
       displayCanvasWidth := canvasLength 300 (Int (Config.viewportWidth options) * cs);
       displayCanvasHeight := canvasLength 150 (Int (Config.viewportHeight options) * cs);
       heap := [];
       tileMap := ∅;
       tileIdCounter := 0;
       autoRender := true;
       logLevel := default WARN (Config.logLevel options);
       console := [];
       worldCtx := [];
       displayCtx := [] |}.

(** The constructor.  It throws an [Error] when the element id is missing
    or names no element.  It takes the element for a canvas: on an element
    of another kind the call of [getContext] is a [TypeError], and so is
    the call of [scale] on the context when the canvas gives none. *)
Definition construct (options : Config.t) : Result MatrixDisplay :=
  match Config.elementId options with
  | None => Throw (Error "elementId is required in MatrixDisplayConfig")
  | Some elementId =>
      if negb (truthy elementId)
      then Throw (Error "elementId is required in MatrixDisplayConfig")
      else
        match getElementById env elementId with
        | None => Throw (Error ("Canvas element not found: " ++ elementId))
        | Some OtherElement => Throw TypeError
        | Some (CanvasElement false) => Throw TypeError
        | Some (CanvasElement true) => Ok (newDisplay options)
        end
  end.

End Engine.

(** * Traces of public operations *)

Inductive Op :=
| CreateTile (x y : Z) (char : string) (color backgroundColor : Color)
    (zIndex : Z) (bgPercent : Q) (fillDirection : FillDirection)
| MoveTile (tileId : TileId) (newX newY : Z)
| MoveTiles (tileIds : list TileId) (dx dy : Z)
| UpdateTile (tileId : TileId) (updates : Updates.t)
| UpdateTiles (tileIds : list TileId) (updates : Updates.t)
| RemoveTile (tileId : TileId)
| RemoveTiles (tileIds : list TileId)
| SetOverlay (x y : Z) (color : Color)
| SetViewport (x y : Z)
| Render
| Clear
| SetTiles (x y : Z) (tiles : list TileRef)
| ClearOverlays
| SetBackground (symbol : string) (fgColor bgColor : Color)
| SetAutoRender (enabled : bool)
| SetLogLevel (level : LogLevel)
| CreateString (x y : Z) (text : string) (zIndex : Z)
| CreateWrappedString (x y width height : Z) (text : string) (options : Options.t)
| EmptyCell (x y : Z).

Definition movesOrSets (u : Updates.t) : bool :=
  bool_decide (is_Some (Updates.x u)) || bool_decide (is_Some (Updates.y u)).

Definition restacks (u : Updates.t) : bool :=
  bool_decide (is_Some (Updates.zIndex u)).

(** The operations under which every tile of the index stays in the cell
    of its stored position: all but [setTiles], [clear] and
    [setBackground], which assign cell lists without consulting the index,
    and [updateTile] with a position. *)
Definition keepsPlacement (op : Op) : bool :=
  match op with
  | SetTiles _ _ _ | Clear | SetBackground _ _ _ => false
  | UpdateTile _ u | UpdateTiles _ u => negb (movesOrSets u)
  | _ => true
  end.

(** The operations under which the cell lists stay in ascending z-order:
    all but [setTiles] and [setBackground], which assign or append without
    ordering, and [updateTile] with a z-index. *)
Definition keepsOrder (op : Op) : bool :=
  match op with
  | SetTiles _ _ _ | SetBackground _ _ _ => false
  | UpdateTile _ u | UpdateTiles _ u => negb (restacks u)
  | _ => true
  end.

(** The ids an operation hands to [moveTile], which takes the tile out of
    the list of a cell and puts it into the list of a cell anew: those of
    [moveTile] and [moveTiles], and those of [updateTile] with a position.
    (The string operations move only the tiles they have just created.) *)
Definition movedIds (op : Op) : list TileId :=
  match op with
  | MoveTile id _ _ => [id]
  | MoveTiles ids _ _ => ids
  | UpdateTile id u => if movesOrSets u then [id] else []
  | UpdateTiles ids u => if movesOrSets u then ids else []
  | _ => []
  end.

Section Traces.

Context (env : Env).

Definition discard {A} (m : M A) : M unit := do _ <- m; ret tt.

Definition perform (op : Op) : M unit :=
  match op with
  | CreateTile x y char color backgroundColor zIndex bgPercent fillDirection =>
      discard (createTile env x y char color backgroundColor zIndex bgPercent fillDirection)
  | MoveTile tileId newX newY => moveTile tileId newX newY
  | MoveTiles tileIds dx dy => moveTiles tileIds dx dy
  | UpdateTile tileId updates => updateTile tileId updates
  | UpdateTiles tileIds updates => updateTiles tileIds updates
  | RemoveTile tileId => removeTile tileId
  | RemoveTiles tileIds => removeTiles tileIds
  | SetOverlay x y color => setOverlay x y color
  | SetViewport x y => setViewport x y
  | Render => render
  | Clear => clear
  | SetTiles x y tiles => setTiles x y tiles
  | ClearOverlays => clearOverlays
  | SetBackground symbol fgColor bgColor => setBackground env symbol fgColor bgColor
  | SetAutoRender enabled => setAutoRender enabled
  | SetLogLevel level => setLogLevel level
  | CreateString x y text zIndex => discard (createString env x y text zIndex)
  | CreateWrappedString x y width height text options =>
      discard (createWrappedString env x y width height text options)
  | EmptyCell x y => emptyCell x y
  end.

(** A caller that issues the operations one after the other and goes on
    after an exception. *)
Definition runOps (ops : list Op) (s : MatrixDisplay) : MatrixDisplay :=
  foldl (fun s op => exec (perform op) s) s ops.

(** The states a freshly constructed engine reaches by operations that
    satisfy [allowed]. *)
Inductive reachable (options : Config.t) (allowed : Op -> bool) : MatrixDisplay -> Prop :=
| reach_new : reachable options allowed (newDisplay env options)
| reach_step s op :
    reachable options allowed s -> allowed op = true ->
    reachable options allowed (exec (perform op) s).

End Traces.

(** * Properties of states *)

(** The tile object [r], whose fields are [o], is in the list of the cell
    at its stored position, once, and in the list of no other cell. *)
Definition placedOnce (s : MatrixDisplay) (r : TileRef) (o : Tile.t) : Prop :=
  (exists c, cellAt s (Tile.x o) (Tile.y o) = Some c
             /\ r ∈ Cell.tiles c /\ NoDup (Cell.tiles c))
  /\ (forall x y c, cellAt s x y = Some c -> r ∈ Cell.tiles c ->
                    x = Tile.x o /\ y = Tile.y o).

Definition placement (s : MatrixDisplay) : Prop :=
  forall id r o, tileMap s !! id = Some r -> heap s !! r = Some o -> placedOnce s r o.

Fixpoint ascending (zs : list Z) : Prop :=
  match zs with
  | [] => True
  | z :: zs' => Forall (fun z' => z <= z') zs' /\ ascending zs'
  end.

Definition zOrdered (h : list Tile.t) (l : list TileRef) : Prop :=
  ascending (zIndexOf h <$> l).

Definition ordered (s : MatrixDisplay) : Prop :=
  forall x y c, cellAt s x y = Some c -> zOrdered (heap s) (Cell.tiles c).

(** [a] comes before [b] in [l]. *)
Definition precedes {A} (a b : A) (l : list A) : Prop :=
  exists l1 l2 l3, l = l1 ++ a :: l2 ++ b :: l3.

(** The order in which [renderCell] paints the tiles of the cell at
    [(x,y)]. *)
Definition paintOrder (s : MatrixDisplay) (x y : Z) : list TileRef :=
  match cellAt s x y with
  | Some c => sortByZ (heap s) (Cell.tiles c)
  | None => []
  end.


(** The grid has [worldHeight] rows of [worldWidth] cells. *)
Definition gridShaped (s : MatrixDisplay) : Prop :=
  length (cells s) = Z.to_nat (worldHeight s)
  /\ Forall (fun row => length row = Z.to_nat (worldWidth s)) (cells s).

(** The world canvas is a whole number of cells wide and high: its width
    and height in pixels, divided by the cell size, give the width and
    height of the world in cells. *)
Definition wholeCells (s : MatrixDisplay) : Prop :=
  (Int (worldCanvasWidth s) / cellSize s)%num = Int (worldWidth s)
  /\ (Int (worldCanvasHeight s) / cellSize s)%num = Int (worldHeight s).

(** Every reference in a cell list names an object. *)
Definition refsValid (s : MatrixDisplay) : Prop :=
  forall x y c r, cellAt s x y = Some c -> r ∈ Cell.tiles c -> (r < length (heap s))%nat.

(** The key names a cell of the world: both numbers are whole and inside
    the world. *)
Definition keyInside (s : MatrixDisplay) (k : Key) : bool :=
  match k with
  | (Int x, Int y) => insideWorld s x y
  | _ => false
  end.

(** Every dirty key names a cell. *)
Definition dirtyInside (s : MatrixDisplay) : Prop :=
  Forall (fun k => keyInside s k = true) (dirtyRects s).

(** Every indexed id names an object that carries it, and every indexed
    counter has been handed out already. *)
Definition indexSound (s : MatrixDisplay) : Prop :=
  forall id r, tileMap s !! id = Some r ->
    (exists o, heap s !! r = Some o /\ Tile.id o = id)
    /\ (snd id < tileIdCounter s)%nat.


(** What the render pass and the operations on tiles rely on. *)
Definition wellFormed (s : MatrixDisplay) : Prop :=
  gridShaped s /\ refsValid s /\ dirtyInside s /\ indexSound s.

(** * A concrete engine for the examples *)

(** The clock ticks once per id; the parser returns the text as one white
    segment; every element id names a canvas with a 2d context; a device
    pixel is a CSS pixel. *)
Definition demoEnv : Env :=
  mkEnv (fun n => 1000 + Z.of_nat n)
        (fun text => [(text, "#FFFFFFFF"%string)])
        (fun _ => Some (CanvasElement true))
        1.

(** A 10 by 10 world seen through a 5 by 5 viewport. *)
Definition demoConfig : Config.t :=
  Config.mk (Some "display"%string) 20 10 10 5 5 None.

Definition demo : MatrixDisplay := newDisplay demoEnv demoConfig.






(** A 3 by 3 world seen through a 5 by 5 viewport. *)
Definition narrowConfig : Config.t :=
  Config.mk (Some "display"%string) 20 3 3 5 5 None.

Definition demoId (n : nat) : TileId := (now demoEnv n, n).

Definition white : Color := "#FFFFFFFF"%string.
Definition black : Color := "#000000FF"%string.

Definition onlyZIndex (z : Z) : Updates.t :=
  Updates.mk None None None None None (Some z) None None.


(** A tile is created and its cell list is then replaced by the empty
    list. *)
Definition replacedList : list Op :=
  [CreateTile 0 0 "@" white black 1 1 BOTTOM; SetTiles 0 0 []].


(** Two tiles share a cell and the lower one is raised above the other. *)
Definition raisedInPlace : list Op :=
  [CreateTile 0 0 "a" white black 1 1 BOTTOM;
   CreateTile 0 0 "b" white black 2 1 BOTTOM;
   UpdateTile (demoId 0) (onlyZIndex 5)].

(** Tiles [a] and [b] are created in this order with z-index 2; between
    them a tile [c] is created below and raised above. *)
Definition overtaken : list Op :=
  [CreateTile 0 0 "a" white black 2 1 BOTTOM;
   CreateTile 0 0 "c" white black 1 1 BOTTOM;
   UpdateTile (demoId 1) (onlyZIndex 9);
   CreateTile 0 0 "b" white black 2 1 BOTTOM].

(** Two tiles of equal z-index share a cell. *)
Definition stacked : list Op :=
  [SetAutoRender false;
   CreateTile 0 0 "a" white black 1 1 BOTTOM;
   CreateTile 0 0 "b" white black 1 1 BOTTOM].

(** A tile is created left of the world. *)
Definition createdOutside : list Op :=
  [CreateTile (-1) 0 "@" white black 1 1 BOTTOM].

(** * Relating states *)

(** [s'] differs from [s] at most in what a render pass and the log write:
    the dirty set, the metrics, the console and the two canvases. *)
Definition outputOnly (s s' : MatrixDisplay) : Prop :=
  cells s' = cells s /\ viewport s' = viewport s /\ cellSize s' = cellSize s
  /\ worldWidth s' = worldWidth s /\ worldHeight s' = worldHeight s
  /\ worldCanvasWidth s' = worldCanvasWidth s
  /\ worldCanvasHeight s' = worldCanvasHeight s
  /\ displayCanvasWidth s' = displayCanvasWidth s
  /\ displayCanvasHeight s' = displayCanvasHeight s
  /\ heap s' = heap s /\ tileMap s' = tileMap s
  /\ tileIdCounter s' = tileIdCounter s
  /\ autoRender s' = autoRender s /\ logLevel s' = logLevel s.

(** A method that only renders and logs. *)
Definition quiet {A} (m : M A) : Prop := forall s, outputOnly s (exec m s).

(** A method that maintains [I], whether it returns or throws. *)
Definition keeps (I : MatrixDisplay -> Prop) {A} (m : M A) : Prop :=
  forall s, I s -> I (exec m s).

(** A method that maintains [I] and whose result, when it returns one,
    satisfies [Q]. *)
Definition yields (I : MatrixDisplay -> Prop) {A} (Q : A -> Prop) (m : M A) : Prop :=
  forall s, I s -> I (exec m s) /\ forall a, result m s = Ok a -> Q a.

(** The state after [this.log] is handed a message. *)
Definition logged (lvl : LogLevel) (m : Msg) (s : MatrixDisplay) : MatrixDisplay :=
  with_console (if levelNumber (logLevel s) >=? levelNumber lvl
                then console s ++ [(lvl, m)] else console s) s.

(** The state after the object [r], with fields [o], is put into the list
    of its cell by [setTileInCell]. *)
Definition inserted (r : TileRef) (o : Tile.t) (s : MatrixDisplay) : MatrixDisplay :=
  with_dirtyRects (addKey (cellKey (Tile.x o) (Tile.y o)) (dirtyRects s))
    (updateCell (Tile.x o) (Tile.y o)
       (fun cell => Cell.mk (Cell.overlay cell)
                            (insertByZ (heap s) r (Cell.tiles cell)) true) s).

(** The state after the objects with id [tileId] are taken out of the
    list of the cell at [(x,y)]. *)
Definition removed (tileId : TileId) (x y : Z) (s : MatrixDisplay) : MatrixDisplay :=
  with_dirtyRects (addKey (cellKey x y) (dirtyRects s))
    (updateCell x y
       (fun cell => Cell.mk (Cell.overlay cell)
                            (withoutId (heap s) tileId (Cell.tiles cell)) true) s).

(** The state after a new object [o] is allocated and indexed. *)
Definition registered (o : Tile.t) (s : MatrixDisplay) : MatrixDisplay :=
  with_tileMap (<[Tile.id o := length (heap s)]> (tileMap s))
    (with_heap (heap s ++ [o]) s).

(** The state after the fields of the object [r] are overwritten. *)
Definition stored (r : TileRef) (o : Tile.t) (s : MatrixDisplay) : MatrixDisplay :=
  with_heap (<[r := o]> (heap s)) s.

(** The state after the cell at [(x,y)] is flagged dirty. *)
Definition flagged (x y : Z) (s : MatrixDisplay) : MatrixDisplay :=
  with_dirtyRects (addKey (cellKey x y) (dirtyRects s))
    (updateCell x y (fun cell => Cell.mk (Cell.overlay cell) (Cell.tiles cell) true) s).

(** [s'] has the tile store of [s]: grid, objects, index, counter and
    world size. *)
Definition sameStore (s s' : MatrixDisplay) : Prop :=
  cells s' = cells s /\ heap s' = heap s /\ tileMap s' = tileMap s
  /\ tileIdCounter s' = tileIdCounter s
  /\ worldWidth s' = worldWidth s /\ worldHeight s' = worldHeight s.

(** * Invariants *)

(** Every reference in a cell list is the indexed object of its id, and
    the object's stored position is the cell's. *)
Definition cellsSound (s : MatrixDisplay) : Prop :=
  forall x y c r, cellAt s x y = Some c -> r ∈ Cell.tiles c ->
    exists o, heap s !! r = Some o /\ tileMap s !! Tile.id o = Some r
              /\ Tile.x o = x /\ Tile.y o = y.

Definition noDuplicates (s : MatrixDisplay) : Prop :=
  forall x y c, cellAt s x y = Some c -> NoDup (Cell.tiles c).

(** Every indexed object is in the list of the cell at its stored
    position, if there is such a cell. *)
Definition present (s : MatrixDisplay) : Prop :=
  forall id r o c, tileMap s !! id = Some r -> heap s !! r = Some o ->
    cellAt s (Tile.x o) (Tile.y o) = Some c -> r ∈ Cell.tiles c.

Definition placementInv (s : MatrixDisplay) : Prop :=
  gridShaped s /\ indexSound s /\ cellsSound s /\ noDuplicates s /\ present s.

Definition orderInv (s : MatrixDisplay) : Prop :=
  gridShaped s /\ indexSound s /\ refsValid s /\ ordered s.

(** The tile object [a], whose id is [ida] and which no operation can
    take for a new one, stays ahead of the tile object [b] in the list of
    the cell at [(x,y)]: where [b] comes before [a], its z-index is lower. *)
Definition aheadOf (x y : Z) (a b : TileRef) (ida : TileId) (s : MatrixDisplay) : Prop :=
  orderInv s
  /\ idOf (heap s) a = Some ida
  /\ (snd ida < tileIdCounter s)%nat
  /\ forall c, cellAt s x y = Some c -> precedes b a (Cell.tiles c) ->
        zIndexOf (heap s) b < zIndexOf (heap s) a.

(** The operations that go through the tile index and leave the grid
    otherwise alone; [okUpdate] selects the updates. *)
Definition gentle (okUpdate : Updates.t -> bool) (op : Op) : bool :=
  match op with
  | SetTiles _ _ _ | Clear | SetBackground _ _ _ => false
  | UpdateTile _ u | UpdateTiles _ u => okUpdate u
  | _ => true
  end.

(** The state in the middle of an operation on the object [r]: [r] is in
    no cell list, and every other indexed object is placed. *)
Definition placedBut (s : MatrixDisplay) (r : TileRef) : Prop :=
  gridShaped s /\ indexSound s /\ cellsSound s /\ noDuplicates s
  /\ (forall x y c, cellAt s x y = Some c -> r ∉ Cell.tiles c)
  /\ (forall id' r' o c, r' <> r -> tileMap s !! id' = Some r' -> heap s !! r' = Some o ->
        cellAt s (Tile.x o) (Tile.y o) = Some c -> r' ∈ Cell.tiles c).

(** The dirty set after the keys [ks] are added in order. *)
Definition addKeys (ks : list Key) (d : list Key) : list Key :=
  foldl (fun d k => addKey k d) d ks.

(** The keys [setViewport] adds for a viewport, row by row. *)
Definition viewportKeys (v : Viewport.t) : list Key :=
  vy ← range (Viewport.height v);
  (fun vx => (Int vx + Viewport.x v, Int vy + Viewport.y v)%num)
    <$> range (Viewport.width v).

(** The key [k] names a cell of the rectangle of [width] by [height]
    cells whose corner is the cell [(x,y)]. *)
Definition inRectangle (x y width height : Z) (k : Key) : Prop :=
  exists kx ky, k = cellKey kx ky
                /\ x <= kx < x + width /\ y <= ky < y + height.

(** The operations that keep both the placement and the order. *)
Definition keepsBoth (op : Op) : bool := keepsPlacement op && keepsOrder op.

(** The glyphs written by a sequence of canvas calls, in order. *)
Definition glyphs (cmds : list DrawCmd) : list string :=
  omap (fun c => match c with FillText _ text _ _ => Some text | _ => None end) cmds.

(** * Word wrap *)








(** The tile [id] is indexed in [s] with the position, character and color
    [e], the background [tbg] and the z-index [z]. *)
Definition textTile (tbg : Color) (z : Z) (s : MatrixDisplay) (id : Z * nat)
    (e : Z * Z * CodePoint * Color) : Prop :=
  match e with
  | (cx, cy, ch, color) =>
      getTile id s = Some (Tile.mk id cx cy (charString ch) color tbg z 1 BOTTOM)
  end.

(** The ids [generateTileId] hands out from counter [n] on. *)
Definition idsFrom (env : Env) (n len : nat) : list (Z * nat) :=
  (fun k => (now env k, k)) <$> seq n len.

(** * What the operations leave alone *)

(** Every operation is allowed. *)
Definition anyOp (op : Op) : bool := true.

(** What the constructor fixes: the size of the world, of the viewport, of
    a cell and of the two canvases. *)
Definition frame (s : MatrixDisplay) : list Z * Number :=
  ([worldWidth s; worldHeight s; Viewport.width (viewport s); Viewport.height (viewport s);
    worldCanvasWidth s; worldCanvasHeight s;
    displayCanvasWidth s; displayCanvasHeight s], cellSize s).

(** The operations that draw or count a render pass on their own account,
    and the switch of auto-render. *)
Definition paints (op : Op) : bool :=
  match op with
  | Render | Clear | SetAutoRender _ => true
  | _ => false
  end.

(** What a render pass leaves behind: the calls on the two canvases and
    the metrics. *)
Definition output (s : MatrixDisplay) : list DrawCmd * list DrawCmd * Metrics.t :=
  (worldCtx s, displayCtx s, metrics s).

(** Auto-render is off, the output is [out] and the key [k] is dirty. *)
Definition pending (out : list DrawCmd * list DrawCmd * Metrics.t) (k : option Key)
    (s : MatrixDisplay) : Prop :=
  autoRender s = false /\ output s = out
  /\ match k with Some k => k ∈ dirtyRects s | None => True end.

(** The log level is [lvl] and the console holds [before], followed by
    messages of [lvl] or below. *)
Definition loggedUpTo (lvl : LogLevel) (before : list (LogLevel * Msg))
    (s : MatrixDisplay) : Prop :=
  logLevel s = lvl
  /\ exists msgs, console s = before ++ msgs
                  /\ Forall (fun e => 0 < levelNumber (fst e) <= levelNumber lvl) msgs.

Definition isSetLogLevel (op : Op) : bool :=
  match op with SetLogLevel _ => true | _ => false end.

(** The grid has its shape and the tile index is sound. *)
Definition storeSound (s : MatrixDisplay) : Prop := gridShaped s /\ indexSound s.

(** The id counter is at least [n]. *)
Definition counterFrom (n : nat) (s : MatrixDisplay) : Prop := (n <= tileIdCounter s)%nat.

(** A tile is created, its cell list is replaced, the world is cleared and
    given a background, and a tile is created outside the world. *)
Definition mixedOps : list Op :=
  [CreateTile 0 0 "@" white black 1 1 BOTTOM;
   SetTiles 0 0 [];
   Clear;
   SetBackground "." white black;
   CreateTile (-1) 0 "@" white black 1 1 BOTTOM].

(** * Sweeps over the grid *)

(** The keys of the cells of a grid, row by row. *)
Definition gridKeys (cs : list (list Cell.t)) : list (Z * Z) :=
  yxs ← imap (fun y row => (Z.of_nat y, range (Z.of_nat (length row)))) cs;
  (fun x => (x, fst yxs)) <$> snd yxs.

(** The keys of the cells at the coordinates [ks]. *)
Definition cellKeys (ks : list (Z * Z)) : list Key :=
  (fun k => cellKey (fst k) (snd k)) <$> ks.

(** The state after the cells at [keys] are replaced by their images under
    [f] and flagged dirty, one after the other. *)
Definition swept (f : Cell.t -> Cell.t) (keys : list (Z * Z)) (s : MatrixDisplay)
    : MatrixDisplay :=
  foldl (fun s k => with_dirtyRects (addKey (cellKey (fst k) (snd k)) (dirtyRects s))
                      (updateCell (fst k) (snd k) f s)) s keys.

(** The coordinates of a world of [w] by [h] cells, row by row. *)
Definition worldKeys (w h : Z) : list (Z * Z) :=
  y ← range h; (fun x => (x, y)) <$> range w.

(** The background tile [setBackground] makes for the cell at [k] when
    the id counter is [n]. *)
Definition backgroundTile (env : Env) (symbol : string) (fgColor bgColor : Color)
    (n : nat) (k : Z * Z) : Tile.t :=
  Tile.mk (now env n, n) (fst k) (snd k) symbol fgColor bgColor (-1) 1 BOTTOM.

(** The state after [setBackground] has handled the cell at [k]: a new
    object, one id used, and the list of the cell without its tiles of
    z-index -1 and with the new object at the end. *)
Definition backed (env : Env) (symbol : string) (fgColor bgColor : Color)
    (s : MatrixDisplay) (k : Z * Z) : MatrixDisplay :=
  let o := backgroundTile env symbol fgColor bgColor (tileIdCounter s) k in
  let s1 := with_heap (heap s ++ [o]) (with_tileIdCounter (S (tileIdCounter s)) s) in
  with_dirtyRects (addKey (cellKey (fst k) (snd k)) (dirtyRects s1))
    (updateCell (fst k) (snd k)
       (fun cell => Cell.mk (Cell.overlay cell)
                      (filter (fun t => zIndexOf (heap s1) t ≠ -1) (Cell.tiles cell)
                         ++ [length (heap s)]) true) s1).

(** * Removing several tiles *)

(** [l] without the objects whose id is among [ids]. *)
Definition withoutIds (h : list Tile.t) (ids : list TileId) (l : list TileRef)
    : list TileRef :=
  filter (fun t => idOf h t ∉ (Some <$> ids)) l.

(** The placement invariant on an engine whose dirty keys name cells. *)
Definition tidy (s : MatrixDisplay) : Prop := placementInv s /\ dirtyInside s.

(** The tiles with an id in [ids] are stored inside the world. *)
Definition storedInside (s : MatrixDisplay) (ids : list TileId) : Prop :=
  forall id o, id ∈ ids -> getTile id s = Some o ->
    insideWorld s (Tile.x o) (Tile.y o) = true.

(** * Strings *)

(** The characters [createString] places, each with the color of its
    segment. *)
Definition charsOf (env : Env) (text : string) : list (CodePoint * Color) :=
  segment ← parse env text;
  (fun ch => (ch, snd segment)) <$> codePoints (fst segment).

(** The cells of a string that starts at [(x,y)]: one per character, left
    to right on one row. *)
Definition rowCells (x y : Z) (cs : list (CodePoint * Color))
    : list (Z * Z * CodePoint * Color) :=
  imap (fun i c => (x + Z.of_nat i, y, fst c, snd c)) cs.

(** * Engines on which the display operations cannot fail *)

(** The canvas is a whole number of cells and the viewport is not larger
    than the world. *)
Definition fits (s : MatrixDisplay) : Prop :=
  wholeCells s
  /\ Viewport.width (viewport s) <= worldWidth s
  /\ Viewport.height (viewport s) <= worldHeight s.

Definition sturdy (s : MatrixDisplay) : Prop := wellFormed s /\ fits s.

(** Every operation but [setTiles], whose argument is not checked. *)
Definition checked (op : Op) : bool :=
  match op with SetTiles _ _ _ => false | _ => true end.

(** The operations that touch no tile that is already indexed. *)
Definition displayOp (op : Op) : bool :=
  match op with
  | CreateTile _ _ _ _ _ _ _ _ | CreateString _ _ _ _
  | SetOverlay _ _ _ | SetViewport _ _ | Render | Clear | ClearOverlays
  | SetBackground _ _ _ | SetAutoRender _ | SetLogLevel _ => true
  | _ => false
  end.

(** The cell size in device pixels, the configured size times the device
    pixel ratio, is a positive whole number [n]; the world canvas of
    [worldWidth * n] by [worldHeight * n] pixels is within the limit of a
    canvas; and the viewport is not larger than the world. *)
Definition sound (env : Env) (options : Config.t) : Prop :=
  (exists n, 0 < n
             /\ (Config.cellSize options * devicePixelRatio env == inject_Z n)%Q
             /\ 0 <= Config.worldWidth options * n <= 2147483647
             /\ 0 <= Config.worldHeight options * n <= 2147483647)
  /\ Config.viewportWidth options <= Config.worldWidth options
  /\ Config.viewportHeight options <= Config.worldHeight options.

(** * The compositor *)

(** The canvas calls for one tile object, none if the reference is
    dangling. *)
Definition tileCommands (s : MatrixDisplay) (x y : Z) (r : TileRef) : list DrawCmd :=
  match heap s !! r with
  | Some tile =>
      paintTile (cellSize s) (Int x * cellSize s / Int 2)%num (Int y * cellSize s)%num tile
  | None => []
  end.

(** The canvas calls for the tiles [l] in the order given, between the
    clipping of the cell at [(x,y)] and the overlay of [c]. *)
Definition cellCommands (s : MatrixDisplay) (c : Cell.t) (x y : Z) (l : list TileRef)
    : list DrawCmd :=
  let cs := cellSize s in
  let pixelX := (Int x * cs / Int 2)%num in
  let pixelY := (Int y * cs)%num in
  [Save; ClipRect pixelX pixelY cs cs;
   ClearRect pixelX pixelY (cs / Int 2) cs]
  ++ (l ≫= tileCommands s x y)
  ++ (if truthy (Cell.overlay c) && negb (String.eqb (Cell.overlay c) transparent)
      then [FillRect (Cell.overlay c) pixelX pixelY (cs / Int 2) cs]
      else [])
  ++ [Restore].

(** * The background box of a wrapped string *)



(** * Proofs *)

(** ** The monad *)

Lemma bind_ok {A B} (m : M A) (k : A -> M B) s a s' :
  m s = (Ok a, s') -> bind m k s = k a s'.
Proof. intros H. unfold bind. now rewrite H. Qed.

Lemma bind_throw {A B} (m : M A) (k : A -> M B) s e s' :
  m s = (Throw e, s') -> bind m k s = (Throw e, s').
Proof. intros H. unfold bind. now rewrite H. Qed.

Lemma exec_bind {A B} (m : M A) (k : A -> M B) s :
  exec (bind m k) s =
  match result m s with
  | Ok a => exec (k a) (exec m s)
  | Throw _ => exec m s
  end.
Proof. unfold exec, result, bind. destruct (m s) as [[a|e] s']; reflexivity. Qed.

Lemma with_console_same s : with_console (console s) s = s.
Proof. now destruct s. Qed.

(** ** Arrays and cells *)

Lemma index_Some {A} (l : list A) i a :
  index l i = Some a <-> 0 <= i /\ l !! Z.to_nat i = Some a.
Proof.
  unfold index. destruct (Z.ltb_spec i 0); split; intros H1.
  - discriminate.
  - lia.
  - split; [lia | exact H1].
  - tauto.
Qed.

Lemma index_length {A} (l : list A) i :
  is_Some (index l i) <-> 0 <= i < Z.of_nat (length l).
Proof.
  unfold index. destruct (Z.ltb_spec i 0).
  - split; [intros [a Ha]; discriminate | lia].
  - rewrite lookup_lt_is_Some. lia.
Qed.

Lemma cellAt_Some s x y c :
  cellAt s x y = Some c <->
  exists row, 0 <= y /\ cells s !! Z.to_nat y = Some row
              /\ 0 <= x /\ row !! Z.to_nat x = Some c.
Proof.
  unfold cellAt. split.
  - destruct (index (cells s) y) as [row|] eqn:E; [|discriminate].
    intros H. apply index_Some in E, H. exists row. tauto.
  - intros (row & Hy & Hrow & Hx & Hc).
    assert (E : index (cells s) y = Some row) by (apply index_Some; tauto).
    rewrite E. apply index_Some. tauto.
Qed.

Lemma cellAt_nonneg s x y c : cellAt s x y = Some c -> 0 <= x /\ 0 <= y.
Proof. rewrite cellAt_Some. intros (row & ? & ? & ? & ?). lia. Qed.

Lemma cellAt_updateCell_same s x y f c :
  cellAt s x y = Some c -> cellAt (updateCell x y f s) x y = Some (f c).
Proof.
  rewrite !cellAt_Some. intros (row & Hy & Hrow & Hx & Hc).
  exists (alter f (Z.to_nat x) row). repeat split; try assumption.
  - cbn. rewrite list_lookup_alter_eq, Hrow. reflexivity.
  - rewrite list_lookup_alter_eq, Hc. reflexivity.
Qed.

Lemma cellAt_updateCell_other s x y f x' y' :
  0 <= x -> 0 <= y -> (x', y') <> (x, y) ->
  cellAt (updateCell x y f s) x' y' = cellAt s x' y'.
Proof.
  intros Hx Hy Hne. unfold cellAt, updateCell, index. cbn.
  destruct (Z.ltb_spec y' 0); [reflexivity|].
  destruct (decide (Z.to_nat y' = Z.to_nat y)) as [Ey|Ey].
  - rewrite Ey, list_lookup_alter_eq.
    destruct (cells s !! Z.to_nat y) as [row|]; [|reflexivity]. cbn.
    destruct (Z.ltb_spec x' 0); [reflexivity|].
    rewrite list_lookup_alter_ne; [reflexivity|].
    intros Ex. apply Hne. f_equal; lia.
  - rewrite list_lookup_alter_ne by congruence. reflexivity.
Qed.

Lemma cellAt_updateCell s x y f x' y' :
  0 <= x -> 0 <= y ->
  cellAt (updateCell x y f s) x' y' =
  if decide ((x', y') = (x, y)) then f <$> cellAt s x y else cellAt s x' y'.
Proof.
  intros Hx Hy. destruct (decide ((x', y') = (x, y))) as [E|E].
  - injection E as -> ->. destruct (cellAt s x y) as [c|] eqn:Ec.
    + now apply cellAt_updateCell_same.
    + cbn. unfold cellAt, updateCell, index in *. cbn.
      destruct (y <? 0); [reflexivity|]. rewrite list_lookup_alter_eq.
      destruct (cells s !! Z.to_nat y) as [row|]; [|reflexivity]. cbn in *.
      destruct (x <? 0); [reflexivity|]. rewrite list_lookup_alter_eq, Ec. reflexivity.
  - now apply cellAt_updateCell_other.
Qed.

Lemma insideWorld_spec s x y :
  insideWorld s x y = true <-> 0 <= x < worldWidth s /\ 0 <= y < worldHeight s.
Proof. unfold insideWorld. rewrite !andb_true_iff. lia. Qed.

Lemma outsideWorld_inside s x y : outsideWorld s x y = negb (insideWorld s x y).
Proof.
  unfold outsideWorld, insideWorld.
  destruct (Z.ltb_spec x 0), (Z.geb_spec x 0), (Z.ltb_spec x (worldWidth s)),
    (Z.geb_spec x (worldWidth s)), (Z.ltb_spec y 0), (Z.geb_spec y 0),
    (Z.ltb_spec y (worldHeight s)), (Z.geb_spec y (worldHeight s));
    try reflexivity; lia.
Qed.

Lemma gridShaped_cellAt s x y :
  gridShaped s -> (is_Some (cellAt s x y) <-> insideWorld s x y = true).
Proof.
  intros [Hh Hw]. rewrite insideWorld_spec. split.
  - intros [c Hc]. apply cellAt_Some in Hc as (row & Hy & Hrow & Hx & Hc).
    pose proof (lookup_lt_Some _ _ _ Hrow). pose proof (lookup_lt_Some _ _ _ Hc).
    rewrite Forall_lookup in Hw. specialize (Hw _ _ Hrow). cbn in Hw. lia.
  - intros [Hx Hy].
    destruct (lookup_lt_is_Some_2 (cells s) (Z.to_nat y)) as [row Hrow]; [lia|].
    rewrite Forall_lookup in Hw. pose proof (Hw _ _ Hrow) as Hl. cbn in Hl.
    destruct (lookup_lt_is_Some_2 row (Z.to_nat x)) as [c Hc]; [lia|].
    exists c. apply cellAt_Some. exists row. repeat split; try assumption; lia.
Qed.

(** ** Methods that only render and log *)

Lemma outputOnly_refl s : outputOnly s s.
Proof. repeat split. Qed.

Lemma outputOnly_trans s1 s2 s3 : outputOnly s1 s2 -> outputOnly s2 s3 -> outputOnly s1 s3.
Proof. unfold outputOnly. intros H1 H2. intuition congruence. Qed.

Lemma quiet_ret {A} (a : A) : quiet (ret a).
Proof. intros s. apply outputOnly_refl. Qed.

Lemma quiet_throw {A} e : quiet (@throw A e).
Proof. intros s. apply outputOnly_refl. Qed.

Lemma quiet_bind {A B} (m : M A) (k : A -> M B) :
  quiet m -> (forall a, quiet (k a)) -> quiet (bind m k).
Proof.
  intros Hm Hk s. rewrite exec_bind. destruct (result m s).
  - eapply outputOnly_trans; [apply Hm | apply Hk].
  - apply Hm.
Qed.

Lemma quiet_get_bind {A} (k : MatrixDisplay -> M A) :
  (forall s, quiet (k s)) -> quiet (bind get k).
Proof. intros Hk s. apply (Hk s s). Qed.

Lemma quiet_modify f : (forall s, outputOnly s (f s)) -> quiet (modify f).
Proof. intros H s. apply H. Qed.

Lemma quiet_forEach {A} (l : list A) (f : A -> M unit) :
  (forall a, quiet (f a)) -> quiet (forEach l f).
Proof.
  intros Hf. induction l as [|a l IH]; cbn.
  - apply quiet_ret.
  - apply quiet_bind; [apply Hf | intros _; apply IH].
Qed.

Lemma quiet_emit lvl m : quiet (emit lvl m).
Proof. apply quiet_modify. intros s. repeat split. Qed.

Lemma quiet_draw c : quiet (draw c).
Proof. apply quiet_modify. intros s. repeat split. Qed.

Lemma quiet_drawDisplay c : quiet (drawDisplay c).
Proof. apply quiet_modify. intros s. repeat split. Qed.

Lemma quiet_addDirtyKey k : quiet (addDirtyKey k).
Proof. apply quiet_modify. intros s. repeat split. Qed.

Lemma quiet_addDirty x y : quiet (addDirty x y).
Proof. apply quiet_addDirtyKey. Qed.

Lemma quiet_deref r : quiet (deref r).
Proof. intros s. unfold exec, deref. destruct (heap s !! r); apply outputOnly_refl. Qed.

Lemma quiet_renderCell cell x y : quiet (renderCell cell x y).
Proof.
  unfold renderCell. apply quiet_get_bind. intros s.
  apply quiet_bind; [apply quiet_draw | intros _].
  destruct cell as [c|]; [|apply quiet_throw].
  apply quiet_bind.
  { apply quiet_forEach. intros r. apply quiet_bind; [apply quiet_deref|].
    intros o. apply quiet_draw. }
  intros _. apply quiet_bind; [|intros _; apply quiet_draw].
  destruct (_ && _); [apply quiet_draw | apply quiet_ret].
Qed.

Lemma quiet_updateMetrics : quiet updateMetrics.
Proof. apply quiet_modify. intros s. repeat split. Qed.

Lemma quiet_render : quiet render.
Proof.
  unfold render. apply quiet_get_bind. intros s.
  apply quiet_bind; [apply quiet_emit | intros _].
  destruct (_ =? _)%nat.
  - apply quiet_bind; [apply quiet_emit | intros _; apply quiet_updateMetrics].
  - apply quiet_bind; [apply quiet_modify; intros s'; repeat split | intros _].
    apply quiet_bind; [apply quiet_emit | intros _].
    apply quiet_bind.
    { apply quiet_forEach. intros key. apply quiet_get_bind. intros s'.
      destruct (item _ _); [apply quiet_renderCell | apply quiet_throw]. }
    intros _. apply quiet_bind; [apply quiet_emit | intros _].
    apply quiet_bind; [apply quiet_modify; intros s'; repeat split | intros _].
    apply quiet_bind; [apply quiet_emit | intros _].
    apply quiet_bind; [apply quiet_drawDisplay | intros _; apply quiet_updateMetrics].
Qed.

Lemma quiet_renderIfAuto : quiet renderIfAuto.
Proof.
  unfold renderIfAuto. apply quiet_get_bind. intros s.
  destruct (autoRender s); [apply quiet_render | apply quiet_ret].
Qed.

Lemma renderIfAuto_off s : autoRender s = false -> renderIfAuto s = (Ok tt, s).
Proof. intros H. unfold renderIfAuto, bind, get. now rewrite H. Qed.

Lemma cellAt_outputOnly s s' x y : outputOnly s s' -> cellAt s' x y = cellAt s x y.
Proof. intros (Hc & _). unfold cellAt. now rewrite Hc. Qed.


Lemma getTile_outputOnly s s' id : outputOnly s s' -> getTile id s' = getTile id s.
Proof.
  intros (_ & _ & _ & _ & _ & _ & _ & _ & _ & Hh & Ht & _).
  unfold getTile. now rewrite Hh, Ht.
Qed.

(** ** Lists in z-order *)

Lemma insertByZ_nil h r : insertByZ h r [] = [r].
Proof. reflexivity. Qed.

Lemma insertByZ_cons h r b l :
  insertByZ h r (b :: l) =
  if zIndexOf h r <? zIndexOf h b then r :: b :: l else b :: insertByZ h r l.
Proof.
  unfold insertByZ. cbn [findIndex].
  destruct (zIndexOf h r <? zIndexOf h b); [reflexivity|].
  destruct (findIndex _ l) as [i|]; reflexivity.
Qed.

Lemma insertByZ_perm h r l : insertByZ h r l ≡ₚ r :: l.
Proof.
  induction l as [|b l IH]; [reflexivity|].
  rewrite insertByZ_cons. destruct (_ <? _); [reflexivity|].
  rewrite IH. apply Permutation_swap.
Qed.

Lemma elem_of_insertByZ h r l a : a ∈ insertByZ h r l <-> a = r \/ a ∈ l.
Proof. rewrite insertByZ_perm. apply elem_of_cons. Qed.

Lemma NoDup_insertByZ h r l : r ∉ l -> NoDup l -> NoDup (insertByZ h r l).
Proof. intros Hr Hl. rewrite insertByZ_perm. now constructor. Qed.

Lemma insertByZ_ext h h' r l :
  zIndexOf h' r = zIndexOf h r ->
  (forall a, a ∈ l -> zIndexOf h' a = zIndexOf h a) ->
  insertByZ h' r l = insertByZ h r l.
Proof.
  intros Hr. induction l as [|b l IH]; intros Hl; [reflexivity|].
  rewrite !insertByZ_cons, Hr, (Hl b) by apply list_elem_of_here.
  destruct (_ <? _); [reflexivity|]. f_equal. apply IH.
  intros a Ha. apply Hl. now apply list_elem_of_further.
Qed.

Lemma zOrdered_cons h b l :
  zOrdered h (b :: l) <->
  (forall a, a ∈ l -> zIndexOf h b <= zIndexOf h a) /\ zOrdered h l.
Proof.
  unfold zOrdered. cbn. rewrite Forall_fmap, Forall_forall. reflexivity.
Qed.

Lemma zOrdered_ext h h' l :
  (forall a, a ∈ l -> zIndexOf h' a = zIndexOf h a) -> zOrdered h l -> zOrdered h' l.
Proof.
  induction l as [|b l IH]; intros Hl; [trivial|].
  rewrite !zOrdered_cons. intros [Hb Hrest]. split.
  - intros a Ha. rewrite (Hl b), (Hl a); [now apply Hb | |].
    + now apply list_elem_of_further.
    + apply list_elem_of_here.
  - apply IH; [|exact Hrest]. intros a Ha. apply Hl. now apply list_elem_of_further.
Qed.

Lemma zOrdered_insertByZ h r l : zOrdered h l -> zOrdered h (insertByZ h r l).
Proof.
  induction l as [|b l IH]; intros Hl.
  - rewrite insertByZ_nil, zOrdered_cons. split; [|exact I].
    intros a Ha. inversion Ha.
  - rewrite insertByZ_cons. destruct (Z.ltb_spec (zIndexOf h r) (zIndexOf h b)) as [Hlt|Hge].
    + rewrite zOrdered_cons. split; [|exact Hl].
      apply zOrdered_cons in Hl as [Hb _].
      intros a Ha. apply elem_of_cons in Ha as [->|Ha]; [lia|].
      specialize (Hb a Ha). lia.
    + apply zOrdered_cons in Hl as [Hb Hrest].
      rewrite zOrdered_cons. split; [|now apply IH].
      intros a Ha. apply elem_of_insertByZ in Ha as [->|Ha]; [lia | now apply Hb].
Qed.

Lemma zOrdered_filter h (P : TileRef -> Prop) `{forall a, Decision (P a)} l :
  zOrdered h l -> zOrdered h (filter P l).
Proof.
  induction l as [|b l IH]; intros Hl; [exact I|].
  apply zOrdered_cons in Hl as [Hb Hrest].
  rewrite filter_cons. destruct (decide (P b)); [|now apply IH].
  rewrite zOrdered_cons. split; [|now apply IH].
  intros a Ha. apply list_elem_of_filter in Ha as [_ Ha]. now apply Hb.
Qed.

Lemma insertSorted_head h r l :
  (forall a, a ∈ l -> zIndexOf h r <= zIndexOf h a) -> insertSorted h r l = r :: l.
Proof.
  destruct l as [|b l]; [reflexivity|]. intros Hl. cbn.
  destruct (Z.leb_spec (zIndexOf h r) (zIndexOf h b)) as [Hle|Hgt]; [reflexivity|].
  specialize (Hl b (list_elem_of_here _ _)). lia.
Qed.

(** A list in z-order is the result of its own sort. *)
Lemma sortByZ_ordered h l : zOrdered h l -> sortByZ h l = l.
Proof.
  induction l as [|b l IH]; intros Hl; [reflexivity|].
  apply zOrdered_cons in Hl as [Hb Hrest].
  cbn. fold (sortByZ h l). rewrite (IH Hrest). now apply insertSorted_head.
Qed.

(** ** What the tile operations do to the state *)

Section Effects.

Context (env : Env).

Lemma setTileInCell_inside s r o c :
  heap s !! r = Some o ->
  insideWorld s (Tile.x o) (Tile.y o) = true ->
  cellAt s (Tile.x o) (Tile.y o) = Some c ->
  setTileInCell r s = (Ok tt, inserted r o s).
Proof.
  intros Hr Hin Hc. unfold setTileInCell, bind, deref, get. rewrite Hr. cbn.
  rewrite Hin, Hc. reflexivity.
Qed.

Lemma setTileInCell_outside s r o :
  heap s !! r = Some o ->
  insideWorld s (Tile.x o) (Tile.y o) = false ->
  setTileInCell r s = (Ok tt, s).
Proof.
  intros Hr Hin. unfold setTileInCell, bind, deref, get. rewrite Hr. cbn.
  rewrite Hin. reflexivity.
Qed.

(** The state [createTile] hands to the render step. *)
Lemma createTile_effect s x y ch col bg z p d :
  (insideWorld s x y = true -> is_Some (cellAt s x y)) ->
  let id := (now env (tileIdCounter s), tileIdCounter s) in
  let o := Tile.mk id x y ch col bg z p d in
  let s0 := registered o (logged VERBOSE (MsgCreating id x y)
                            (with_tileIdCounter (S (tileIdCounter s)) s)) in
  createTile env x y ch col bg z p d s =
  bind renderIfAuto (fun _ => ret id)
    (if insideWorld s x y then inserted (length (heap s)) o s0 else s0).
Proof.
  intros Hgrid id o s0.
  assert (Hr : heap s0 !! length (heap s) = Some o).
  { cbn. rewrite lookup_app_r by lia. now rewrite Nat.sub_diag. }
  unfold createTile.
  unfold bind at 1. cbn [generateTileId].
  unfold bind at 1. cbn [log_verbose emit modify].
  unfold bind at 1. cbn [alloc].
  unfold bind at 1. cbn [modify].
  fold id. fold o. change (with_tileMap _ _) with s0.
  destruct (insideWorld s x y) eqn:Hin.
  - destruct (Hgrid eq_refl) as [c Hc].
    erewrite (bind_ok (setTileInCell _)); [reflexivity|].
    eapply setTileInCell_inside with (c := c); [exact Hr | exact Hin | exact Hc].
  - erewrite (bind_ok (setTileInCell _)); [reflexivity|].
    eapply setTileInCell_outside; [exact Hr | exact Hin].
Qed.

Lemma moveTile_missing s id nx ny :
  tileMap s !! id = None ->
  moveTile id nx ny s = (Ok tt, logged WARN (MsgMoveMissing id) s).
Proof. intros H. unfold moveTile, bind, get. now rewrite H. Qed.

Lemma moveTile_outside s id r nx ny :
  tileMap s !! id = Some r -> insideWorld s nx ny = false ->
  moveTile id nx ny s = (Ok tt, logged WARN (MsgMoveOutside nx ny) s).
Proof.
  intros H Hin. unfold moveTile, bind, get. rewrite H, outsideWorld_inside, Hin.
  reflexivity.
Qed.

Lemma moveTile_off_grid s id r o nx ny :
  tileMap s !! id = Some r -> heap s !! r = Some o ->
  insideWorld s nx ny = true ->
  cellAt s (Tile.x o) (Tile.y o) = None ->
  moveTile id nx ny s = (Throw TypeError, logged VERBOSE (MsgMoving id nx ny) s).
Proof.
  intros H Hr Hin Hc. unfold moveTile, bind, get.
  rewrite H, outsideWorld_inside, Hin. cbn. unfold deref. cbn. rewrite Hr, Hc.
  reflexivity.
Qed.

(** The state [moveTile] hands to the render step. *)
Lemma moveTile_effect s id r o nx ny c :
  tileMap s !! id = Some r -> heap s !! r = Some o ->
  insideWorld s nx ny = true -> is_Some (cellAt s nx ny) ->
  cellAt s (Tile.x o) (Tile.y o) = Some c ->
  let o' := setPosition o nx ny in
  moveTile id nx ny s =
  renderIfAuto
    (inserted r o' (stored r o' (removed id (Tile.x o) (Tile.y o)
                                   (logged VERBOSE (MsgMoving id nx ny) s)))).
Proof.
  intros H Hr Hin [d Hd] Hc o'. unfold moveTile.
  unfold bind at 1. cbn [get]. rewrite H, outsideWorld_inside, Hin. cbn [negb].
  unfold bind at 1. cbn [log_verbose emit modify].
  unfold bind at 1. unfold deref at 1. cbn [heap with_console]. rewrite Hr, Hc.
  unfold bind at 1. cbn [modify].
  unfold bind at 1. cbn [addDirty addDirtyKey modify].
  unfold bind at 1. cbn [store modify].
  set (s2 := with_heap _ _).
  assert (Hs2 : s2 = stored r o' (removed id (Tile.x o) (Tile.y o)
                                   (logged VERBOSE (MsgMoving id nx ny) s))) by reflexivity.
  assert (Hr2 : heap s2 !! r = Some o').
  { rewrite Hs2. cbn. apply list_lookup_insert_eq. eapply lookup_lt_Some, Hr. }
  assert (Hd2 : is_Some (cellAt s2 (Tile.x o') (Tile.y o'))).
  { rewrite Hs2. cbn.
    change (cellAt _ nx ny) with
      (cellAt (updateCell (Tile.x o) (Tile.y o)
                 (fun cell => Cell.mk (Cell.overlay cell)
                    (withoutId (heap s) id (Cell.tiles cell)) true) s) nx ny).
    destruct (cellAt_nonneg _ _ _ _ Hc).
    rewrite cellAt_updateCell by assumption.
    destruct (decide _); [rewrite Hc|rewrite Hd]; eauto. }
  destruct Hd2 as [d2 Hd2].
  erewrite (bind_ok (setTileInCell r)); [rewrite <- Hs2; reflexivity|].
  eapply setTileInCell_inside; [exact Hr2 | exact Hin | exact Hd2].
Qed.

Lemma removeTile_missing s id :
  tileMap s !! id = None ->
  removeTile id s = (Ok tt, logged WARN (MsgRemoveMissing id) s).
Proof. intros H. unfold removeTile, bind, get. now rewrite H. Qed.

Lemma removeTile_off_grid s id r o :
  tileMap s !! id = Some r -> heap s !! r = Some o ->
  cellAt s (Tile.x o) (Tile.y o) = None ->
  removeTile id s = (Throw TypeError, logged VERBOSE (MsgRemoving id) s).
Proof.
  intros H Hr Hc. unfold removeTile, bind, get. rewrite H. cbn.
  unfold deref. cbn. rewrite Hr, Hc. reflexivity.
Qed.

(** The state [removeTile] hands to the render step. *)
Lemma removeTile_effect s id r o c :
  tileMap s !! id = Some r -> heap s !! r = Some o ->
  cellAt s (Tile.x o) (Tile.y o) = Some c ->
  removeTile id s =
  renderIfAuto
    (let s1 := removed id (Tile.x o) (Tile.y o) (logged VERBOSE (MsgRemoving id) s) in
     with_tileMap (delete id (tileMap s1)) s1).
Proof.
  intros H Hr Hc. unfold removeTile.
  unfold bind at 1. cbn [get]. rewrite H.
  unfold bind at 1. cbn [log_verbose emit modify].
  unfold bind at 1. unfold deref at 1. cbn [heap with_console]. rewrite Hr, Hc.
  reflexivity.
Qed.

Lemma assign_position o u :
  movesOrSets u = false ->
  Tile.x (assign o u) = Tile.x o /\ Tile.y (assign o u) = Tile.y o.
Proof.
  unfold movesOrSets. intros Hu. apply orb_false_iff in Hu as [Hx Hy].
  apply bool_decide_eq_false in Hx, Hy.
  destruct u as [ux uy ? ? ? ? ? ?]. cbn in *.
  destruct ux; [exfalso; apply Hx; eauto|].
  destruct uy; [exfalso; apply Hy; eauto|].
  split; reflexivity.
Qed.

Lemma updateTile_missing s id u :
  tileMap s !! id = None ->
  updateTile id u s = (Ok tt, logged WARN (MsgUpdateMissing id) s).
Proof. intros H. unfold updateTile, bind, get. now rewrite H. Qed.

(** [updateTile] with a position assigns first and then calls [moveTile]
    with the position just assigned. *)
Lemma updateTile_position s id r o u :
  tileMap s !! id = Some r -> heap s !! r = Some o ->
  movesOrSets u = true ->
  let o' := assign o u in
  updateTile id u s =
  moveTile id (Tile.x o') (Tile.y o')
    (stored r o' (logged VERBOSE (MsgUpdating id) s)).
Proof.
  intros H Hr Hu o'. unfold updateTile.
  unfold bind at 1. cbn [get]. rewrite H.
  unfold bind at 1. cbn [log_verbose emit modify].
  unfold bind at 1. unfold deref at 1. cbn [heap with_console]. rewrite Hr.
  unfold bind at 1. cbn [store modify].
  unfold movesOrSets in Hu. rewrite Hu. reflexivity.
Qed.

(** The state [updateTile] without a position hands to the render step. *)
Lemma updateTile_effect s id r o u c :
  tileMap s !! id = Some r -> heap s !! r = Some o ->
  movesOrSets u = false ->
  cellAt s (Tile.x o) (Tile.y o) = Some c ->
  let o' := assign o u in
  updateTile id u s =
  renderIfAuto
    (flagged (Tile.x o) (Tile.y o) (stored r o' (logged VERBOSE (MsgUpdating id) s))).
Proof.
  intros H Hr Hu Hc o'. unfold updateTile.
  unfold bind at 1. cbn [get]. rewrite H.
  unfold bind at 1. cbn [log_verbose emit modify].
  unfold bind at 1. unfold deref at 1. cbn [heap with_console]. rewrite Hr.
  unfold bind at 1. cbn [store modify].
  destruct (assign_position o u Hu) as [Ex Ey].
  unfold movesOrSets in Hu. rewrite Hu, Ex, Ey, Hc. reflexivity.
Qed.

Lemma updateTile_off_grid s id r o u :
  tileMap s !! id = Some r -> heap s !! r = Some o ->
  movesOrSets u = false ->
  cellAt s (Tile.x o) (Tile.y o) = None ->
  updateTile id u s =
  (Throw TypeError, stored r (assign o u) (logged VERBOSE (MsgUpdating id) s)).
Proof.
  intros H Hr Hu Hc. unfold updateTile.
  unfold bind at 1. cbn [get]. rewrite H.
  unfold bind at 1. cbn [log_verbose emit modify].
  unfold bind at 1. unfold deref at 1. cbn [heap with_console]. rewrite Hr.
  unfold bind at 1. cbn [store modify].
  destruct (assign_position o u Hu) as [Ex Ey].
  unfold movesOrSets in Hu. rewrite Hu, Ex, Ey, Hc. reflexivity.
Qed.

End Effects.

(** ** Maintaining an invariant *)

Lemma outputOnly_sameStore s s' : outputOnly s s' -> sameStore s s'.
Proof. unfold outputOnly, sameStore. tauto. Qed.

Lemma keeps_ret I {A} (a : A) : keeps I (ret a).
Proof. intros s H. exact H. Qed.

Lemma keeps_throw I {A} e : keeps I (@throw A e).
Proof. intros s H. exact H. Qed.

Lemma keeps_bind I {A B} (m : M A) (k : A -> M B) :
  keeps I m -> (forall a, keeps I (k a)) -> keeps I (bind m k).
Proof.
  intros Hm Hk s Hs. rewrite exec_bind. destruct (result m s).
  - apply Hk, Hm, Hs.
  - apply Hm, Hs.
Qed.

Lemma keeps_get_bind I {A} (k : MatrixDisplay -> M A) :
  (forall s, I s -> I (exec (k s) s)) -> keeps I (bind get k).
Proof. intros Hk s Hs. apply (Hk s Hs). Qed.

Lemma keeps_forEach I {A} (l : list A) (f : A -> M unit) :
  (forall a, keeps I (f a)) -> keeps I (forEach l f).
Proof.
  intros Hf. induction l as [|a l IH]; cbn.
  - apply keeps_ret.
  - apply keeps_bind; [apply Hf | intros _; apply IH].
Qed.

Lemma keeps_foldM I {A B} (f : B -> A -> M B) (l : list A) :
  (forall b a, keeps I (f b a)) -> forall b, keeps I (foldM f b l).
Proof.
  intros Hf. induction l as [|a l IH]; intros b; cbn.
  - apply keeps_ret.
  - apply keeps_bind; [apply Hf | intros b'; apply IH].
Qed.

Lemma keeps_quiet I {A} (m : M A) :
  (forall s s', sameStore s s' -> I s -> I s') -> quiet m -> keeps I m.
Proof. intros HI Hm s Hs. eapply HI; [apply outputOnly_sameStore, Hm | exact Hs]. Qed.

Lemma tiles_cellAt_retile s x y f x' y' :
  (forall c, Cell.tiles (f c) = Cell.tiles c) ->
  Cell.tiles <$> cellAt (updateCell x y f s) x' y' = Cell.tiles <$> cellAt s x' y'.
Proof.
  intros Hf. unfold cellAt, updateCell, index. cbn.
  destruct (y' <? 0); [reflexivity|].
  rewrite list_lookup_alter. destruct (decide _) as [E|E]; [|reflexivity].
  rewrite E. destruct (cells s !! Z.to_nat y') as [row|]; [|reflexivity]. cbn.
  destruct (x' <? 0); [reflexivity|].
  rewrite list_lookup_alter. destruct (decide _) as [E'|E']; [|reflexivity].
  rewrite E'. destruct (row !! Z.to_nat x') as [c|]; [|reflexivity]. cbn. now rewrite Hf.
Qed.

Lemma gridShaped_updateCell s x y f : gridShaped s -> gridShaped (updateCell x y f s).
Proof.
  intros [Hh Hw]. split; cbn.
  - now rewrite length_alter.
  - rewrite Forall_lookup in *. intros i row Hrow.
    rewrite list_lookup_alter in Hrow. destruct (decide _) as [E|E].
    + subst i. destruct (cells s !! Z.to_nat y) as [row0|] eqn:E0; [|discriminate].
      cbn in Hrow. injection Hrow as <-. rewrite length_alter. eapply Hw, E0.
    + eapply Hw, Hrow.
Qed.

Lemma keeps_forEach_in I {A} (l : list A) (f : A -> M unit) :
  (forall a, a ∈ l -> keeps I (f a)) -> keeps I (forEach l f).
Proof.
  induction l as [|a l IH]; intros Hf; cbn.
  - apply keeps_ret.
  - apply keeps_bind; [apply Hf, list_elem_of_here | intros _; apply IH].
    intros b Hb. apply Hf. now apply list_elem_of_further.
Qed.

Lemma yields_keeps I {A} (Q : A -> Prop) (m : M A) : yields I Q m -> keeps I m.
Proof. intros H s Hs. apply (H s Hs). Qed.

Lemma yields_ret I {A} (Q : A -> Prop) (a : A) : Q a -> yields I Q (ret a).
Proof. intros Ha s Hs. split; [exact Hs|]. intros b Hb. injection Hb as <-. exact Ha. Qed.

Lemma yields_bind I {A B} (P : A -> Prop) (Q : B -> Prop) (m : M A) (k : A -> M B) :
  yields I P m -> (forall a, P a -> yields I Q (k a)) -> yields I Q (bind m k).
Proof.
  intros Hm Hk s Hs. destruct (Hm s Hs) as [H1 H2].
  unfold exec, result, bind in *. destruct (m s) as [[a|e] s1]; cbn in *.
  - apply (Hk a (H2 a eq_refl) s1 H1).
  - split; [exact H1 | discriminate].
Qed.

Lemma keeps_bind_yields I {A B} (P : A -> Prop) (m : M A) (k : A -> M B) :
  yields I P m -> (forall a, P a -> keeps I (k a)) -> keeps I (bind m k).
Proof.
  intros Hm Hk s Hs. destruct (Hm s Hs) as [H1 H2].
  unfold exec, result, bind in *. destruct (m s) as [[a|e] s1]; cbn in *.
  - apply (Hk a (H2 a eq_refl) s1 H1).
  - exact H1.
Qed.

Lemma yields_foldM I {A B} (P : B -> Prop) (f : B -> A -> M B) (l : list A) :
  (forall b a, P b -> yields I P (f b a)) -> forall b, P b -> yields I P (foldM f b l).
Proof.
  intros Hf. induction l as [|a l IH]; intros b Hb; cbn.
  - now apply yields_ret.
  - apply (yields_bind I P); [now apply Hf | exact IH].
Qed.

(** The operations on tiles maintain an invariant [I] that the single
    assignments maintain; [moveTile] need do so only for the ids in
    [movable], among them every id that is handed out. *)
Section Maintained.

Context (env : Env) (I : MatrixDisplay -> Prop) (okUpdate : Updates.t -> bool)
  (movable : TileId -> Prop).

Hypothesis I_grid : forall s, I s -> gridShaped s.
Hypothesis I_index : forall s, I s -> indexSound s.
Hypothesis I_store : forall s s', sameStore s s' -> I s -> I s'.
Hypothesis I_create : forall s x y ch col bg z p d,
  I s ->
  let o := Tile.mk (now env (tileIdCounter s), tileIdCounter s) x y ch col bg z p d in
  let s0 := registered o (with_tileIdCounter (S (tileIdCounter s)) s) in
  I (if insideWorld s x y then inserted (length (heap s)) o s0 else s0).
Hypothesis I_fresh : forall s, I s -> movable (now env (tileIdCounter s), tileIdCounter s).
Hypothesis I_move : forall s id r o nx ny c,
  movable id -> I s -> tileMap s !! id = Some r -> heap s !! r = Some o ->
  insideWorld s nx ny = true -> cellAt s (Tile.x o) (Tile.y o) = Some c ->
  I (inserted r (setPosition o nx ny)
       (stored r (setPosition o nx ny) (removed id (Tile.x o) (Tile.y o) s))).
Hypothesis I_remove : forall s id r o c,
  I s -> tileMap s !! id = Some r -> heap s !! r = Some o ->
  cellAt s (Tile.x o) (Tile.y o) = Some c ->
  I (with_tileMap (delete id (tileMap s)) (removed id (Tile.x o) (Tile.y o) s)).
Hypothesis I_assign : forall s id r o u,
  okUpdate u = true -> I s -> tileMap s !! id = Some r -> heap s !! r = Some o ->
  I (stored r (assign o u) s).
Hypothesis I_retile : forall s x y f,
  (forall c, Cell.tiles (f c) = Cell.tiles c) -> I s -> I (updateCell x y f s).

Lemma keeps_calm {A} (m : M A) : quiet m -> keeps I m.
Proof. apply keeps_quiet, I_store. Qed.

Lemma keeps_after_render s1 : I s1 -> I (exec renderIfAuto s1).
Proof. apply (keeps_calm _ quiet_renderIfAuto). Qed.

Lemma keeps_createTile x y ch col bg z p d :
  keeps I (createTile env x y ch col bg z p d).
Proof.
  intros s Hs. unfold exec. rewrite createTile_effect.
  2:{ intros Hin. now apply gridShaped_cellAt; [apply I_grid|]. }
  match goal with |- I (snd (bind renderIfAuto ?k ?X)) =>
    change (I (exec (bind renderIfAuto k) X)); assert (HX : I X) end.
  { pose proof (I_create s x y ch col bg z p d Hs) as H. cbn zeta in H.
    eapply I_store; [|exact H]. destruct (insideWorld s x y); repeat split. }
  revert HX. apply keeps_bind; [apply keeps_calm, quiet_renderIfAuto|].
  intros _. apply keeps_ret.
Qed.

Lemma yields_createTile x y ch col bg z p d :
  yields I movable (createTile env x y ch col bg z p d).
Proof.
  intros s Hs. split; [now apply keeps_createTile|].
  intros a Ha. unfold result in Ha. rewrite createTile_effect in Ha.
  2:{ intros Hin. now apply gridShaped_cellAt; [apply I_grid|]. }
  unfold bind in Ha. destruct (renderIfAuto _) as [[[]|e] s1]; cbn in Ha; [|discriminate].
  injection Ha as <-. now apply I_fresh.
Qed.

Lemma keeps_moveTile id nx ny : movable id -> keeps I (moveTile id nx ny).
Proof.
  intros Hid' s Hs. unfold exec.
  destruct (tileMap s !! id) as [r|] eqn:Hid.
  2:{ rewrite moveTile_missing by assumption. eapply I_store; [|exact Hs]. repeat split. }
  destruct (I_index s Hs id r Hid) as [(o & Hr & _) _].
  destruct (insideWorld s nx ny) eqn:Hin.
  2:{ erewrite moveTile_outside by eassumption. eapply I_store; [|exact Hs]. repeat split. }
  destruct (cellAt s (Tile.x o) (Tile.y o)) as [c|] eqn:Hc.
  2:{ erewrite moveTile_off_grid by eassumption. eapply I_store; [|exact Hs]. repeat split. }
  erewrite moveTile_effect; try eassumption.
  2:{ now apply gridShaped_cellAt; [apply I_grid|]. }
  apply keeps_after_render.
  eapply I_store; [|eapply (I_move s id r o nx ny c); eassumption]. repeat split.
Qed.

Lemma keeps_removeTile id : keeps I (removeTile id).
Proof.
  intros s Hs. unfold exec.
  destruct (tileMap s !! id) as [r|] eqn:Hid.
  2:{ rewrite removeTile_missing by assumption. eapply I_store; [|exact Hs]. repeat split. }
  destruct (I_index s Hs id r Hid) as [(o & Hr & _) _].
  destruct (cellAt s (Tile.x o) (Tile.y o)) as [c|] eqn:Hc.
  2:{ erewrite removeTile_off_grid by eassumption. eapply I_store; [|exact Hs]. repeat split. }
  erewrite removeTile_effect; try eassumption.
  apply keeps_after_render.
  eapply I_store; [|eapply (I_remove s id r o c); eassumption]. repeat split.
Qed.

Lemma keeps_updateTile id u :
  okUpdate u = true -> (movesOrSets u = true -> movable id) -> keeps I (updateTile id u).
Proof.
  intros Hu Hmv s Hs. unfold exec.
  destruct (tileMap s !! id) as [r|] eqn:Hid.
  2:{ rewrite updateTile_missing by assumption. eapply I_store; [|exact Hs]. repeat split. }
  destruct (I_index s Hs id r Hid) as [(o & Hr & _) _].
  pose proof (I_assign s id r o u Hu Hs Hid Hr) as Ha.
  destruct (movesOrSets u) eqn:Hm.
  - erewrite updateTile_position by eassumption.
    apply (keeps_moveTile id _ _ (Hmv eq_refl)). eapply I_store; [|exact Ha]. repeat split.
  - destruct (cellAt s (Tile.x o) (Tile.y o)) as [c|] eqn:Hc.
    + erewrite updateTile_effect by eassumption. apply keeps_after_render.
      eapply I_store; [|eapply I_retile; [|exact Ha]].
      * instantiate (1 := fun cell => Cell.mk (Cell.overlay cell) (Cell.tiles cell) true).
        instantiate (1 := Tile.y o). instantiate (1 := Tile.x o). repeat split.
      * reflexivity.
    + erewrite updateTile_off_grid by eassumption.
      eapply I_store; [|exact Ha]. repeat split.
Qed.

Lemma keeps_get_bind_all {A} (k : MatrixDisplay -> M A) :
  (forall s, keeps I (k s)) -> keeps I (bind get k).
Proof. intros Hk. apply keeps_get_bind. intros s. apply Hk. Qed.

Lemma keeps_modify_store f : (forall s, sameStore s (f s)) -> keeps I (modify f).
Proof. intros Hf s Hs. eapply I_store; [apply Hf | exact Hs]. Qed.

Lemma keeps_retile x y f :
  (forall c, Cell.tiles (f c) = Cell.tiles c) -> keeps I (modify (updateCell x y f)).
Proof. intros Hf s Hs. now apply I_retile. Qed.

Lemma keeps_discard {A} (m : M A) : keeps I m -> keeps I (discard m).
Proof. intros Hm. apply keeps_bind; [exact Hm | intros _; apply keeps_ret]. Qed.

Lemma keeps_setOverlay x y color : keeps I (setOverlay x y color).
Proof.
  unfold setOverlay. apply keeps_get_bind_all. intros s.
  destruct (outsideWorld s x y); [apply keeps_calm, quiet_emit|].
  destruct (cellAt s x y); [|apply keeps_throw].
  apply keeps_bind; [now apply keeps_retile | intros _].
  apply keeps_bind; [apply keeps_calm, quiet_addDirty | intros _].
  apply keeps_calm, quiet_renderIfAuto.
Qed.

Lemma keeps_setViewport x y : keeps I (setViewport x y).
Proof.
  unfold setViewport.
  apply keeps_bind; [apply keeps_calm, quiet_emit | intros _].
  apply keeps_bind; [apply keeps_modify_store; intros s; repeat split | intros _].
  apply keeps_get_bind_all. intros s.
  apply keeps_bind; [|intros _; apply keeps_calm, quiet_renderIfAuto].
  apply keeps_forEach. intros vy. apply keeps_forEach. intros vx.
  apply keeps_calm, quiet_addDirtyKey.
Qed.

Lemma keeps_clearOverlays : keeps I clearOverlays.
Proof.
  unfold clearOverlays.
  apply keeps_bind; [apply keeps_calm, quiet_emit | intros _].
  apply keeps_get_bind_all. intros s.
  apply keeps_bind; [|intros _; apply keeps_calm, quiet_renderIfAuto].
  apply keeps_forEach. intros [y xs]. apply keeps_forEach. intros x.
  apply keeps_bind; [now apply keeps_retile | intros _].
  apply keeps_calm, quiet_addDirty.
Qed.

Lemma keeps_createString x y text z : keeps I (createString env x y text z).
Proof.
  unfold createString. apply keeps_bind.
  - apply keeps_foldM. intros acc segment. apply keeps_foldM.
    intros [currentX tileIds] char.
    apply keeps_bind; [apply keeps_createTile | intros id; apply keeps_ret].
  - intros [? ?]. apply keeps_ret.
Qed.

Lemma keeps_placeWord x width z tbg color w word :
  keeps I (placeWord env x width z tbg color w word).
Proof.
  unfold placeWord. destruct (jsLength word =? 0); [apply keeps_ret|].
  apply (keeps_bind_yields I (Forall movable)).
  - apply yields_foldM; [|constructor]. intros ids char Hids.
    apply (yields_bind I movable); [apply yields_createTile | intros id Hid].
    apply yields_ret. apply Forall_app. split; [exact Hids | now constructor].
  - intros ids Hids. apply keeps_bind; [|intros _; apply keeps_ret].
    apply keeps_forEach_in. intros [i id] Hin. apply keeps_moveTile.
    apply elem_of_lookup_imap in Hin as (j & id' & Heq & Hj). injection Heq as _ ->.
    rewrite Forall_lookup in Hids. eapply Hids, Hj.
Qed.

Lemma keeps_createWrappedString x y width height text options :
  keeps I (createWrappedString env x y width height text options).
Proof.
  unfold createWrappedString. apply keeps_bind.
  - destruct (default false _); [|apply keeps_ret].
    apply keeps_foldM. intros ids py. apply keeps_foldM. intros ids' px.
    apply keeps_bind; [apply keeps_createTile | intros id; apply keeps_ret].
  - intros ids. apply keeps_bind; [|intros w; apply keeps_ret].
    apply keeps_foldM. intros w segment. apply keeps_foldM. intros w' word.
    apply keeps_placeWord.
Qed.

Lemma keeps_emptyCell x y : keeps I (emptyCell x y).
Proof.
  unfold emptyCell. apply keeps_get_bind_all. intros s.
  destruct (outsideWorld s x y); [apply keeps_calm, quiet_emit|].
  destruct (cellAt s x y); [|apply keeps_throw].
  apply keeps_forEach, keeps_removeTile.
Qed.

Lemma keeps_moveTiles ids dx dy : Forall movable ids -> keeps I (moveTiles ids dx dy).
Proof.
  intros Hids. unfold moveTiles. apply keeps_forEach_in. intros id Hid.
  apply keeps_get_bind_all. intros s.
  destruct (tileMap s !! id); [|apply keeps_ret].
  apply keeps_bind; [apply keeps_calm, quiet_deref | intros o; apply keeps_moveTile].
  rewrite Forall_forall in Hids. now apply Hids.
Qed.

(** Every gentle operation that moves only movable tiles maintains the
    invariant. *)
Lemma gentle_keeps_movable op :
  gentle okUpdate op = true -> Forall movable (movedIds op) -> keeps I (perform env op).
Proof.
  destruct op; cbn [gentle perform movedIds]; intros Hop Hmv; try discriminate.
  - apply keeps_discard, keeps_createTile.
  - apply keeps_moveTile. exact (proj1 (Forall_singleton _ _) Hmv).
  - now apply keeps_moveTiles.
  - apply keeps_updateTile; [exact Hop|]. intros Hu. rewrite Hu in Hmv.
    exact (proj1 (Forall_singleton _ _) Hmv).
  - apply keeps_forEach_in. intros id Hid. apply keeps_updateTile; [exact Hop|].
    intros Hu. rewrite Hu in Hmv. rewrite Forall_forall in Hmv. now apply Hmv.
  - apply keeps_removeTile.
  - apply keeps_forEach, keeps_removeTile.
  - apply keeps_setOverlay.
  - apply keeps_setViewport.
  - apply keeps_calm, quiet_render.
  - apply keeps_clearOverlays.
  - apply keeps_modify_store. intros s. repeat split.
  - apply keeps_get_bind_all. intros s.
    apply keeps_bind; [apply keeps_calm, quiet_emit | intros _].
    apply keeps_modify_store. intros s'. repeat split.
  - apply keeps_discard, keeps_createString.
  - apply keeps_discard, keeps_createWrappedString.
  - apply keeps_emptyCell.
Qed.

End Maintained.

(** Every gentle operation maintains an invariant that [moveTile]
    maintains for every id. *)
Lemma gentle_keeps env (I : MatrixDisplay -> Prop) (okUpdate : Updates.t -> bool) :
  (forall s, I s -> gridShaped s) ->
  (forall s, I s -> indexSound s) ->
  (forall s s', sameStore s s' -> I s -> I s') ->
  (forall s x y ch col bg z p d,
     I s ->
     let o := Tile.mk (now env (tileIdCounter s), tileIdCounter s) x y ch col bg z p d in
     let s0 := registered o (with_tileIdCounter (S (tileIdCounter s)) s) in
     I (if insideWorld s x y then inserted (length (heap s)) o s0 else s0)) ->
  (forall s id r o nx ny c,
     I s -> tileMap s !! id = Some r -> heap s !! r = Some o ->
     insideWorld s nx ny = true -> cellAt s (Tile.x o) (Tile.y o) = Some c ->
     I (inserted r (setPosition o nx ny)
          (stored r (setPosition o nx ny) (removed id (Tile.x o) (Tile.y o) s)))) ->
  (forall s id r o c,
     I s -> tileMap s !! id = Some r -> heap s !! r = Some o ->
     cellAt s (Tile.x o) (Tile.y o) = Some c ->
     I (with_tileMap (delete id (tileMap s)) (removed id (Tile.x o) (Tile.y o) s))) ->
  (forall s id r o u,
     okUpdate u = true -> I s -> tileMap s !! id = Some r -> heap s !! r = Some o ->
     I (stored r (assign o u) s)) ->
  (forall s x y f,
     (forall c, Cell.tiles (f c) = Cell.tiles c) -> I s -> I (updateCell x y f s)) ->
  forall op, gentle okUpdate op = true -> keeps I (perform env op).
Proof.
  intros Hgrid Hindex Hstore Hcreate Hmove Hremove Hassign Hretile op Hop.
  apply (gentle_keeps_movable env I okUpdate (fun _ => True)); try assumption.
  - intros s _. exact Logic.I.
  - intros s id r o nx ny c _. apply Hmove.
  - apply Forall_forall. intros id _. exact Logic.I.
Qed.

(** ** Cells of the states the operations produce *)

Lemma cellAt_inserted s r o x y :
  0 <= Tile.x o -> 0 <= Tile.y o ->
  cellAt (inserted r o s) x y =
  if decide ((x, y) = (Tile.x o, Tile.y o))
  then (fun cell => Cell.mk (Cell.overlay cell)
                            (insertByZ (heap s) r (Cell.tiles cell)) true)
         <$> cellAt s (Tile.x o) (Tile.y o)
  else cellAt s x y.
Proof. intros Hx Hy. unfold inserted. now rewrite <- cellAt_updateCell. Qed.

Lemma cellAt_removed s id x0 y0 x y :
  0 <= x0 -> 0 <= y0 ->
  cellAt (removed id x0 y0 s) x y =
  if decide ((x, y) = (x0, y0))
  then (fun cell => Cell.mk (Cell.overlay cell)
                            (withoutId (heap s) id (Cell.tiles cell)) true)
         <$> cellAt s x0 y0
  else cellAt s x y.
Proof. intros Hx Hy. unfold removed. now rewrite <- cellAt_updateCell. Qed.

Lemma cellAt_retile_inv s x y f x' y' c' :
  (forall c, Cell.tiles (f c) = Cell.tiles c) ->
  cellAt (updateCell x y f s) x' y' = Some c' ->
  exists c, cellAt s x' y' = Some c /\ Cell.tiles c' = Cell.tiles c.
Proof.
  intros Hf Hc. pose proof (tiles_cellAt_retile s x y f x' y' Hf) as H.
  rewrite Hc in H. destruct (cellAt s x' y') as [c|]; [|discriminate].
  injection H as H. eauto.
Qed.

Lemma zIndexOf_app h o r : (r < length h)%nat -> zIndexOf (h ++ [o]) r = zIndexOf h r.
Proof. intros Hr. unfold zIndexOf. now rewrite lookup_app_l. Qed.

Lemma zIndexOf_insert h r o o' a :
  h !! r = Some o -> Tile.zIndex o' = Tile.zIndex o ->
  zIndexOf (<[r := o']> h) a = zIndexOf h a.
Proof.
  intros Hr Hz. unfold zIndexOf. destruct (decide (r = a)) as [E|Hne].
  - subst a. rewrite list_lookup_insert_eq by (eapply lookup_lt_Some, Hr).
    rewrite Hr. exact Hz.
  - now rewrite list_lookup_insert_ne.
Qed.

Lemma gridShaped_store s s' : sameStore s s' -> gridShaped s -> gridShaped s'.
Proof. intros (Hc & _ & _ & _ & Hw & Hh). unfold gridShaped. now rewrite Hc, Hw, Hh. Qed.

Lemma indexSound_store s s' : sameStore s s' -> indexSound s -> indexSound s'.
Proof.
  intros (_ & Hh & Ht & Hn & _). unfold indexSound. now rewrite Hh, Ht, Hn.
Qed.

Lemma refsValid_store s s' : sameStore s s' -> refsValid s -> refsValid s'.
Proof.
  intros (Hc & Hh & _). unfold refsValid, cellAt. now rewrite Hc, Hh.
Qed.

Lemma ordered_store s s' : sameStore s s' -> ordered s -> ordered s'.
Proof.
  intros (Hc & Hh & _). unfold ordered, cellAt. now rewrite Hc, Hh.
Qed.

Lemma orderInv_store s s' : sameStore s s' -> orderInv s -> orderInv s'.
Proof.
  intros H (? & ? & ? & ?). unfold orderInv.
  split; [|split; [|split]].
  - eapply gridShaped_store; eassumption.
  - eapply indexSound_store; eassumption.
  - eapply refsValid_store; eassumption.
  - eapply ordered_store; eassumption.
Qed.

(** ** The grid and the index under the operations *)

Lemma gridShaped_inserted s r o : gridShaped s -> gridShaped (inserted r o s).
Proof. intros H. unfold inserted. exact (gridShaped_updateCell _ _ _ _ H). Qed.

Lemma gridShaped_removed s id x y : gridShaped s -> gridShaped (removed id x y s).
Proof. intros H. unfold removed. exact (gridShaped_updateCell _ _ _ _ H). Qed.

Lemma indexSound_registered s o :
  indexSound s -> snd (Tile.id o) = tileIdCounter s ->
  indexSound (registered o (with_tileIdCounter (S (tileIdCounter s)) s)).
Proof.
  intros Hs Ho id r. cbn. rewrite lookup_insert. destruct (decide _) as [E|E].
  - intros [= <-]. subst id. split; [|lia].
    exists o. split; [|reflexivity].
    rewrite lookup_app_r by lia. now rewrite Nat.sub_diag.
  - intros Hid. destruct (Hs id r Hid) as [(o' & Hr & Hid') Hn]. split; [|lia].
    exists o'. split; [|exact Hid']. now apply lookup_app_l_Some.
Qed.

Lemma indexSound_stored s r o o' :
  heap s !! r = Some o -> Tile.id o' = Tile.id o ->
  indexSound s -> indexSound (stored r o' s).
Proof.
  intros Hr Ho Hs id r' Hid. cbn in *. destruct (Hs id r' Hid) as [(o'' & Hr' & Hid') Hn].
  split; [|exact Hn]. destruct (decide (r = r')) as [<-|Hne].
  - exists o'. split.
    + apply list_lookup_insert_eq. eapply lookup_lt_Some, Hr.
    + congruence.
  - exists o''. split; [|exact Hid']. now rewrite list_lookup_insert_ne.
Qed.

Lemma indexSound_delete s id :
  indexSound s -> indexSound (with_tileMap (delete id (tileMap s)) s).
Proof.
  intros Hs id' r. cbn. rewrite lookup_delete. destruct (decide _); [discriminate|].
  apply Hs.
Qed.

Lemma indexSound_injective s id id' r :
  indexSound s -> tileMap s !! id = Some r -> tileMap s !! id' = Some r -> id = id'.
Proof.
  intros Hs H H'. destruct (Hs _ _ H) as [(o & Hr & Hid) _].
  destruct (Hs _ _ H') as [(o' & Hr' & Hid') _]. congruence.
Qed.

Lemma idOf_indexed s id r :
  indexSound s -> tileMap s !! id = Some r -> idOf (heap s) r = Some id.
Proof.
  intros Hs H. destruct (Hs _ _ H) as [(o & Hr & Hid) _].
  unfold idOf. rewrite Hr. cbn. now rewrite Hid.
Qed.

(** ** The order invariant under the operations *)

Lemma refsValid_inserted s r o :
  0 <= Tile.x o -> 0 <= Tile.y o -> (r < length (heap s))%nat ->
  refsValid s -> refsValid (inserted r o s).
Proof.
  intros Hx Hy Hr Hs x y c a. rewrite cellAt_inserted by assumption.
  destruct (decide _) as [E|E]; [|apply Hs].
  destruct (cellAt s (Tile.x o) (Tile.y o)) as [c0|] eqn:Hc0; [|discriminate].
  intros [= <-]. cbn. rewrite elem_of_insertByZ. intros [->|Ha]; [exact Hr|].
  eapply Hs; eassumption.
Qed.

Lemma ordered_inserted s r o :
  0 <= Tile.x o -> 0 <= Tile.y o -> ordered s -> ordered (inserted r o s).
Proof.
  intros Hx Hy Hs x y c. rewrite cellAt_inserted by assumption.
  destruct (decide _) as [E|E]; [|apply Hs].
  destruct (cellAt s (Tile.x o) (Tile.y o)) as [c0|] eqn:Hc0; [|discriminate].
  intros [= <-]. cbn. apply zOrdered_insertByZ. eapply Hs, Hc0.
Qed.

Lemma refsValid_removed s id x0 y0 :
  0 <= x0 -> 0 <= y0 -> refsValid s -> refsValid (removed id x0 y0 s).
Proof.
  intros Hx Hy Hs x y c a. rewrite cellAt_removed by assumption.
  destruct (decide _) as [E|E]; [|apply Hs].
  destruct (cellAt s x0 y0) as [c0|] eqn:Hc0; [|discriminate].
  intros [= <-]. cbn. unfold withoutId. rewrite list_elem_of_filter. intros [_ Ha].
  eapply Hs; eassumption.
Qed.

Lemma ordered_removed s id x0 y0 :
  0 <= x0 -> 0 <= y0 -> ordered s -> ordered (removed id x0 y0 s).
Proof.
  intros Hx Hy Hs x y c. rewrite cellAt_removed by assumption.
  destruct (decide _) as [E|E]; [|apply Hs].
  destruct (cellAt s x0 y0) as [c0|] eqn:Hc0; [|discriminate].
  intros [= <-]. cbn. apply zOrdered_filter. eapply Hs, Hc0.
Qed.

Lemma refsValid_registered s o : refsValid s -> refsValid (registered o s).
Proof.
  intros Hs x y c a Hc Ha. cbn. rewrite length_app. cbn.
  specialize (Hs x y c a Hc Ha). lia.
Qed.

Lemma ordered_registered s o : refsValid s -> ordered s -> ordered (registered o s).
Proof.
  intros Hv Hs x y c Hc. cbn. eapply zOrdered_ext; [|eapply Hs, Hc].
  intros a Ha. apply zIndexOf_app. eapply Hv; eassumption.
Qed.

Lemma refsValid_stored s r o : refsValid s -> refsValid (stored r o s).
Proof. intros Hs x y c a Hc Ha. cbn. rewrite length_insert. eapply Hs; eassumption. Qed.

Lemma ordered_stored s r o o' :
  heap s !! r = Some o -> Tile.zIndex o' = Tile.zIndex o ->
  ordered s -> ordered (stored r o' s).
Proof.
  intros Hr Hz Hs x y c Hc. cbn. eapply zOrdered_ext; [|eapply Hs, Hc].
  intros a _. now apply zIndexOf_insert with (o := o).
Qed.

Lemma inside_nonneg s x y : insideWorld s x y = true -> 0 <= x /\ 0 <= y.
Proof. rewrite insideWorld_spec. lia. Qed.

Lemma cellAt_updateCell_inv s x y f x' y' c' :
  cellAt (updateCell x y f s) x' y' = Some c' ->
  exists c, cellAt s x' y' = Some c /\ (c' = c \/ c' = f c).
Proof.
  unfold cellAt, updateCell, index. cbn.
  destruct (y' <? 0); [discriminate|].
  rewrite list_lookup_alter. destruct (decide _) as [E|E].
  - rewrite E. destruct (cells s !! Z.to_nat y') as [row|]; [|discriminate]. cbn.
    destruct (x' <? 0); [discriminate|].
    rewrite list_lookup_alter. destruct (decide _) as [E'|E'].
    + rewrite E'. destruct (row !! Z.to_nat x') as [c|]; [|discriminate]. cbn.
      intros [= <-]. eauto.
    + intros Hc. eauto.
  - destruct (cells s !! Z.to_nat y') as [row|]; [|discriminate].
    intros Hc. eauto.
Qed.

Lemma orderInv_create env s x y ch col bg z p d :
  orderInv s ->
  let o := Tile.mk (now env (tileIdCounter s), tileIdCounter s) x y ch col bg z p d in
  let s0 := registered o (with_tileIdCounter (S (tileIdCounter s)) s) in
  orderInv (if insideWorld s x y then inserted (length (heap s)) o s0 else s0).
Proof.
  intros (Hg & Hi & Hv & Ho) o s0.
  assert (H0 : orderInv s0).
  { split; [exact Hg|]. split; [now apply indexSound_registered|].
    split; [now apply refsValid_registered|]. now apply ordered_registered. }
  destruct (insideWorld s x y) eqn:Hin; [|exact H0].
  destruct (inside_nonneg _ _ _ Hin) as [Hx Hy].
  destruct H0 as (Hg0 & Hi0 & Hv0 & Ho0).
  split; [now apply gridShaped_inserted|]. split; [exact Hi0|].
  split; [|now apply ordered_inserted].
  apply refsValid_inserted; try assumption. cbn. rewrite length_app. cbn. lia.
Qed.

Lemma orderInv_move s id r o nx ny c :
  orderInv s -> tileMap s !! id = Some r -> heap s !! r = Some o ->
  insideWorld s nx ny = true -> cellAt s (Tile.x o) (Tile.y o) = Some c ->
  orderInv (inserted r (setPosition o nx ny)
              (stored r (setPosition o nx ny) (removed id (Tile.x o) (Tile.y o) s))).
Proof.
  intros (Hg & Hi & Hv & Ho) Hid Hr Hin Hc.
  destruct (inside_nonneg _ _ _ Hin) as [Hx Hy].
  destruct (cellAt_nonneg _ _ _ _ Hc) as [Hx0 Hy0].
  set (s1 := removed id (Tile.x o) (Tile.y o) s).
  assert (H1 : orderInv s1).
  { split; [now apply gridShaped_removed|]. split; [exact Hi|].
    split; [now apply refsValid_removed | now apply ordered_removed]. }
  destruct H1 as (Hg1 & Hi1 & Hv1 & Ho1).
  set (o' := setPosition o nx ny).
  assert (Hr1 : heap s1 !! r = Some o) by exact Hr.
  split; [apply gridShaped_inserted; exact Hg1|].
  split; [exact (indexSound_stored s1 r o o' Hr1 eq_refl Hi1)|].
  split.
  - apply refsValid_inserted; try assumption.
    + cbn. rewrite length_insert. eapply lookup_lt_Some, Hr.
    + now apply refsValid_stored.
  - apply ordered_inserted; try assumption.
    now apply ordered_stored with (o := o).
Qed.

Lemma orderInv_remove s id r o c :
  orderInv s -> tileMap s !! id = Some r -> heap s !! r = Some o ->
  cellAt s (Tile.x o) (Tile.y o) = Some c ->
  orderInv (with_tileMap (delete id (tileMap s)) (removed id (Tile.x o) (Tile.y o) s)).
Proof.
  intros (Hg & Hi & Hv & Ho) Hid Hr Hc.
  destruct (cellAt_nonneg _ _ _ _ Hc) as [Hx0 Hy0].
  split; [now apply (gridShaped_removed s)|].
  split; [exact (indexSound_delete (removed id (Tile.x o) (Tile.y o) s) id Hi)|].
  split; [now apply (refsValid_removed s) | now apply (ordered_removed s)].
Qed.

Lemma assign_id o u : Tile.id (assign o u) = Tile.id o.
Proof. reflexivity. Qed.

Lemma assign_zIndex o u : restacks u = false -> Tile.zIndex (assign o u) = Tile.zIndex o.
Proof.
  unfold restacks. intros Hu. apply bool_decide_eq_false in Hu.
  destruct u as [? ? ? ? ? uz ? ?]. cbn in *.
  destruct uz; [exfalso; apply Hu; eauto | reflexivity].
Qed.

Lemma orderInv_assign s id r o u :
  negb (restacks u) = true -> orderInv s ->
  tileMap s !! id = Some r -> heap s !! r = Some o ->
  orderInv (stored r (assign o u) s).
Proof.
  intros Hu (Hg & Hi & Hv & Ho) Hid Hr. apply negb_true_iff in Hu.
  split; [exact Hg|]. split; [now apply indexSound_stored with (o := o)|].
  split; [now apply refsValid_stored|].
  apply ordered_stored with (o := o); [exact Hr | now apply assign_zIndex | exact Ho].
Qed.

Lemma orderInv_retile s x y f :
  (forall c, Cell.tiles (f c) = Cell.tiles c) -> orderInv s -> orderInv (updateCell x y f s).
Proof.
  intros Hf (Hg & Hi & Hv & Ho).
  split; [now apply gridShaped_updateCell|]. split; [exact Hi|]. split.
  - intros x' y' c' a Hc' Ha.
    destruct (cellAt_retile_inv _ _ _ _ _ _ _ Hf Hc') as (c & Hc & E).
    rewrite E in Ha. eapply Hv; eassumption.
  - intros x' y' c' Hc'.
    destruct (cellAt_retile_inv _ _ _ _ _ _ _ Hf Hc') as (c & Hc & E).
    rewrite E. eapply Ho, Hc.
Qed.

Lemma orderInv_emptied s x y :
  orderInv s -> orderInv (updateCell x y (fun _ => emptyCellObject) s).
Proof.
  intros (Hg & Hi & Hv & Ho).
  split; [now apply gridShaped_updateCell|]. split; [exact Hi|]. split.
  - intros x' y' c' a Hc' Ha.
    destruct (cellAt_updateCell_inv _ _ _ _ _ _ _ Hc') as (c & Hc & [->| ->]).
    + eapply Hv; eassumption.
    + inversion Ha.
  - intros x' y' c' Hc'.
    destruct (cellAt_updateCell_inv _ _ _ _ _ _ _ Hc') as (c & Hc & [->| ->]).
    + eapply Ho, Hc.
    + exact I.
Qed.

Lemma keeps_orderInv_clear : keeps orderInv clear.
Proof.
  pose proof (fun A => @keeps_quiet orderInv A) as Hq.
  unfold clear.
  apply keeps_bind; [apply Hq; [apply orderInv_store | apply quiet_emit] | intros _].
  apply keeps_get_bind_all. intros s.
  apply keeps_bind.
  { apply keeps_forEach. intros [y xs]. apply keeps_forEach. intros x.
    apply keeps_bind.
    - intros s' Hs'. now apply orderInv_emptied.
    - intros _. apply Hq; [apply orderInv_store | apply quiet_addDirty]. }
  intros _.
  apply keeps_bind; [apply Hq; [apply orderInv_store | apply quiet_drawDisplay] | intros _].
  apply keeps_bind; [apply Hq; [apply orderInv_store | apply quiet_draw] | intros _].
  apply Hq; [apply orderInv_store | apply quiet_renderIfAuto].
Qed.

Lemma keepsOrder_gentle op :
  keepsOrder op = true -> op = Clear \/ gentle (fun u => negb (restacks u)) op = true.
Proof. destruct op; cbn; intros H; try discriminate; auto. Qed.

Lemma keepsOrder_keeps env op : keepsOrder op = true -> keeps orderInv (perform env op).
Proof.
  intros Hop. destruct (keepsOrder_gentle op Hop) as [->|Hg].
  - apply keeps_orderInv_clear.
  - revert Hg. apply gentle_keeps.
    + now intros s (? & _).
    + now intros s (_ & ? & _).
    + apply orderInv_store.
    + apply orderInv_create.
    + apply orderInv_move.
    + apply orderInv_remove.
    + apply orderInv_assign.
    + apply orderInv_retile.
Qed.

(** ** The freshly constructed engine *)

Lemma newDisplay_cells env options :
  cells (newDisplay env options)
  = initializeCells (Config.worldWidth options) (Config.worldHeight options).
Proof. reflexivity. Qed.

Lemma cellAt_new env options x y c :
  cellAt (newDisplay env options) x y = Some c -> c = emptyCellObject.
Proof.
  intros Hc. apply cellAt_Some in Hc as (row & _ & Hrow & _ & Hc).
  rewrite newDisplay_cells in Hrow. unfold initializeCells in Hrow.
  apply lookup_replicate in Hrow as [-> _].
  now apply lookup_replicate in Hc as [-> _].
Qed.

Lemma gridShaped_new env options : gridShaped (newDisplay env options).
Proof.
  split.
  - rewrite newDisplay_cells. unfold initializeCells. now rewrite length_replicate.
  - rewrite newDisplay_cells. unfold initializeCells.
    apply Forall_replicate. now rewrite length_replicate.
Qed.

Lemma indexSound_new env options : indexSound (newDisplay env options).
Proof. intros id r H. cbn in H. now rewrite lookup_empty in H. Qed.

Lemma orderInv_new env options : orderInv (newDisplay env options).
Proof.
  split; [apply gridShaped_new|]. split; [apply indexSound_new|]. split.
  - intros x y c a Hc Ha. apply cellAt_new in Hc as ->. inversion Ha.
  - intros x y c Hc. apply cellAt_new in Hc as ->. exact I.
Qed.

Lemma orderInv_reachable env options s :
  reachable env options keepsOrder s -> orderInv s.
Proof.
  induction 1 as [|s op _ IH Hop].
  - apply orderInv_new.
  - now apply keepsOrder_keeps.
Qed.

(** ** The placement invariant under the operations *)

Lemma placementInv_store s s' : sameStore s s' -> placementInv s -> placementInv s'.
Proof.
  intros H (Hg & Hi & Hc & Hn & Hp). pose proof H as (Ec & Eh & Et & _).
  split; [eapply gridShaped_store; eassumption|].
  split; [eapply indexSound_store; eassumption|].
  unfold cellsSound, noDuplicates, present, cellAt in *.
  rewrite Ec, Eh, Et. auto.
Qed.

(** Taking the object of [id] out of its cell. *)
Lemma placedBut_removed s id r o c :
  placementInv s -> tileMap s !! id = Some r -> heap s !! r = Some o ->
  cellAt s (Tile.x o) (Tile.y o) = Some c ->
  placedBut (removed id (Tile.x o) (Tile.y o) s) r.
Proof.
  intros (Hg & Hi & Hc & Hn & Hp) Hid Hr Hcell.
  destruct (cellAt_nonneg _ _ _ _ Hcell) as [Hx0 Hy0].
  pose proof (idOf_indexed s id r Hi Hid) as Hidr.
  split; [now apply gridShaped_removed|]. split; [exact Hi|].
  split; [|split; [|split]].
  - intros x y c' a. rewrite cellAt_removed by assumption.
    destruct (decide _) as [E|E]; [|apply Hc].
    rewrite Hcell. intros [= <-]. cbn. unfold withoutId.
    rewrite list_elem_of_filter. intros [_ Ha]. injection E as -> ->.
    eapply Hc; eassumption.
  - intros x y c'. rewrite cellAt_removed by assumption.
    destruct (decide _) as [E|E]; [|apply Hn].
    rewrite Hcell. intros [= <-]. cbn. apply NoDup_filter. eapply Hn, Hcell.
  - intros x y c'. rewrite cellAt_removed by assumption.
    destruct (decide _) as [E|E].
    + rewrite Hcell. intros [= <-]. cbn. unfold withoutId.
      rewrite list_elem_of_filter. intros [Hne _]. now apply Hne.
    + intros Hc' Ha. destruct (Hc x y c' r Hc' Ha) as (o' & Hr' & _ & Ex & Ey).
      apply E. congruence.
  - intros id' r' o' c' Hne Hid' Hr'. cbn in Hid', Hr'.
    rewrite cellAt_removed by assumption.
    destruct (decide _) as [E|E].
    + rewrite Hcell. intros [= <-]. cbn. unfold withoutId.
      rewrite list_elem_of_filter. split.
      * rewrite (idOf_indexed s id' r' Hi Hid'). intros [= ->]. apply Hne. congruence.
      * injection E as Ex Ey. eapply Hp; [exact Hid' | exact Hr' |].
        now rewrite Ex, Ey.
    + intros Hc'. eapply Hp; eassumption.
Qed.

(** Overwriting the fields of the object that is out of the grid. *)
Lemma placedBut_stored s r o o' :
  placedBut s r -> heap s !! r = Some o -> Tile.id o' = Tile.id o ->
  placedBut (stored r o' s) r.
Proof.
  intros (Hg & Hi & Hc & Hn & Ha & Hp) Hr Hid.
  split; [exact Hg|]. split; [now apply indexSound_stored with (o := o)|].
  split; [|split; [exact Hn | split; [exact Ha|]]].
  - intros x y c a Hcell Hin. destruct (Hc x y c a Hcell Hin) as (oa & Hoa & Hrest).
    exists oa. split; [|exact Hrest]. cbn. rewrite list_lookup_insert_ne; [exact Hoa|].
    intros ->. now apply (Ha x y c Hcell).
  - intros id' r' o'' c Hne Hid' Hr'. cbn in Hid', Hr'.
    rewrite list_lookup_insert_ne in Hr' by congruence.
    now apply (Hp id' r' o'' c).
Qed.

(** Putting the object back, or leaving it out when its position is
    outside. *)
Lemma placementInv_inserted s id r o :
  placedBut s r -> tileMap s !! id = Some r -> heap s !! r = Some o ->
  placementInv (if insideWorld s (Tile.x o) (Tile.y o) then inserted r o s else s).
Proof.
  intros (Hg & Hi & Hc & Hn & Ha & Hp) Hid Hr.
  destruct (Hi id r Hid) as [(o0 & Hr0 & Hido) _].
  assert (o0 = o) by congruence. subst o0.
  destruct (insideWorld s (Tile.x o) (Tile.y o)) eqn:Hin.
  - destruct (inside_nonneg _ _ _ Hin) as [Hx Hy].
    destruct (proj2 (gridShaped_cellAt s _ _ Hg) Hin) as [d Hd].
    split; [now apply gridShaped_inserted|]. split; [exact Hi|].
    split; [|split].
    + intros x y c a. rewrite cellAt_inserted by assumption.
      destruct (decide _) as [E|E]; [|apply Hc].
      rewrite Hd. intros [= <-]. cbn. rewrite elem_of_insertByZ.
      injection E as -> ->. intros [->|Hin'].
      * exists o. rewrite Hido. auto.
      * eapply Hc; eassumption.
    + intros x y c. rewrite cellAt_inserted by assumption.
      destruct (decide _) as [E|E]; [|apply Hn].
      rewrite Hd. intros [= <-]. cbn. apply NoDup_insertByZ.
      * eapply Ha, Hd.
      * eapply Hn, Hd.
    + intros id' r' o' c Hid' Hr'. cbn in Hid', Hr'.
      rewrite cellAt_inserted by assumption.
      destruct (decide (r' = r)) as [->|Hne].
      * assert (o' = o) by congruence. subst o'.
        rewrite decide_True by reflexivity. rewrite Hd. intros [= <-]. cbn.
        apply elem_of_insertByZ. now left.
      * destruct (decide _) as [E|E].
        -- rewrite Hd. intros [= <-]. cbn. apply elem_of_insertByZ. right.
           injection E as Ex Ey. eapply Hp; try eassumption. now rewrite Ex, Ey.
        -- intros Hc'. eapply Hp; eassumption.
  - split; [exact Hg|]. split; [exact Hi|]. split; [exact Hc|]. split; [exact Hn|].
    intros id' r' o' c Hid' Hr' Hcell.
    destruct (decide (r' = r)) as [->|Hne].
    + assert (o' = o) by congruence. subst o'.
      assert (is_Some (cellAt s (Tile.x o) (Tile.y o))) as Hs by eauto.
      apply (gridShaped_cellAt s _ _ Hg) in Hs. congruence.
    + eapply Hp; eassumption.
Qed.

Lemma placementInv_move s id r o nx ny c :
  placementInv s -> tileMap s !! id = Some r -> heap s !! r = Some o ->
  insideWorld s nx ny = true -> cellAt s (Tile.x o) (Tile.y o) = Some c ->
  placementInv (inserted r (setPosition o nx ny)
                  (stored r (setPosition o nx ny) (removed id (Tile.x o) (Tile.y o) s))).
Proof.
  intros Hs Hid Hr Hin Hc.
  pose proof (placedBut_removed s id r o c Hs Hid Hr Hc) as H1.
  pose proof (placedBut_stored _ r o (setPosition o nx ny) H1 Hr eq_refl) as H2.
  set (s2 := stored r (setPosition o nx ny) (removed id (Tile.x o) (Tile.y o) s)) in *.
  assert (Hr2 : heap s2 !! r = Some (setPosition o nx ny)).
  { cbn. apply list_lookup_insert_eq. eapply lookup_lt_Some, Hr. }
  pose proof (placementInv_inserted s2 id r (setPosition o nx ny) H2 Hid Hr2) as H3.
  change (insideWorld s2 (Tile.x (setPosition o nx ny)) (Tile.y (setPosition o nx ny)))
    with (insideWorld s nx ny) in H3.
  now rewrite Hin in H3.
Qed.

Lemma placementInv_remove s id r o c :
  placementInv s -> tileMap s !! id = Some r -> heap s !! r = Some o ->
  cellAt s (Tile.x o) (Tile.y o) = Some c ->
  placementInv (with_tileMap (delete id (tileMap s)) (removed id (Tile.x o) (Tile.y o) s)).
Proof.
  intros Hs Hid Hr Hcell.
  destruct (placedBut_removed s id r o c Hs Hid Hr Hcell) as (Hg & Hi & Hc & Hn & Ha & Hp).
  set (s1 := removed id (Tile.x o) (Tile.y o) s) in *.
  split; [exact Hg|]. split; [exact (indexSound_delete s1 id Hi)|].
  split; [|split; [exact Hn|]].
  - intros x y c' a Hc' Hin. destruct (Hc x y c' a Hc' Hin) as (oa & Hoa & Hta & Hpos).
    exists oa. split; [exact Hoa|]. split; [|exact Hpos].
    cbn. rewrite lookup_delete_ne; [exact Hta|].
    intros E. rewrite <- E in Hta. cbn in Hta. assert (a = r) by congruence. subst a.
    now apply (Ha x y c' Hc').
  - intros id' r' o' c' Hid' Hr' Hc'. cbn in Hid'.
    rewrite lookup_delete in Hid'. destruct (decide _) as [E|E]; [discriminate|].
    eapply Hp; try eassumption.
    intros ->. apply E. symmetry. eapply (indexSound_injective s); [apply Hs | |]; eassumption.
Qed.

Lemma placedBut_registered s o :
  placementInv s -> snd (Tile.id o) = tileIdCounter s ->
  placedBut (registered o (with_tileIdCounter (S (tileIdCounter s)) s)) (length (heap s)).
Proof.
  intros (Hg & Hi & Hc & Hn & Hp) Ho.
  split; [exact Hg|]. split; [now apply indexSound_registered|].
  split; [|split; [exact Hn | split]].
  - intros x y c a Hcell Hin. destruct (Hc x y c a Hcell Hin) as (oa & Hoa & Hta & Hpos).
    exists oa. split; [now apply lookup_app_l_Some|]. split; [|exact Hpos].
    cbn. rewrite lookup_insert_ne; [exact Hta|].
    intros E. destruct (Hi _ _ Hta) as [_ Hlt]. rewrite <- E in Hlt. lia.
  - intros x y c Hcell Hin. destruct (Hc x y c _ Hcell Hin) as (oa & Hoa & _).
    apply lookup_lt_Some in Hoa. lia.
  - intros id' r' o' c Hne Hid' Hr'. cbn in Hid', Hr'.
    rewrite lookup_insert in Hid'. destruct (decide _) as [E|E]; [congruence|].
    destruct (Hi _ _ Hid') as [(o'' & Hr'' & _) _].
    rewrite (lookup_app_l_Some _ _ _ _ Hr'') in Hr'. injection Hr' as <-.
    now apply (Hp id' r' o'' c).
Qed.

Lemma placementInv_create env s x y ch col bg z p d :
  placementInv s ->
  let o := Tile.mk (now env (tileIdCounter s), tileIdCounter s) x y ch col bg z p d in
  let s0 := registered o (with_tileIdCounter (S (tileIdCounter s)) s) in
  placementInv (if insideWorld s x y then inserted (length (heap s)) o s0 else s0).
Proof.
  intros Hs o s0.
  pose proof (placedBut_registered s o Hs eq_refl) as H0. fold s0 in H0.
  apply (placementInv_inserted s0 (Tile.id o) (length (heap s)) o H0).
  - cbn. apply lookup_insert_eq.
  - cbn. rewrite lookup_app_r by lia. now rewrite Nat.sub_diag.
Qed.

Lemma placementInv_assign s id r o u :
  negb (movesOrSets u) = true -> placementInv s ->
  tileMap s !! id = Some r -> heap s !! r = Some o ->
  placementInv (stored r (assign o u) s).
Proof.
  intros Hu (Hg & Hi & Hc & Hn & Hp) Hid Hr. apply negb_true_iff in Hu.
  destruct (assign_position o u Hu) as [Ex Ey].
  split; [exact Hg|]. split; [now apply indexSound_stored with (o := o)|].
  split; [|split; [exact Hn|]].
  - intros x y c a Hcell Hin. destruct (Hc x y c a Hcell Hin) as (oa & Hoa & Hta & Hpos).
    destruct (decide (a = r)) as [->|Hne].
    + assert (oa = o) by congruence. subst oa.
      exists (assign o u). split; [|split; [exact Hta | now rewrite Ex, Ey]].
      cbn. apply list_lookup_insert_eq. eapply lookup_lt_Some, Hr.
    + exists oa. split; [|auto]. cbn. now rewrite list_lookup_insert_ne.
  - intros id' r' o' c Hid' Hr' Hcell. cbn in Hid', Hr'.
    destruct (decide (r' = r)) as [->|Hne].
    + rewrite list_lookup_insert_eq in Hr' by (eapply lookup_lt_Some, Hr).
      injection Hr' as <-. rewrite Ex, Ey in Hcell. eapply Hp; eassumption.
    + rewrite list_lookup_insert_ne in Hr' by congruence. eapply Hp; eassumption.
Qed.

Lemma placementInv_retile s x y f :
  (forall c, Cell.tiles (f c) = Cell.tiles c) ->
  placementInv s -> placementInv (updateCell x y f s).
Proof.
  intros Hf (Hg & Hi & Hc & Hn & Hp).
  split; [now apply gridShaped_updateCell|]. split; [exact Hi|].
  split; [|split].
  - intros x' y' c' a Hc' Ha.
    destruct (cellAt_retile_inv _ _ _ _ _ _ _ Hf Hc') as (c & Hcell & E).
    rewrite E in Ha. eapply Hc; eassumption.
  - intros x' y' c' Hc'.
    destruct (cellAt_retile_inv _ _ _ _ _ _ _ Hf Hc') as (c & Hcell & E).
    rewrite E. eapply Hn, Hcell.
  - intros id r o c' Hid Hr Hc'.
    destruct (cellAt_retile_inv _ _ _ _ _ _ _ Hf Hc') as (c & Hcell & E).
    rewrite E. eapply Hp; eassumption.
Qed.

Lemma keepsPlacement_gentle op :
  keepsPlacement op = gentle (fun u => negb (movesOrSets u)) op.
Proof. destruct op; reflexivity. Qed.

Lemma keepsPlacement_keeps env op :
  keepsPlacement op = true -> keeps placementInv (perform env op).
Proof.
  rewrite keepsPlacement_gentle. apply gentle_keeps.
  - now intros s (? & _).
  - now intros s (_ & ? & _).
  - apply placementInv_store.
  - apply placementInv_create.
  - apply placementInv_move.
  - apply placementInv_remove.
  - apply placementInv_assign.
  - apply placementInv_retile.
Qed.

Lemma placementInv_new env options : placementInv (newDisplay env options).
Proof.
  split; [apply gridShaped_new|]. split; [apply indexSound_new|].
  split; [|split].
  - intros x y c a Hc Ha. apply cellAt_new in Hc as ->. inversion Ha.
  - intros x y c Hc. apply cellAt_new in Hc as ->. constructor.
  - intros id r o c Hid. cbn in Hid. now rewrite lookup_empty in Hid.
Qed.

Lemma placementInv_reachable env options s :
  reachable env options keepsPlacement s -> placementInv s.
Proof.
  induction 1 as [|s op _ IH Hop].
  - apply placementInv_new.
  - now apply keepsPlacement_keeps.
Qed.

(** ** The dirty set *)

Lemma with_dirtyRects_same s : with_dirtyRects (dirtyRects s) s = s.
Proof. now destruct s. Qed.

Lemma elem_of_addKey k k' d : k ∈ addKey k' d <-> k ∈ d \/ k = k'.
Proof.
  unfold addKey. destruct (decide (k' ∈ d)) as [Hin|Hin].
  - split; [auto | intros [H| ->]; assumption].
  - rewrite elem_of_app, list_elem_of_singleton. reflexivity.
Qed.

Lemma elem_of_addKeys k ks d : k ∈ addKeys ks d <-> k ∈ d \/ k ∈ ks.
Proof.
  unfold addKeys. revert d. induction ks as [|k' ks IH]; intros d; cbn.
  - rewrite elem_of_nil. tauto.
  - rewrite IH, elem_of_addKey, elem_of_cons. tauto.
Qed.

Lemma addKeys_app ks1 ks2 d : addKeys (ks1 ++ ks2) d = addKeys ks2 (addKeys ks1 d).
Proof. unfold addKeys. apply foldl_app. Qed.

(** A loop whose body adds keys adds the keys of all its rounds. *)
Lemma forEach_addKeys {A} (l : list A) (f : A -> M unit) (G : A -> list Key) s :
  (forall a s, f a s = (Ok tt, with_dirtyRects (addKeys (G a) (dirtyRects s)) s)) ->
  forEach l f s = (Ok tt, with_dirtyRects (addKeys (l ≫= G) (dirtyRects s)) s).
Proof.
  intros Hf. revert s. induction l as [|a l IH]; intros s; cbn [forEach].
  - unfold ret. cbn. now rewrite with_dirtyRects_same.
  - rewrite (bind_ok _ _ _ _ _ (Hf a s)), IH.
    change ((a :: l) ≫= G) with (G a ++ (l ≫= G)). now rewrite addKeys_app.
Qed.

Lemma elem_of_range i n : i ∈ range n <-> 0 <= i < n.
Proof.
  unfold range. rewrite list_elem_of_fmap. split.
  - intros (j & -> & Hj). apply elem_of_seq in Hj. lia.
  - intros Hi. exists (Z.to_nat i). split; [lia|]. apply elem_of_seq. lia.
Qed.

Lemma elem_of_viewportKeys x y width height k :
  k ∈ viewportKeys (Viewport.mk (Int x) (Int y) width height)
  <-> inRectangle x y width height k.
Proof.
  unfold viewportKeys, inRectangle. rewrite list_elem_of_bind. cbn. split.
  - intros (vy & Hk & Hvy). apply list_elem_of_fmap in Hk as (vx & -> & Hvx).
    apply elem_of_range in Hvy, Hvx. exists (vx + x), (vy + y).
    split; [reflexivity | lia].
  - intros (kx & ky & -> & Hx & Hy). exists (ky - y). split.
    + apply list_elem_of_fmap. exists (kx - x). split.
      * unfold cellKey. f_equal; f_equal; lia.
      * apply elem_of_range. lia.
    + apply elem_of_range. lia.
Qed.

(** ** Panning *)

Lemma bind_singleton_fmap {A B} (f : A -> B) (l : list A) :
  l ≫= (fun a => [f a]) = f <$> l.
Proof. induction l as [|a l IH]; [reflexivity|]. cbn. now rewrite IH. Qed.

(** The state [setViewport] hands to the render step. *)
Lemma setViewport_effect s x y :
  let v := viewport s in
  let v' := Viewport.mk
              (Math.max (Int 0)
                 (Math.min (Int x)
                    (Int (worldCanvasWidth s) / cellSize s - Int (Viewport.width v))))
              (Math.max (Int 0)
                 (Math.min (Int y)
                    (Int (worldCanvasHeight s) / cellSize s - Int (Viewport.height v))))
              (Viewport.width v) (Viewport.height v) in
  setViewport x y s =
  renderIfAuto
    (with_dirtyRects (addKeys (viewportKeys v') (dirtyRects s))
       (with_viewport v' (logged DEBUG (MsgSetViewport x y) s))).
Proof.
  intros v v'. unfold setViewport.
  unfold bind at 1. cbn [log_debug emit modify].
  unfold bind at 1. cbn [modify].
  unfold bind at 1. cbn [get].
  set (s1 := with_viewport _ _).
  assert (Hs1 : s1 = with_viewport v' (logged DEBUG (MsgSetViewport x y) s)) by reflexivity.
  erewrite (bind_ok (forEach _ _)); [rewrite Hs1; reflexivity|].
  rewrite (forEach_addKeys _ _
             (fun vy => (fun vx => (Int vx + Viewport.x v', Int vy + Viewport.y v')%num)
                          <$> range (Viewport.width v'))).
  - reflexivity.
  - intros vy s'.
    rewrite (forEach_addKeys _ _
               (fun vx => [(Int vx + Viewport.x v', Int vy + Viewport.y v')%num])).
    + now rewrite bind_singleton_fmap.
    + intros vx s''. reflexivity.
Qed.

(** ** Whole numbers among the numbers *)

Lemma ofQ_whole z : Num.ofQ (inject_Z z) = Int z.
Proof.
  unfold Num.ofQ. rewrite Qred_identity by (cbn; apply Z.gcd_1_r). reflexivity.
Qed.

Lemma ofQ_ext p q : (p == q)%Q -> Num.ofQ p = Num.ofQ q.
Proof. intros H. unfold Num.ofQ. now rewrite (Qred_complete p q H). Qed.

(** The quotient of a whole multiple of [n] and [n] is exact. *)
Lemma div_exact w n : n <> 0 -> (Int (w * n) / Int n)%num = Int w.
Proof.
  intros Hn. unfold Num.div. cbn [Num.toQ Num.isZero].
  destruct (Z.eqb_spec n 0) as [E|_]; [contradiction|].
  rewrite <- (ofQ_whole w). apply ofQ_ext.
  rewrite inject_Z_mult. field. intros H.
  apply Hn. apply (eq_sym (A := Z)). apply (inject_Z_injective 0 n).
  now rewrite H.
Qed.

Lemma toQ_ofQ q : exists p, Num.toQ (Num.ofQ q) = Some p /\ (p == q)%Q.
Proof.
  unfold Num.ofQ. destruct (Z.eqb_spec (Z.pos (Qden (Qred q))) 1) as [E|E]; cbn.
  - exists (inject_Z (Qnum (Qred q))). split; [reflexivity|].
    rewrite <- (Qred_correct q) at 2. destruct (Qred q) as [n d]. cbn in *.
    injection E as ->. reflexivity.
  - exists (Qred q). split; [reflexivity | apply Qred_correct].
Qed.

Lemma mul_ofQ a b : (Num.ofQ a * Num.ofQ b)%num = Num.ofQ (a * b).
Proof.
  destruct (toQ_ofQ a) as (p & Hp & Ep), (toQ_ofQ b) as (q & Hq & Eq).
  assert (E : Num.ofQ (p * q) = Num.ofQ (a * b)) by (apply ofQ_ext; now rewrite Ep, Eq).
  destruct (Num.ofQ a) as [x|x| | |] eqn:Ea, (Num.ofQ b) as [y|y| | |] eqn:Eb;
    try discriminate; cbn in Hp, Hq; injection Hp as <-; injection Hq as <-.
  - cbn. rewrite <- E, <- inject_Z_mult. now rewrite ofQ_whole.
  - exact E.
  - exact E.
  - exact E.
Qed.

(** A canvas takes a whole, non-negative length within its limit as it
    is. *)
Lemma canvasLength_whole default z :
  0 <= z <= 2147483647 -> canvasLength default (Int z) = z.
Proof.
  intros Hz. unfold canvasLength. cbn [Num.toUint32].
  rewrite Z.mod_small by lia. destruct (Z.leb_spec z 2147483647); [reflexivity | lia].
Qed.

(** The engine the constructor builds from a sound configuration has a
    whole cell size and a canvas of whole cells. *)
Lemma newDisplay_sound env options :
  sound env options ->
  exists n, 0 < n
    /\ cellSize (newDisplay env options) = Int n
    /\ worldCanvasWidth (newDisplay env options) = Config.worldWidth options * n
    /\ worldCanvasHeight (newDisplay env options) = Config.worldHeight options * n.
Proof.
  intros [(n & Hn & Hcs & Hw & Hh) _]. exists n. split; [exact Hn|].
  assert (Hscale : Qeq_bool (devicePixelRatio env) 0 = false).
  { destruct (Qeq_bool (devicePixelRatio env) 0) eqn:E; [|reflexivity].
    apply Qeq_bool_eq in E. rewrite E, Qmult_0_r in Hcs.
    exfalso. unfold Qeq in Hcs. cbn in Hcs. lia. }
  assert (Ecs : (Num.ofQ (Config.cellSize options)
                 * Num.ofQ (if Qeq_bool (devicePixelRatio env) 0 then 1%Q
                            else devicePixelRatio env))%num = Int n).
  { rewrite Hscale, mul_ofQ, (ofQ_ext _ _ Hcs). apply ofQ_whole. }
  change (cellSize (newDisplay env options)) with
    (Num.ofQ (Config.cellSize options)
     * Num.ofQ (if Qeq_bool (devicePixelRatio env) 0 then 1%Q else devicePixelRatio env))%num.
  change (worldCanvasWidth (newDisplay env options)) with
    (canvasLength 300 (Int (Config.worldWidth options)
       * (Num.ofQ (Config.cellSize options)
          * Num.ofQ (if Qeq_bool (devicePixelRatio env) 0 then 1%Q
                     else devicePixelRatio env)))%num).
  change (worldCanvasHeight (newDisplay env options)) with
    (canvasLength 150 (Int (Config.worldHeight options)
       * (Num.ofQ (Config.cellSize options)
          * Num.ofQ (if Qeq_bool (devicePixelRatio env) 0 then 1%Q
                     else devicePixelRatio env)))%num).
  rewrite Ecs. split; [reflexivity|].
  change (Int ?a * Int ?b)%num with (Int (a * b)).
  split; apply canvasLength_whole; assumption.
Qed.

Lemma wholeCells_new env options : sound env options -> wholeCells (newDisplay env options).
Proof.
  intros H. destruct (newDisplay_sound env options H) as (n & Hn & Ec & Ew & Eh).
  unfold wholeCells. rewrite Ec, Ew, Eh. split; apply div_exact; lia.
Qed.

(** ** A render pass on a well-formed engine returns *)

Lemma keyInside_spec s k :
  keyInside s k = true <-> exists x y, k = cellKey x y /\ insideWorld s x y = true.
Proof.
  split.
  - destruct k as [[x| | | |] [y| | | |]]; cbn; try discriminate. eauto.
  - intros (x & y & -> & H). exact H.
Qed.

Lemma keyInside_frame s s' k :
  worldWidth s' = worldWidth s -> worldHeight s' = worldHeight s ->
  keyInside s' k = keyInside s k.
Proof.
  intros Hw Hh. destruct k as [[x| | | |] [y| | | |]]; try reflexivity.
  cbn. unfold insideWorld. now rewrite Hw, Hh.
Qed.


Lemma forEach_ok {A} (P : MatrixDisplay -> Prop) (l : list A) (f : A -> M unit) s :
  (forall a s, a ∈ l -> P s -> exists s', f a s = (Ok tt, s') /\ P s') ->
  P s -> exists s', forEach l f s = (Ok tt, s') /\ P s'.
Proof.
  revert s. induction l as [|a l IH]; intros s Hf Hs; cbn [forEach].
  - exists s. split; [reflexivity | exact Hs].
  - destruct (Hf a s (list_elem_of_here _ _) Hs) as (s1 & E1 & H1).
    destruct (IH s1) as (s2 & E2 & H2); [|exact H1|].
    + intros b s' Hb. apply Hf. now apply list_elem_of_further.
    + exists s2. split; [|exact H2]. now rewrite (bind_ok _ _ _ _ _ E1).
Qed.

Lemma renderCell_ok s0 c (x y : Number) s :
  outputOnly s0 s ->
  (forall r, r ∈ Cell.tiles c -> (r < length (heap s0))%nat) ->
  exists s', renderCell (Some c) x y s = (Ok tt, s') /\ outputOnly s0 s'.
Proof.
  intros Hs Hc. unfold renderCell.
  unfold bind at 1. cbn [get].
  unfold bind at 1. cbn [draw modify].
  set (s1 := with_worldCtx _ s).
  assert (H1 : outputOnly s0 s1).
  { eapply outputOnly_trans; [exact Hs|]. repeat split. }
  destruct (forEach_ok (outputOnly s0) (sortByZ (heap s) (Cell.tiles c))
              (fun r => do tile <- deref r;
                        draw (paintTile (cellSize s) (x * cellSize s / Int 2)%num
                                (y * cellSize s)%num tile)) s1)
    as (s2 & E2 & H2); [|exact H1|].
  { intros r s' Hr Hs'.
    assert (Hr' : r ∈ Cell.tiles c).
    { revert Hr. unfold sortByZ. generalize (Cell.tiles c). intros l.
      induction l as [|b l IH]; cbn; [easy|]. intros Hr.
      assert (Hins : forall l', r ∈ insertSorted (heap s) b l' -> r = b \/ r ∈ l').
      { intros l'. induction l' as [|b' l' IH']; cbn.
        - rewrite list_elem_of_singleton. auto.
        - destruct (_ <=? _); rewrite !elem_of_cons; [tauto|].
          intros [->|H]; [tauto|]. destruct (IH' H); tauto. }
      apply Hins in Hr as [->|Hr]; [apply list_elem_of_here|].
      apply list_elem_of_further. now apply IH. }
    specialize (Hc r Hr').
    assert (Hh : heap s' = heap s0) by apply Hs'.
    destruct (lookup_lt_is_Some_2 (heap s') r) as [o Ho]; [rewrite Hh; exact Hc|].
    unfold bind, deref. rewrite Ho. eexists. split; [reflexivity|].
    eapply outputOnly_trans; [exact Hs'|]. repeat split. }
  rewrite (bind_ok _ _ _ _ _ E2).
  destruct (truthy (Cell.overlay c) && negb (String.eqb (Cell.overlay c) transparent)).
  - unfold bind, draw, modify. eexists. split; [reflexivity|].
    eapply outputOnly_trans; [exact H2|]. repeat split.
  - unfold bind, draw, modify, ret. eexists. split; [reflexivity|].
    eapply outputOnly_trans; [exact H2|]. repeat split.
Qed.

Lemma render_ok s :
  gridShaped s -> refsValid s -> dirtyInside s ->
  exists s', render s = (Ok tt, s') /\ outputOnly s s' /\ dirtyRects s' = [].
Proof.
  intros Hg Hv Hd. unfold render.
  unfold bind at 1. cbn [get].
  unfold bind at 1. cbn [log_verbose emit modify].
  destruct (dirtyRects s) as [|k d] eqn:Ed.
  - cbn [length Nat.eqb]. eexists. split; [reflexivity|].
    split; [repeat split | cbn; exact Ed].
  - cbn [length Nat.eqb].
    unfold bind at 1. cbn [modify].
    unfold bind at 1. cbn [log_debug emit modify].
    set (s1 := with_console _ _).
    assert (H1 : outputOnly s s1) by repeat split.
    destruct (forEach_ok (outputOnly s) (k :: d)
                (fun key => do s' <- get;
                   match item (cells s') (snd key) with
                   | None => throw TypeError
                   | Some row => renderCell (item row (fst key)) (fst key) (snd key)
                   end) s1) as (s2 & E2 & H2); [|exact H1|].
    { intros key s' Hkey Hs'. unfold bind at 1. cbn [get].
      assert (Hin : keyInside s key = true).
      { unfold dirtyInside in Hd. rewrite Ed, Forall_forall in Hd. now apply Hd. }
      apply keyInside_spec in Hin as (kx & ky & -> & Hin).
      apply (gridShaped_cellAt s _ _ Hg) in Hin as [c Hc].
      assert (Hcells : cells s' = cells s) by apply Hs'.
      rewrite Hcells. unfold cellAt in Hc. cbn [fst snd cellKey item].
      destruct (index (cells s) ky) as [row|] eqn:Erow; [|discriminate].
      rewrite Hc. apply renderCell_ok; [exact Hs'|].
      intros r Hr. apply (Hv kx ky c r); [|exact Hr].
      unfold cellAt. rewrite Erow. exact Hc. }
    rewrite (bind_ok _ _ _ _ _ E2).
    eexists. split; [reflexivity|]. split; [|reflexivity].
    eapply outputOnly_trans; [exact H2|]. repeat split.
Qed.

Lemma renderIfAuto_ok s :
  gridShaped s -> refsValid s -> dirtyInside s ->
  exists s', renderIfAuto s = (Ok tt, s') /\ outputOnly s s' /\ dirtyInside s'.
Proof.
  intros Hg Hv Hd. unfold renderIfAuto, bind, get.
  destruct (autoRender s).
  - destruct (render_ok s Hg Hv Hd) as (s' & E & Ho & Hd').
    exists s'. split; [exact E|]. split; [exact Ho|].
    unfold dirtyInside. rewrite Hd'. constructor.
  - exists s. split; [reflexivity|]. split; [apply outputOnly_refl | exact Hd].
Qed.


(** ** The tile operations on a well-formed engine *)

Lemma dirtyInside_addKey s s' x y :
  worldWidth s' = worldWidth s -> worldHeight s' = worldHeight s ->
  dirtyRects s' = addKey (cellKey x y) (dirtyRects s) ->
  insideWorld s x y = true -> dirtyInside s -> dirtyInside s'.
Proof.
  intros Hw Hh Hd Hin Hs. unfold dirtyInside in *. rewrite Hd.
  rewrite Forall_forall in *. intros k Hk. rewrite (keyInside_frame s s' k Hw Hh).
  apply elem_of_addKey in Hk as [Hk| ->]; [now apply Hs | exact Hin].
Qed.

Lemma wellFormed_outputOnly s s' :
  outputOnly s s' -> dirtyInside s' -> wellFormed s -> wellFormed s'.
Proof.
  intros Ho Hd (Hg & Hv & _ & Hi). apply outputOnly_sameStore in Ho.
  split; [eapply gridShaped_store; eassumption|].
  split; [eapply refsValid_store; eassumption|].
  split; [exact Hd | eapply indexSound_store; eassumption].
Qed.

Lemma getTile_fresh s id o :
  indexSound s -> getTile id s = Some o -> (snd id < tileIdCounter s)%nat.
Proof.
  unfold getTile. intros Hi H. destruct (tileMap s !! id) as [r|] eqn:E; [|discriminate].
  now destruct (Hi id r E).
Qed.

Lemma createTile_ok env s x y ch col bg z p d :
  wellFormed s ->
  let id := (now env (tileIdCounter s), tileIdCounter s) in
  let o := Tile.mk id x y ch col bg z p d in
  exists s', createTile env x y ch col bg z p d s = (Ok id, s')
    /\ wellFormed s'
    /\ tileIdCounter s' = S (tileIdCounter s)
    /\ worldWidth s' = worldWidth s /\ worldHeight s' = worldHeight s
    /\ getTile id s' = Some o
    /\ (forall id' o', getTile id' s = Some o' -> getTile id' s' = Some o').
Proof.
  intros (Hg & Hv & Hd & Hi) id o.
  rewrite createTile_effect.
  2:{ intros Hin. now apply gridShaped_cellAt. }
  fold id. fold o.
  set (s0 := registered o (logged VERBOSE (MsgCreating id x y)
                             (with_tileIdCounter (S (tileIdCounter s)) s))).
  set (X := if insideWorld s x y then inserted (length (heap s)) o s0 else s0).
  assert (H0 : wellFormed s0).
  { split; [exact Hg|]. split; [apply (refsValid_registered _ o); exact Hv|].
    split; [exact Hd|]. now apply (indexSound_registered s o). }
  assert (HX : wellFormed X).
  { unfold X. destruct (insideWorld s x y) eqn:Hin; [|exact H0].
    destruct H0 as (Hg0 & Hv0 & Hd0 & Hi0).
    destruct (inside_nonneg _ _ _ Hin) as [Hx Hy].
    split; [now apply gridShaped_inserted|]. split.
    - apply refsValid_inserted; try assumption. cbn. rewrite length_app. cbn. lia.
    - split; [|exact Hi0].
      eapply (dirtyInside_addKey s0); [reflexivity | reflexivity | reflexivity | exact Hin | exact Hd0]. }
  assert (Hstore : tileIdCounter X = S (tileIdCounter s)
                   /\ worldWidth X = worldWidth s /\ worldHeight X = worldHeight s
                   /\ tileMap X = <[id := length (heap s)]> (tileMap s)
                   /\ heap X = heap s ++ [o]).
  { unfold X. destruct (insideWorld s x y); repeat split. }
  destruct Hstore as (Hn & Hw & Hh & Ht & Hhp).
  destruct HX as (HgX & HvX & HdX & HiX).
  destruct (renderIfAuto_ok X HgX HvX HdX) as (s' & E & Ho & Hd').
  exists s'. split; [now rewrite (bind_ok _ _ _ _ _ E)|].
  split; [apply (wellFormed_outputOnly X); [exact Ho | exact Hd' | exact (conj HgX (conj HvX (conj HdX HiX)))]|].
  pose proof Ho as (_ & _ & _ & Ew & Eh & _ & _ & _ & _ & Ehp & Et & En & _).
  split; [congruence|]. split; [congruence|]. split; [congruence|].
  unfold getTile. rewrite Et, Ehp, Ht, Hhp. split.
  - rewrite lookup_insert_eq. rewrite lookup_app_r by lia. now rewrite Nat.sub_diag.
  - intros id' o' H'.
    pose proof (getTile_fresh s id' o' Hi H') as Hlt.
    unfold getTile in H'. destruct (tileMap s !! id') as [r'|] eqn:E'; [|discriminate].
    rewrite lookup_insert_ne by (intros <-; cbn in Hlt; lia).
    rewrite E'. now apply lookup_app_l_Some.
Qed.

Lemma moveTile_ok s id o nx ny :
  wellFormed s -> getTile id s = Some o ->
  insideWorld s (Tile.x o) (Tile.y o) = true -> insideWorld s nx ny = true ->
  exists s', moveTile id nx ny s = (Ok tt, s')
    /\ wellFormed s'
    /\ tileIdCounter s' = tileIdCounter s
    /\ worldWidth s' = worldWidth s /\ worldHeight s' = worldHeight s
    /\ getTile id s' = Some (setPosition o nx ny)
    /\ (forall id' o', id' <> id -> getTile id' s = Some o' -> getTile id' s' = Some o').
Proof.
  intros (Hg & Hv & Hd & Hi) Hget Hin0 Hin.
  unfold getTile in Hget. destruct (tileMap s !! id) as [r|] eqn:Hid; [|discriminate].
  destruct (proj2 (gridShaped_cellAt s _ _ Hg) Hin0) as [c Hc].
  rewrite (moveTile_effect s id r o nx ny c Hid Hget Hin
             (proj2 (gridShaped_cellAt s _ _ Hg) Hin) Hc).
  destruct (inside_nonneg _ _ _ Hin) as [Hx Hy].
  destruct (inside_nonneg _ _ _ Hin0) as [Hx0 Hy0].
  set (o' := setPosition o nx ny).
  set (s1 := removed id (Tile.x o) (Tile.y o) (logged VERBOSE (MsgMoving id nx ny) s)).
  set (s2 := stored r o' s1).
  set (X := inserted r o' s2).
  assert (H1 : wellFormed s1).
  { split; [apply gridShaped_removed; exact Hg|].
    split; [apply refsValid_removed; assumption|].
    split; [|exact Hi].
    eapply (dirtyInside_addKey s); [reflexivity | reflexivity | reflexivity | exact Hin0 | exact Hd]. }
  destruct H1 as (Hg1 & Hv1 & Hd1 & Hi1).
  assert (Hr1 : heap s1 !! r = Some o) by exact Hget.
  assert (HX : wellFormed X).
  { split; [apply gridShaped_inserted; exact Hg1|]. split.
    - apply refsValid_inserted; try assumption.
      + cbn. rewrite length_insert. eapply lookup_lt_Some, Hget.
      + now apply refsValid_stored.
    - split; [|exact (indexSound_stored s1 r o o' Hr1 eq_refl Hi1)].
      eapply (dirtyInside_addKey s2); [reflexivity | reflexivity | reflexivity | exact Hin | exact Hd1]. }
  destruct HX as (HgX & HvX & HdX & HiX).
  destruct (renderIfAuto_ok X HgX HvX HdX) as (s' & E & Ho & Hd').
  exists s'. split; [exact E|].
  split; [apply (wellFormed_outputOnly X); [exact Ho | exact Hd' | exact (conj HgX (conj HvX (conj HdX HiX)))]|].
  pose proof Ho as (_ & _ & _ & Ew & Eh & _ & _ & _ & _ & Ehp & Et & En & _).
  split; [exact En|]. split; [exact Ew|]. split; [exact Eh|].
  unfold getTile. rewrite Et, Ehp. cbn [X inserted s2 stored s1 removed logged
    tileMap heap with_dirtyRects with_heap with_console updateCell with_cells].
  split.
  - rewrite Hid. apply list_lookup_insert_eq. eapply lookup_lt_Some, Hget.
  - intros id' o'' Hne H'.
    destruct (tileMap s !! id') as [r'|] eqn:E'; [|discriminate].
    rewrite list_lookup_insert_ne; [exact H'|].
    intros <-. apply Hne. eapply indexSound_injective; eassumption.
Qed.

Lemma removeTile_ok s id o :
  wellFormed s -> getTile id s = Some o ->
  insideWorld s (Tile.x o) (Tile.y o) = true ->
  exists s', removeTile id s = (Ok tt, s') /\ wellFormed s' /\ getTile id s' = None.
Proof.
  intros (Hg & Hv & Hd & Hi) Hget Hin0.
  unfold getTile in Hget. destruct (tileMap s !! id) as [r|] eqn:Hid; [|discriminate].
  destruct (proj2 (gridShaped_cellAt s _ _ Hg) Hin0) as [c Hc].
  rewrite (removeTile_effect s id r o c Hid Hget Hc).
  destruct (inside_nonneg _ _ _ Hin0) as [Hx0 Hy0].
  cbn zeta.
  set (s1 := removed id (Tile.x o) (Tile.y o) (logged VERBOSE (MsgRemoving id) s)).
  set (X := with_tileMap (delete id (tileMap s1)) s1).
  assert (HX : wellFormed X).
  { split; [apply gridShaped_removed; exact Hg|].
    split; [apply refsValid_removed; assumption|].
    split; [|exact (indexSound_delete s1 id Hi)].
    eapply (dirtyInside_addKey s); [reflexivity | reflexivity | reflexivity | exact Hin0 | exact Hd]. }
  destruct HX as (HgX & HvX & HdX & HiX).
  destruct (renderIfAuto_ok X HgX HvX HdX) as (s' & E & Ho & Hd').
  exists s'. split; [exact E|].
  split; [apply (wellFormed_outputOnly X); [exact Ho | exact Hd' | exact (conj HgX (conj HvX (conj HdX HiX)))]|].
  rewrite (getTile_outputOnly X s' id Ho). unfold getTile. cbn.
  now rewrite lookup_delete_eq.
Qed.

Lemma wellFormed_new env options : wellFormed (newDisplay env options).
Proof.
  split; [apply gridShaped_new|]. split; [|split; [|apply indexSound_new]].
  - intros x y c a Hc Ha. apply cellAt_new in Hc as ->. inversion Ha.
  - unfold dirtyInside. cbn. constructor.
Qed.

(** ** Where an inserted tile lands *)

Lemma precedes_cons {A} (a b c : A) l : precedes a b l -> precedes a b (c :: l).
Proof. intros (l1 & l2 & l3 & ->). now exists (c :: l1), l2, l3. Qed.

Lemma precedes_head {A} (a b : A) l : b ∈ l -> precedes a b (a :: l).
Proof.
  intros Hb. apply list_elem_of_split in Hb as (l2 & l3 & ->). now exists [], l2, l3.
Qed.

(** In a list in z-order, the inserted tile lands behind every tile whose
    z-index is not greater than its own. *)
Lemma precedes_insertByZ h r l a :
  zOrdered h l -> a ∈ l -> zIndexOf h a <= zIndexOf h r ->
  precedes a r (insertByZ h r l).
Proof.
  induction l as [|b l IH]; intros Hl Ha Hz; [inversion Ha|].
  apply zOrdered_cons in Hl as [Hb Hrest]. rewrite insertByZ_cons.
  destruct (Z.ltb_spec (zIndexOf h r) (zIndexOf h b)) as [Hlt|Hge].
  - exfalso. apply elem_of_cons in Ha as [->|Ha]; [lia|]. specialize (Hb a Ha). lia.
  - apply elem_of_cons in Ha as [->|Ha].
    + apply precedes_head, elem_of_insertByZ. now left.
    + apply precedes_cons. now apply IH.
Qed.

Lemma insertByZ_app h r l1 l2 :
  (forall a, a ∈ l1 -> zIndexOf h a <= zIndexOf h r) ->
  insertByZ h r (l1 ++ l2) = l1 ++ insertByZ h r l2.
Proof.
  induction l1 as [|b l1 IH]; intros Hl1; [reflexivity|].
  cbn [app]. rewrite insertByZ_cons.
  destruct (Z.ltb_spec (zIndexOf h r) (zIndexOf h b)) as [Hlt|Hge].
  - specialize (Hl1 b (list_elem_of_here _ _)). lia.
  - f_equal. apply IH. intros a Ha. apply Hl1. now apply list_elem_of_further.
Qed.

Lemma insertByZ_before_greater h r l :
  (forall a, a ∈ l -> zIndexOf h r < zIndexOf h a) -> insertByZ h r l = r :: l.
Proof.
  destruct l as [|b l]; [reflexivity|]. intros Hl. rewrite insertByZ_cons.
  destruct (Z.ltb_spec (zIndexOf h r) (zIndexOf h b)) as [Hlt|Hge]; [reflexivity|].
  specialize (Hl b (list_elem_of_here _ _)). lia.
Qed.

Lemma filter_ne_insertByZ h r l :
  filter (fun a => a <> r) (insertByZ h r l) = filter (fun a => a <> r) l.
Proof.
  induction l as [|b l IH].
  - rewrite insertByZ_nil. now rewrite filter_cons_False by tauto.
  - rewrite insertByZ_cons. destruct (_ <? _).
    + now rewrite filter_cons_False by tauto.
    + rewrite !filter_cons. destruct (decide _); now rewrite IH.
Qed.

Lemma filter_ext_in {A} (P Q : A -> Prop) `{forall a, Decision (P a)}
    `{forall a, Decision (Q a)} (l : list A) :
  (forall a, a ∈ l -> (P a <-> Q a)) -> filter P l = filter Q l.
Proof.
  induction l as [|b l IH]; intros Hl; [reflexivity|].
  rewrite !filter_cons.
  assert (Hb : P b <-> Q b) by apply Hl, list_elem_of_here.
  rewrite IH by (intros a Ha; apply Hl; now apply list_elem_of_further).
  destruct (decide (P b)), (decide (Q b)); tauto.
Qed.

Lemma filter_idem {A} (P : A -> Prop) `{forall a, Decision (P a)} (l : list A) :
  filter P (filter P l) = filter P l.
Proof.
  induction l as [|b l IH]; [reflexivity|].
  rewrite filter_cons. destruct (decide (P b)); [|exact IH].
  rewrite filter_cons_True by assumption. now rewrite IH.
Qed.

Lemma filter_ne_middle (r : nat) l1 l2 :
  NoDup (l1 ++ r :: l2) -> filter (fun a => a <> r) (l1 ++ r :: l2) = l1 ++ l2.
Proof.
  intros Hn. apply NoDup_app in Hn as (_ & Hd & Hn2).
  apply NoDup_cons in Hn2 as [Hr2 _].
  rewrite filter_app, filter_cons_False by tauto.
  assert (Hid : forall l : list nat, r ∉ l -> filter (fun a => a <> r) l = l).
  { intros l Hl. induction l as [|b l IH]; [reflexivity|].
    apply not_elem_of_cons in Hl as [Hb Hl].
    rewrite filter_cons_True by congruence. now rewrite IH. }
  rewrite !Hid; [reflexivity | exact Hr2 |].
  intros Hr1. apply (Hd r Hr1). apply list_elem_of_here.
Qed.

Lemma perm_take_out (r : nat) l :
  NoDup l -> r ∈ l -> r :: filter (fun a => a <> r) l ≡ₚ l.
Proof.
  intros Hn Hr. apply list_elem_of_split in Hr as (l1 & l2 & ->).
  rewrite filter_ne_middle by exact Hn. now rewrite Permutation_middle.
Qed.

(** Under the placement invariant the filter on the id takes exactly the
    object of that id out of a cell list. *)
Lemma withoutId_indexed s id r x y c :
  placementInv s -> tileMap s !! id = Some r -> cellAt s x y = Some c ->
  withoutId (heap s) id (Cell.tiles c) = filter (fun a => a <> r) (Cell.tiles c).
Proof.
  intros (_ & Hi & Hc & _) Hid Hcell. unfold withoutId. apply filter_ext_in.
  intros a Ha. destruct (Hc x y c a Hcell Ha) as (oa & Hoa & Hta & _).
  unfold idOf. rewrite Hoa. cbn. split.
  - intros Hne ->. apply Hne. f_equal.
    destruct (Hi id r Hid) as [(o & Hr & Ho) _]. congruence.
  - intros Hne [= E]. apply Hne. rewrite E in Hta. congruence.
Qed.

Lemma setPosition_same o : setPosition o (Tile.x o) (Tile.y o) = o.
Proof. now destruct o. Qed.

Lemma reachable_weaken env options (a b : Op -> bool) s :
  (forall op, a op = true -> b op = true) ->
  reachable env options a s -> reachable env options b s.
Proof.
  intros Hab. induction 1 as [|s op _ IH Hop].
  - apply reach_new.
  - apply reach_step; [exact IH | now apply Hab].
Qed.

Lemma reachable_both env options s :
  reachable env options keepsBoth s -> placementInv s /\ orderInv s.
Proof.
  intros H. split.
  - apply (placementInv_reachable env options).
    revert H. apply reachable_weaken. unfold keepsBoth. intros op Hop.
    now apply andb_true_iff in Hop.
  - apply (orderInv_reachable env options).
    revert H. apply reachable_weaken. unfold keepsBoth. intros op Hop.
    now apply andb_true_iff in Hop.
Qed.

Lemma addKey_idem k d : addKey k (addKey k d) = addKey k d.
Proof.
  unfold addKey at 1. rewrite decide_True; [reflexivity|].
  apply elem_of_addKey. now right.
Qed.

Lemma exec_discard {A} (m : M A) s : exec (discard m) s = exec m s.
Proof. unfold exec, discard, bind, ret. destruct (m s) as [[a|e] s']; reflexivity. Qed.

Lemma paintOrder_ordered s x y c :
  ordered s -> cellAt s x y = Some c -> paintOrder s x y = Cell.tiles c.
Proof.
  intros Ho Hc. unfold paintOrder. rewrite Hc. apply sortByZ_ordered. eapply Ho, Hc.
Qed.

(** ** Runs of tiles *)

Lemma idsFrom_cons env n len :
  idsFrom env n (S len) = (now env n, n) :: idsFrom env (S n) len.
Proof. reflexivity. Qed.

Lemma elem_of_idsFrom env n len id :
  id ∈ idsFrom env n len -> (n <= snd id < n + len)%nat.
Proof.
  unfold idsFrom. rewrite list_elem_of_fmap. intros (k & -> & Hk).
  apply elem_of_seq in Hk. cbn. lia.
Qed.









(** ** The length of a word *)










(** ** Loops over segments and words *)

Lemma bind_assoc {A B C} (m : M A) (k1 : A -> M B) (k2 : B -> M C) s :
  bind (bind m k1) k2 s = bind m (fun a => bind (k1 a) k2) s.
Proof. unfold bind. destruct (m s) as [[a|e] s1]; reflexivity. Qed.

Lemma bind_ext {A B} (m : M A) (k1 k2 : A -> M B) s :
  (forall a s, k1 a s = k2 a s) -> bind m k1 s = bind m k2 s.
Proof. intros Hk. unfold bind. destruct (m s) as [[a|e] s1]; [apply Hk | reflexivity]. Qed.


Lemma foldM_app {A B} (f : B -> A -> M B) b l1 l2 s :
  foldM f b (l1 ++ l2) s = bind (foldM f b l1) (fun b' => foldM f b' l2) s.
Proof.
  revert b s. induction l1 as [|a l1 IH]; intros b s; [reflexivity|].
  cbn [app foldM]. rewrite bind_assoc. apply bind_ext. intros b' s'. apply IH.
Qed.

Lemma foldM_fmap {A B C} (f : B -> A -> M B) (g : C -> A) b l s :
  foldM f b (g <$> l) s = foldM (fun b c => f b (g c)) b l s.
Proof.
  revert b s. induction l as [|c l IH]; intros b s; [reflexivity|].
  cbn [fmap list_fmap foldM]. apply bind_ext. intros b' s'. apply IH.
Qed.








(** ** The layout *)






(** ** The text loop of [createWrappedString] *)



(** ** Tiles of equal z-index keep the order of their insertion *)

Lemma precedes_nil {A} (a b : A) : ~ precedes a b [].
Proof. intros (l1 & l2 & l3 & H). destruct l1; discriminate. Qed.

Lemma precedes_cons_inv {A} (a b c : A) l :
  precedes a b (c :: l) -> (a = c /\ b ∈ l) \/ precedes a b l.
Proof.
  intros (l1 & l2 & l3 & H). destruct l1 as [|c' l1]; cbn in H; injection H as -> ->.
  - left. split; [reflexivity|]. apply elem_of_app. right. apply list_elem_of_here.
  - right. now exists l1, l2, l3.
Qed.

Lemma precedes_elem {A} (a b : A) l : precedes a b l -> a ∈ l /\ b ∈ l.
Proof.
  intros (l1 & l2 & l3 & ->). split.
  - apply elem_of_app. right. apply list_elem_of_here.
  - apply elem_of_app. right. apply list_elem_of_further, elem_of_app. right.
    apply list_elem_of_here.
Qed.

Lemma precedes_filter {A} (P : A -> Prop) `{forall a, Decision (P a)} (a b : A) l :
  precedes a b (filter P l) -> precedes a b l.
Proof.
  induction l as [|c l IH]; [easy|]. rewrite filter_cons.
  destruct (decide (P c)); intros Hp.
  - apply precedes_cons_inv in Hp as [[-> Hb]|Hp].
    + apply precedes_head. now apply list_elem_of_filter in Hb as [_ Hb].
    + apply precedes_cons. now apply IH.
  - apply precedes_cons. now apply IH.
Qed.

(** Of two different members of a list one comes before the other. *)
Lemma precedes_total {A} (a b : A) l :
  a ∈ l -> b ∈ l -> a <> b -> precedes a b l \/ precedes b a l.
Proof.
  induction l as [|c l IH]; intros Ha Hb Hne; [inversion Ha|].
  apply elem_of_cons in Ha as [->|Ha]; apply elem_of_cons in Hb as [->|Hb].
  - congruence.
  - left. now apply precedes_head.
  - right. now apply precedes_head.
  - destruct (IH Ha Hb Hne); [left | right]; now apply precedes_cons.
Qed.

(** In a list in z-order, a tile that comes before another one after the
    insertion of a third did so before, or it is the inserted tile and its
    z-index is lower. *)
Lemma behind_insertByZ h r l a b :
  r <> a -> zOrdered h l -> precedes b a (insertByZ h r l) ->
  precedes b a l \/ zIndexOf h b < zIndexOf h a.
Proof.
  intros Hne. induction l as [|c l IH]; intros Hl Hp.
  - rewrite insertByZ_nil in Hp. apply precedes_cons_inv in Hp as [[_ Ha]|Hp].
    + inversion Ha.
    + now apply precedes_nil in Hp.
  - apply zOrdered_cons in Hl as [Hc Hrest]. rewrite insertByZ_cons in Hp.
    destruct (Z.ltb_spec (zIndexOf h r) (zIndexOf h c)) as [Hlt|Hge].
    + apply precedes_cons_inv in Hp as [[-> Ha]|Hp]; [|now left].
      right. apply elem_of_cons in Ha as [->|Ha]; [exact Hlt|].
      specialize (Hc a Ha). lia.
    + apply precedes_cons_inv in Hp as [[-> Ha]|Hp].
      * left. apply precedes_head. apply elem_of_insertByZ in Ha as [->|Ha]; [congruence|].
        exact Ha.
      * destruct (IH Hrest Hp) as [H|H]; [left; now apply precedes_cons | now right].
Qed.

Lemma idOf_lt h r id : idOf h r = Some id -> (r < length h)%nat.
Proof.
  unfold idOf. intros H. destruct (h !! r) as [o|] eqn:E; [|discriminate].
  eapply lookup_lt_Some, E.
Qed.

(** What it takes to carry [aheadOf] from one state to another. *)
Lemma aheadOf_update x y a b ida s s' :
  aheadOf x y a b ida s -> orderInv s' ->
  idOf (heap s') a = Some ida ->
  (tileIdCounter s <= tileIdCounter s')%nat ->
  (forall r, (r < length (heap s))%nat -> zIndexOf (heap s') r = zIndexOf (heap s) r) ->
  (forall c', cellAt s' x y = Some c' ->
     exists c, cellAt s x y = Some c
       /\ (precedes b a (Cell.tiles c') ->
           precedes b a (Cell.tiles c) \/ zIndexOf (heap s') b < zIndexOf (heap s') a)) ->
  aheadOf x y a b ida s'.
Proof.
  intros (HO & Ha & Hn & Hahead) HO' Ha' Hn' Hz Hcell.
  split; [exact HO'|]. split; [exact Ha'|]. split; [lia|].
  intros c' Hc' Hp. destruct (Hcell c' Hc') as (c & Hc & H).
  destruct (H Hp) as [Hp0|Hlt]; [|exact Hlt].
  destruct HO as (_ & _ & Hv & _).
  rewrite (Hz a) by (eapply idOf_lt, Ha).
  rewrite (Hz b) by (eapply Hv; [exact Hc | apply (precedes_elem _ _ _ Hp0)]).
  now apply (Hahead c).
Qed.

Lemma aheadOf_store x y a b ida s s' :
  sameStore s s' -> aheadOf x y a b ida s -> aheadOf x y a b ida s'.
Proof.
  intros Hst Hs. pose proof Hst as (Hc & Hh & Ht & Hn & Hw & Hhh).
  apply (aheadOf_update x y a b ida s s' Hs).
  - eapply orderInv_store; [exact Hst | apply Hs].
  - rewrite Hh. apply Hs.
  - lia.
  - intros r _. now rewrite Hh.
  - intros c' Hc'. exists c'. split; [|now left].
    unfold cellAt in *. now rewrite <- Hc.
Qed.

Lemma aheadOf_removed x y a b ida s id x0 y0 :
  0 <= x0 -> 0 <= y0 ->
  aheadOf x y a b ida s -> aheadOf x y a b ida (removed id x0 y0 s).
Proof.
  intros Hx0 Hy0 Hs. pose proof Hs as ((Hg & Hi & Hv & Ho) & _).
  apply (aheadOf_update x y a b ida s _ Hs).
  - split; [now apply gridShaped_removed|]. split; [exact Hi|].
    split; [now apply refsValid_removed | now apply ordered_removed].
  - apply Hs.
  - reflexivity.
  - reflexivity.
  - intros c' Hc'.
    destruct (cellAt_updateCell_inv _ _ _ _ _ _ _ Hc') as (c & Hc & [->| ->]).
    + exists c. split; [exact Hc | now left].
    + exists c. split; [exact Hc|]. cbn [Cell.tiles]. intros Hp. left.
      unfold withoutId in Hp. now apply precedes_filter in Hp.
Qed.

Lemma aheadOf_stored x y a b ida s r o o' :
  heap s !! r = Some o -> Tile.id o' = Tile.id o -> Tile.zIndex o' = Tile.zIndex o ->
  aheadOf x y a b ida s -> aheadOf x y a b ida (stored r o' s).
Proof.
  intros Hr Hid Hz Hs. pose proof Hs as ((Hg & Hi & Hv & Ho) & Ha & _).
  apply (aheadOf_update x y a b ida s _ Hs).
  - split; [exact Hg|]. split; [now apply indexSound_stored with (o := o)|].
    split; [now apply refsValid_stored | now apply ordered_stored with (o := o)].
  - cbn [heap stored with_heap]. unfold idOf in *.
    destruct (decide (r = a)) as [->|Hne].
    + rewrite list_lookup_insert_eq by (eapply lookup_lt_Some, Hr).
      rewrite Hr in Ha. cbn in *. now rewrite Hid.
    + now rewrite list_lookup_insert_ne.
  - reflexivity.
  - intros r' _. now apply zIndexOf_insert with (o := o).
  - intros c' Hc'. exists c'. split; [exact Hc' | now left].
Qed.

Lemma aheadOf_inserted x y a b ida s r o :
  0 <= Tile.x o -> 0 <= Tile.y o -> r <> a -> (r < length (heap s))%nat ->
  aheadOf x y a b ida s -> aheadOf x y a b ida (inserted r o s).
Proof.
  intros Hx Hy Hne Hr Hs. pose proof Hs as ((Hg & Hi & Hv & Ho) & _).
  apply (aheadOf_update x y a b ida s _ Hs).
  - split; [now apply gridShaped_inserted|]. split; [exact Hi|].
    split; [now apply refsValid_inserted | now apply ordered_inserted].
  - apply Hs.
  - reflexivity.
  - reflexivity.
  - intros c' Hc'.
    destruct (cellAt_updateCell_inv _ _ _ _ _ _ _ Hc') as (c & Hc & [->| ->]).
    + exists c. split; [exact Hc | now left].
    + exists c. split; [exact Hc|]. cbn [Cell.tiles]. intros Hp.
      apply (behind_insertByZ (heap s) r (Cell.tiles c) a b Hne); [|exact Hp].
      eapply Ho, Hc.
Qed.

Lemma aheadOf_create env x y a b ida s tx ty ch col bg z p d :
  aheadOf x y a b ida s ->
  let o := Tile.mk (now env (tileIdCounter s), tileIdCounter s) tx ty ch col bg z p d in
  let s0 := registered o (with_tileIdCounter (S (tileIdCounter s)) s) in
  aheadOf x y a b ida (if insideWorld s tx ty then inserted (length (heap s)) o s0 else s0).
Proof.
  intros Hs o s0. pose proof Hs as ((Hg & Hi & Hv & Ho) & Ha & Hn & _).
  pose proof (idOf_lt _ _ _ Ha) as Hlt.
  assert (H0 : aheadOf x y a b ida s0).
  { apply (aheadOf_update x y a b ida s _ Hs).
    - split; [exact Hg|]. split; [now apply indexSound_registered|].
      split; [now apply refsValid_registered | now apply ordered_registered].
    - cbn. unfold idOf in *. now rewrite lookup_app_l.
    - cbn. lia.
    - intros r Hr. now apply zIndexOf_app.
    - intros c' Hc'. exists c'. split; [exact Hc' | now left]. }
  destruct (insideWorld s tx ty) eqn:Hin; [|exact H0].
  destruct (inside_nonneg _ _ _ Hin) as [Hx Hy].
  apply aheadOf_inserted; try assumption.
  - lia.
  - cbn. rewrite length_app. cbn. lia.
Qed.

Lemma aheadOf_move x y a b ida s id r o nx ny c :
  id <> ida -> aheadOf x y a b ida s ->
  tileMap s !! id = Some r -> heap s !! r = Some o ->
  insideWorld s nx ny = true -> cellAt s (Tile.x o) (Tile.y o) = Some c ->
  aheadOf x y a b ida
    (inserted r (setPosition o nx ny)
       (stored r (setPosition o nx ny) (removed id (Tile.x o) (Tile.y o) s))).
Proof.
  intros Hid Hs Ht Hr Hin Hc. pose proof Hs as ((Hg & Hi & Hv & Ho) & Ha & _).
  destruct (inside_nonneg _ _ _ Hin) as [Hx Hy].
  destruct (cellAt_nonneg _ _ _ _ Hc) as [Hx0 Hy0].
  assert (Hne : r <> a).
  { intros ->. pose proof (idOf_indexed s id a Hi Ht). congruence. }
  apply aheadOf_inserted; try assumption.
  - cbn. rewrite length_insert. eapply lookup_lt_Some, Hr.
  - apply aheadOf_stored with (o := o); try reflexivity; [exact Hr|].
    now apply aheadOf_removed.
Qed.

Lemma aheadOf_remove x y a b ida s id r o c :
  aheadOf x y a b ida s -> tileMap s !! id = Some r -> heap s !! r = Some o ->
  cellAt s (Tile.x o) (Tile.y o) = Some c ->
  aheadOf x y a b ida
    (with_tileMap (delete id (tileMap s)) (removed id (Tile.x o) (Tile.y o) s)).
Proof.
  intros Hs Ht Hr Hc. destruct (cellAt_nonneg _ _ _ _ Hc) as [Hx0 Hy0].
  pose proof (aheadOf_removed x y a b ida s id _ _ Hx0 Hy0 Hs) as H1.
  apply (aheadOf_update x y a b ida _ _ H1).
  - eapply orderInv_remove; [apply Hs | eassumption..].
  - apply H1.
  - reflexivity.
  - reflexivity.
  - intros c' Hc'. exists c'. split; [exact Hc' | now left].
Qed.

Lemma aheadOf_assign x y a b ida s id r o u :
  negb (restacks u) = true -> aheadOf x y a b ida s ->
  tileMap s !! id = Some r -> heap s !! r = Some o ->
  aheadOf x y a b ida (stored r (assign o u) s).
Proof.
  intros Hu Hs Ht Hr. apply negb_true_iff in Hu.
  apply aheadOf_stored with (o := o); [exact Hr | apply assign_id | | exact Hs].
  now apply assign_zIndex.
Qed.

Lemma aheadOf_retile x y a b ida s x0 y0 f :
  (forall c, Cell.tiles (f c) = Cell.tiles c) ->
  aheadOf x y a b ida s -> aheadOf x y a b ida (updateCell x0 y0 f s).
Proof.
  intros Hf Hs. apply (aheadOf_update x y a b ida s _ Hs).
  - apply orderInv_retile; [exact Hf | apply Hs].
  - apply Hs.
  - reflexivity.
  - reflexivity.
  - intros c' Hc'. destruct (cellAt_retile_inv _ _ _ _ _ _ _ Hf Hc') as (c & Hc & E).
    exists c. split; [exact Hc|]. rewrite E. now left.
Qed.

Lemma aheadOf_emptied x y a b ida s x0 y0 :
  aheadOf x y a b ida s -> aheadOf x y a b ida (updateCell x0 y0 (fun _ => emptyCellObject) s).
Proof.
  intros Hs. apply (aheadOf_update x y a b ida s _ Hs).
  - apply orderInv_emptied, Hs.
  - apply Hs.
  - reflexivity.
  - reflexivity.
  - intros c' Hc'.
    destruct (cellAt_updateCell_inv _ _ _ _ _ _ _ Hc') as (c & Hc & [->| ->]).
    + exists c. split; [exact Hc | now left].
    + exists c. split; [exact Hc|]. intros Hp. now apply precedes_nil in Hp.
Qed.

Lemma keeps_aheadOf_clear x y a b ida : keeps (aheadOf x y a b ida) clear.
Proof.
  pose proof (fun A => @keeps_quiet (aheadOf x y a b ida) A) as Hq.
  unfold clear.
  apply keeps_bind; [apply Hq; [apply aheadOf_store | apply quiet_emit] | intros _].
  apply keeps_get_bind_all. intros s.
  apply keeps_bind.
  { apply keeps_forEach. intros [y0 xs]. apply keeps_forEach. intros x0.
    apply keeps_bind.
    - intros s' Hs'. now apply aheadOf_emptied.
    - intros _. apply Hq; [apply aheadOf_store | apply quiet_addDirty]. }
  intros _.
  apply keeps_bind; [apply Hq; [apply aheadOf_store | apply quiet_drawDisplay] | intros _].
  apply keeps_bind; [apply Hq; [apply aheadOf_store | apply quiet_draw] | intros _].
  apply Hq; [apply aheadOf_store | apply quiet_renderIfAuto].
Qed.

(** Every operation that keeps the order and does not move the tile [a]
    keeps it ahead of [b]. *)
Lemma keeps_aheadOf env x y a b ida op :
  keepsOrder op = true -> ida ∉ movedIds op ->
  keeps (aheadOf x y a b ida) (perform env op).
Proof.
  intros Hop Hmv. destruct (keepsOrder_gentle op Hop) as [->|Hg].
  - apply keeps_aheadOf_clear.
  - revert Hg. intros Hg.
    apply (gentle_keeps_movable env (aheadOf x y a b ida) (fun u => negb (restacks u))
             (fun id => id <> ida)); try assumption.
    + now intros s ((? & _) & _).
    + now intros s ((_ & ? & _) & _).
    + apply aheadOf_store.
    + intros s tx ty ch col bg z p d. apply aheadOf_create.
    + intros s (_ & _ & Hn & _) E. rewrite <- E in Hn. cbn in Hn. lia.
    + intros s id r o nx ny c Hid. now apply aheadOf_move.
    + intros s id r o c. apply aheadOf_remove.
    + intros s id r o u. apply aheadOf_assign.
    + intros s x0 y0 f. apply aheadOf_retile.
    + apply Forall_forall. intros id Hin ->. now apply Hmv.
Qed.

Lemma runOps_aheadOf env x y a b ida ops s :
  Forall (fun op => keepsOrder op = true /\ ida ∉ movedIds op) ops ->
  aheadOf x y a b ida s -> aheadOf x y a b ida (runOps env ops s).
Proof.
  intros Hops. revert s. induction Hops as [|op ops [Hop Hmv] _ IH]; intros s Hs; [exact Hs|].
  change (aheadOf x y a b ida (runOps env ops (exec (perform env op) s))).
  apply IH. now apply keeps_aheadOf.
Qed.

(** * The tile store: placement and order *)

(** C1, as stated, fails: after [createTile(0,0,...)] and
    [setTiles(0,0,[])] the tile is still in the tile index, its stored
    position is (0,0), and the list of the cell at (0,0) is empty, so the
    tile is in no cell. *)
Lemma placement_lost_by_setTiles : ~ placement (runOps demoEnv replacedList demo).
Proof.
  intros H.
  destruct (H (demoId 0) 0%nat (Tile.mk (demoId 0) 0 0 "@" white black 1 1 BOTTOM))
    as [(c & Hc & Hin & _) _].
  - vm_compute. reflexivity.
  - vm_compute. reflexivity.
  - vm_compute in Hc. injection Hc as <-. inversion Hin.
Qed.

(** C1, amended: on every state reached from a freshly constructed engine
    by operations other than [setTiles], [clear], [setBackground] and
    [updateTile] with position fields, every tile of the tile index whose
    stored position lies inside the world is in the list of the cell at its
    stored position, exactly once, and in the list of no other cell. *)
Theorem placement_kept env options s id r o :
  reachable env options keepsPlacement s ->
  tileMap s !! id = Some r -> heap s !! r = Some o ->
  insideWorld s (Tile.x o) (Tile.y o) = true ->
  placedOnce s r o.
Proof.
  intros Hs Hid Hr Hin.
  destruct (placementInv_reachable env options s Hs) as (Hg & Hi & Hc & Hn & Hp).
  destruct (proj2 (gridShaped_cellAt s _ _ Hg) Hin) as [c Hcell].
  split.
  - exists c. split; [exact Hcell|]. split; [eapply Hp; eassumption | eapply Hn, Hcell].
  - intros x y c' Hc' Hin'. destruct (Hc x y c' r Hc' Hin') as (o' & Hr' & _ & Ex & Ey).
    assert (o' = o) by congruence. subst o'. auto.
Qed.

Lemma placement_kept_witness :
  let s := exec (perform demoEnv (MoveTile (demoId 0) 3 4))
             (exec (perform demoEnv (CreateTile 2 2 "@" white black 1 1 BOTTOM)) demo) in
  placedOnce s 0%nat (Tile.mk (demoId 0) 3 4 "@" white black 1 1 BOTTOM).
Proof.
  intros s. apply (placement_kept demoEnv demoConfig s (demoId 0)).
  - apply reach_step; [apply reach_step; [apply reach_new | reflexivity] | reflexivity].
  - vm_compute. reflexivity.
  - vm_compute. reflexivity.
  - vm_compute. reflexivity.
Defined.

(** C2, as stated, fails: two tiles with z-index 1 and 2 share a cell and
    [updateTile] raises the first to 5; the list of the cell then reads
    5, 2. *)
Lemma order_lost_by_updateTile : ~ ordered (runOps demoEnv raisedInPlace demo).
Proof.
  intros H.
  assert (Hc : cellAt (runOps demoEnv raisedInPlace demo) 0 0
               = Some (Cell.mk transparent [0%nat; 1%nat] true))
    by (vm_compute; reflexivity).
  specialize (H 0 0 _ Hc). unfold zOrdered in H.
  assert (Hz : zIndexOf (heap (runOps demoEnv raisedInPlace demo))
                 <$> Cell.tiles (Cell.mk transparent [0%nat; 1%nat] true) = [5; 2])
    by (vm_compute; reflexivity).
  rewrite Hz in H. destruct H as [H _]. inversion H. lia.
Qed.

(** C2, amended: on every state reached from a freshly constructed engine
    by operations other than [setTiles], [setBackground] and [updateTile]
    with a z-index, the list of every cell is in ascending z-order, and the
    sort that [renderCell] applies before painting returns the list as it
    is. *)
Theorem order_kept env options s x y c :
  reachable env options keepsOrder s ->
  cellAt s x y = Some c ->
  zOrdered (heap s) (Cell.tiles c)
  /\ sortByZ (heap s) (Cell.tiles c) = Cell.tiles c.
Proof.
  intros Hs Hc.
  destruct (orderInv_reachable env options s Hs) as (_ & _ & _ & Ho).
  specialize (Ho x y c Hc). split; [exact Ho | now apply sortByZ_ordered].
Qed.

Lemma order_kept_witness :
  let s := exec (perform demoEnv (CreateTile 0 0 "a" white black 1 1 BOTTOM))
             (exec (perform demoEnv (CreateTile 0 0 "b" white black 2 1 BOTTOM)) demo) in
  zOrdered (heap s) [1%nat; 0%nat]
  /\ sortByZ (heap s) [1%nat; 0%nat] = [1%nat; 0%nat].
Proof.
  intros s.
  apply (order_kept demoEnv demoConfig s 0 0 (Cell.mk transparent [1%nat; 0%nat] true)).
  - apply reach_step; [apply reach_step; [apply reach_new | reflexivity] | reflexivity].
  - vm_compute. reflexivity.
Defined.

(** * The viewport *)




(** * Creating, reading and removing a tile *)




(** * Operations that throw or register out of bounds *)

(** C3, at the failing input: a tile created at (-1,0) is known to the
    tile index and (0,0) is inside the world, yet [moveTile] of that tile
    to (0,0) throws a [TypeError]; the tile keeps its stored position and
    no cell receives it. *)
Lemma moveTile_throws_for_tile_off_grid :
  let s := runOps demoEnv createdOutside demo in
  is_Some (tileMap s !! demoId 0)
  /\ insideWorld s 0 0 = true
  /\ result (moveTile (demoId 0) 0 0) s = Throw TypeError
  /\ getTile (demoId 0) (exec (moveTile (demoId 0) 0 0) s)
     = Some (Tile.mk (demoId 0) (-1) 0 "@" white black 1 1 BOTTOM)
  /\ paintOrder (exec (moveTile (demoId 0) 0 0) s) 0 0 = [].
Proof.
  cbn zeta. split; [vm_compute; eauto|]. repeat split; vm_compute; reflexivity.
Qed.

(** C4, at the failing input: [createTile] at (-1,0), outside the 10 by
    10 world, returns an id, enters the tile in the tile index and advances
    the id counter; nothing is written to the console at the default log
    level. *)
Lemma createTile_outside_registers :
  let m := createTile demoEnv (-1) 0 "@" white black 1 1 BOTTOM in
  insideWorld demo (-1) 0 = false
  /\ result m demo = Ok (demoId 0)
  /\ tileMap demo !! demoId 0 = None
  /\ tileMap (exec m demo) !! demoId 0 = Some 0%nat
  /\ tileIdCounter demo = 0%nat /\ tileIdCounter (exec m demo) = 1%nat
  /\ logLevel demo = WARN
  /\ console (exec m demo) = console demo.
Proof. cbn zeta. repeat split; vm_compute; reflexivity. Qed.

(** C10, at failing inputs: [setTiles] with a column outside the world
    throws a [TypeError]; so do [removeTile] and [updateTile] on a tile
    whose stored position is outside the world, and so does
    [createWrappedString] when a word that starts beyond the right edge is
    wrapped back into the world. *)
Lemma operations_throw :
  result (setTiles (-1) 0 []) demo = Throw TypeError
  /\ result (setTiles 0 10 []) demo = Throw TypeError
  /\ result (removeTile (demoId 0)) (runOps demoEnv createdOutside demo) = Throw TypeError
  /\ result (updateTile (demoId 0) Updates.none) (runOps demoEnv createdOutside demo)
     = Throw TypeError
  /\ result (createWrappedString demoEnv 5 0 5 1 "aaaa bbbb" Options.empty) demo
     = Throw TypeError.
Proof. repeat split; vm_compute; reflexivity. Qed.

(** * Moving a tile to its own position *)

(** C9, as stated, fails: two tiles with z-index 1 share the cell (0,0),
    the list reading first, second; [moveTile] of the first tile to (0,0)
    leaves the list reading second, first. *)
Lemma moveTile_in_place_reorders :
  let s := runOps demoEnv stacked demo in
  getTile (demoId 0) s = Some (Tile.mk (demoId 0) 0 0 "a" white black 1 1 BOTTOM)
  /\ Cell.tiles <$> cellAt s 0 0 = Some [0%nat; 1%nat]
  /\ Cell.tiles <$> cellAt (exec (moveTile (demoId 0) 0 0) s) 0 0 = Some [1%nat; 0%nat].
Proof. cbn zeta. repeat split; vm_compute; reflexivity. Qed.

(** C9, amended: for a tile of the tile index that sits in the grid, on a
    state reached without [setTiles], [clear], [setBackground] and without
    [updateTile] of a position or z-index, [moveTile] to the tile's own
    position leaves the tile index, the tile objects and the lists of all
    other cells unchanged and adds the tile's coordinate to the dirty set
    before the render step; in the tile's own cell the tile is taken out
    and put back before the first tile of strictly greater z-index, so the
    list keeps its tiles and the order of the others, the tile comes
    behind every tile of equal or lower z-index, and the list is unchanged
    when only tiles of strictly greater z-index followed it. *)
Theorem moveTile_in_place env options s id r o c :
  reachable env options keepsBoth s ->
  tileMap s !! id = Some r -> heap s !! r = Some o ->
  cellAt s (Tile.x o) (Tile.y o) = Some c ->
  let s' := exec (moveTile id (Tile.x o) (Tile.y o)) s in
  let l' := insertByZ (heap s) r (filter (fun a => a <> r) (Cell.tiles c)) in
  (exists s1, moveTile id (Tile.x o) (Tile.y o) s = renderIfAuto s1
              /\ dirtyRects s1 = addKey (cellKey (Tile.x o) (Tile.y o)) (dirtyRects s)
              /\ (autoRender s = false -> s' = s1))
  /\ tileMap s' = tileMap s /\ heap s' = heap s
  /\ (forall x y, (x, y) <> (Tile.x o, Tile.y o) -> cellAt s' x y = cellAt s x y)
  /\ Cell.tiles <$> cellAt s' (Tile.x o) (Tile.y o) = Some l'
  /\ l' ≡ₚ Cell.tiles c
  /\ filter (fun a => a <> r) l' = filter (fun a => a <> r) (Cell.tiles c)
  /\ (forall a, a ∈ Cell.tiles c -> a <> r ->
        zIndexOf (heap s) a <= zIndexOf (heap s) r -> precedes a r l')
  /\ (forall l1 l2, Cell.tiles c = l1 ++ r :: l2 ->
        (forall a, a ∈ l2 -> zIndexOf (heap s) r < zIndexOf (heap s) a) ->
        l' = Cell.tiles c).
Proof.
  intros Hreach Hid Hr Hc s' l'.
  destruct (reachable_both env options s Hreach) as [HP HO].
  pose proof HP as (Hg & Hi & Hcs & Hn & Hp).
  pose proof HO as (_ & _ & _ & Ho).
  assert (Hin : insideWorld s (Tile.x o) (Tile.y o) = true)
    by (apply (gridShaped_cellAt s _ _ Hg); eauto).
  destruct (cellAt_nonneg _ _ _ _ Hc) as [Hx Hy].
  pose proof (moveTile_effect s id r o (Tile.x o) (Tile.y o) c Hid Hr Hin
                (ex_intro _ c Hc) Hc) as E.
  cbn zeta in E. rewrite setPosition_same in E.
  set (s1 := inserted r o (stored r o (removed id (Tile.x o) (Tile.y o)
                (logged VERBOSE (MsgMoving id (Tile.x o) (Tile.y o)) s)))) in E.
  assert (Hheap : heap s1 = heap s) by (cbn; now apply list_insert_id).
  assert (Hcell : forall x y, cellAt s1 x y =
            if decide ((x, y) = (Tile.x o, Tile.y o))
            then Some (Cell.mk (Cell.overlay c) l' true)
            else cellAt s x y).
  { intros x y. unfold s1. rewrite cellAt_inserted by assumption.
    change (cellAt (stored ?a ?b ?s0)) with (cellAt s0).
    rewrite !cellAt_removed by assumption.
    change (cellAt (logged ?a ?b ?s0)) with (cellAt s0).
    destruct (decide ((x, y) = (Tile.x o, Tile.y o))) as [Exy|Exy]; [|reflexivity].
    rewrite decide_True by reflexivity. rewrite Hc.
    cbn [fmap option_fmap option_map Cell.tiles Cell.overlay].
    f_equal. f_equal. unfold l'.
    change (heap (stored r o ?s0)) with (<[r := o]> (heap s)).
    rewrite (list_insert_id _ _ _ Hr). f_equal.
    change (heap (logged ?a ?b s)) with (heap s).
    now apply (withoutId_indexed s id r (Tile.x o) (Tile.y o) c). }
  assert (Hout : outputOnly s1 s').
  { unfold s', exec. rewrite E. apply quiet_renderIfAuto. }
  assert (Hr_in : r ∈ Cell.tiles c) by (eapply Hp; eassumption).
  assert (Hfo : zOrdered (heap s) (filter (fun a => a <> r) (Cell.tiles c)))
    by (apply zOrdered_filter; eapply Ho, Hc).
  split; [|split; [|split; [|split; [|split; [|split; [|split; [|split]]]]]]].
  - exists s1. split; [exact E|]. split.
    + cbn. apply addKey_idem.
    + intros Ha. unfold s', exec. rewrite E. now rewrite renderIfAuto_off.
  - destruct Hout as (_&_&_&_&_&_&_&_&_&_& Ht &_). rewrite Ht. reflexivity.
  - destruct Hout as (_&_&_&_&_&_&_&_&_& Hh &_). now rewrite Hh.
  - intros x y Hne. rewrite (cellAt_outputOnly s1 s' x y Hout), Hcell.
    now rewrite decide_False.
  - rewrite (cellAt_outputOnly s1 s' _ _ Hout), Hcell.
    now rewrite decide_True.
  - unfold l'. rewrite insertByZ_perm. apply perm_take_out; [eapply Hn, Hc | exact Hr_in].
  - unfold l'. rewrite filter_ne_insertByZ. apply filter_idem.
  - intros a Ha Hne Hz. unfold l'. apply precedes_insertByZ; [exact Hfo | | exact Hz].
    apply list_elem_of_filter. auto.
  - intros l1 l2 Hl Hl2. unfold l'. rewrite Hl.
    assert (Hnd : NoDup (l1 ++ r :: l2)) by (rewrite <- Hl; eapply Hn, Hc).
    rewrite filter_ne_middle by exact Hnd.
    rewrite insertByZ_app.
    + now rewrite insertByZ_before_greater.
    + intros a Ha. specialize (Ho _ _ _ Hc). rewrite Hl in Ho.
      clear - Ho Ha. induction l1 as [|b l1 IH]; [inversion Ha|].
      cbn [app] in Ho. apply zOrdered_cons in Ho as [Hb Hrest].
      apply elem_of_cons in Ha as [->|Ha].
      * apply Hb. apply elem_of_app. right. apply list_elem_of_here.
      * now apply IH.
Qed.

Lemma moveTile_in_place_witness :
  let s := exec (perform demoEnv (CreateTile 0 0 "b" white black 1 1 BOTTOM))
             (exec (perform demoEnv (CreateTile 0 0 "a" white black 1 1 BOTTOM)) demo) in
  Cell.tiles <$> cellAt (exec (moveTile (demoId 0) 0 0) s) 0 0
  = Some (insertByZ (heap s) 0%nat (filter (fun a => a <> 0%nat) [0%nat; 1%nat])).
Proof.
  intros s.
  destruct (moveTile_in_place demoEnv demoConfig s (demoId 0) 0%nat
              (Tile.mk (demoId 0) 0 0 "a" white black 1 1 BOTTOM)
              (Cell.mk transparent [0%nat; 1%nat] true))
    as (_ & _ & _ & _ & H & _).
  - apply reach_step; [apply reach_step; [apply reach_new | reflexivity] | reflexivity].
  - vm_compute. reflexivity.
  - vm_compute. reflexivity.
  - vm_compute. reflexivity.
  - exact H.
Defined.

(** * Painting tiles of equal z-index *)

(** C6, as stated, fails: tiles [a] and [b] are created in the cell (0,0)
    in this order, both with z-index 2; between the two a tile [c] is
    created with z-index 1 and raised to 9 by [updateTile].  The render
    pass paints [b], then [a], then [c]: the tile inserted later is
    painted first and lies under the earlier one. *)
Lemma equal_z_overtaken :
  let s := runOps demoEnv overtaken demo in
  getTile (demoId 0) s = Some (Tile.mk (demoId 0) 0 0 "a" white black 2 1 BOTTOM)
  /\ getTile (demoId 2) s = Some (Tile.mk (demoId 2) 0 0 "b" white black 2 1 BOTTOM)
  /\ tileMap s !! demoId 0 = Some 0%nat /\ tileMap s !! demoId 2 = Some 2%nat
  /\ paintOrder s 0 0 = [2%nat; 0%nat; 1%nat]
  /\ glyphs (drop (length (worldCtx (runOps demoEnv (take 3 overtaken) demo))) (worldCtx s))
     = ["b"; "a"; "c"]%string.
Proof. cbn zeta. repeat split; vm_compute; reflexivity. Qed.

(** C6, amended: on a state reached without [setTiles], [setBackground]
    and [updateTile] of a z-index, tiles of equal z-index in a cell are
    painted in the order of their last insertion into the cell.  A tile put
    into the cell by [createTile], or by [moveTile] from any cell, the cell
    itself included, is painted after every other tile of the cell with the
    same z-index.  And the order persists: when [b] is not before an
    indexed tile [a] in the list of the cell, then after any further such
    operations that do not hand [a] to [moveTile], whenever both are in the
    cell with equal z-index, [a] is painted before [b] and [b] is not
    painted before [a]. *)
Theorem equal_z_painted_in_insertion_order env options s x y c a ida :
  reachable env options keepsOrder s ->
  cellAt s x y = Some c -> a ∈ Cell.tiles c -> tileMap s !! ida = Some a ->
  (forall ch col bg p d,
     let s' := exec (createTile env x y ch col bg (zIndexOf (heap s) a) p d) s in
     tileMap s' !! (now env (tileIdCounter s), tileIdCounter s) = Some (length (heap s))
     /\ precedes a (length (heap s)) (paintOrder s' x y))
  /\ (forall id r o,
        tileMap s !! id = Some r -> heap s !! r = Some o -> r <> a ->
        Tile.zIndex o = zIndexOf (heap s) a ->
        is_Some (cellAt s (Tile.x o) (Tile.y o)) ->
        precedes a r (paintOrder (exec (moveTile id x y) s) x y))
  /\ (forall b ops,
        b <> a -> ~ precedes b a (Cell.tiles c) ->
        Forall (fun op => keepsOrder op = true /\ ida ∉ movedIds op) ops ->
        let s' := runOps env ops s in
        a ∈ paintOrder s' x y -> b ∈ paintOrder s' x y ->
        zIndexOf (heap s') a = zIndexOf (heap s') b ->
        precedes a b (paintOrder s' x y) /\ ~ precedes b a (paintOrder s' x y)).
Proof.
  intros Hreach Hc Ha Hida.
  pose proof (orderInv_reachable env options s Hreach) as HO.
  pose proof HO as (Hg & Hi & Hv & Ho).
  assert (Hin : insideWorld s x y = true) by (apply (gridShaped_cellAt s _ _ Hg); eauto).
  destruct (inside_nonneg _ _ _ Hin) as [Hx Hy].
  split; [|split].
  - intros ch col bg p d s'.
    assert (HO' : orderInv s').
    { unfold s'. rewrite <- exec_discard.
      apply (keepsOrder_keeps env (CreateTile x y ch col bg (zIndexOf (heap s) a) p d)
               eq_refl s HO). }
    pose proof (createTile_effect env s x y ch col bg (zIndexOf (heap s) a) p d
                  (fun _ => ex_intro _ c Hc)) as E.
    cbn zeta in E. rewrite Hin in E.
    match type of E with _ = bind renderIfAuto ?k ?X0 =>
      set (X := X0) in E;
      assert (Hout : outputOnly X s')
        by (unfold s', exec; rewrite E; apply (quiet_bind renderIfAuto k);
            [apply quiet_renderIfAuto | intros _; apply quiet_ret]) end.
    pose proof Hout as (_&_&_&_&_&_&_&_&_& Hh & Ht &_).
    split; [rewrite Ht; cbn; apply lookup_insert_eq|].
    assert (Hcell : cellAt s' x y
              = Some (Cell.mk (Cell.overlay c)
                        (insertByZ (heap X) (length (heap s)) (Cell.tiles c)) true)).
    { rewrite (cellAt_outputOnly X s' x y Hout). unfold X.
      rewrite cellAt_inserted by assumption. cbn [Tile.x Tile.y].
      rewrite decide_True by reflexivity.
      change (cellAt (registered ?o0 ?s0)) with (cellAt s). now rewrite Hc. }
    destruct HO' as (_ & _ & _ & Ho').
    rewrite (paintOrder_ordered s' x y _ Ho' Hcell). cbn [Cell.tiles].
    assert (Hza : forall b, b ∈ Cell.tiles c -> zIndexOf (heap X) b = zIndexOf (heap s) b).
    { intros b Hb. change (heap X) with (heap s ++ [Tile.mk (now env (tileIdCounter s),
        tileIdCounter s) x y ch col bg (zIndexOf (heap s) a) p d]).
      apply zIndexOf_app. eapply Hv; eassumption. }
    apply precedes_insertByZ.
    + eapply zOrdered_ext; [|eapply Ho, Hc]. exact Hza.
    + exact Ha.
    + rewrite (Hza a Ha). unfold zIndexOf at 2.
      change (heap X) with (heap s ++ [Tile.mk (now env (tileIdCounter s),
        tileIdCounter s) x y ch col bg (zIndexOf (heap s) a) p d]).
      rewrite lookup_app_r by lia. rewrite Nat.sub_diag. cbn. lia.
  - intros id r o Hid Hr Hne Hz [c0 Hc0].
    set (s' := exec (moveTile id x y) s).
    assert (HO' : orderInv s')
      by (apply (keepsOrder_keeps env (MoveTile id x y) eq_refl s HO)).
    destruct (cellAt_nonneg _ _ _ _ Hc0) as [Hx0 Hy0].
    pose proof (moveTile_effect s id r o x y c0 Hid Hr Hin (ex_intro _ c Hc) Hc0) as E.
    cbn zeta in E.
    match type of E with _ = renderIfAuto ?X0 =>
      set (X := X0) in E;
      assert (Hout : outputOnly X s')
        by (unfold s', exec; rewrite E; apply quiet_renderIfAuto) end.
    set (l := if decide ((x, y) = (Tile.x o, Tile.y o))
              then withoutId (heap s) id (Cell.tiles c) else Cell.tiles c).
    assert (Hcell : cellAt s' x y
              = Some (Cell.mk (Cell.overlay c)
                        (insertByZ (<[r := setPosition o x y]> (heap s)) r l) true)).
    { rewrite (cellAt_outputOnly X s' x y Hout). unfold X.
      rewrite cellAt_inserted by assumption. cbn [setPosition Tile.x Tile.y].
      rewrite decide_True by reflexivity.
      change (cellAt (stored ?a0 ?b0 ?s0)) with (cellAt s0).
      rewrite cellAt_removed by assumption.
      change (cellAt (logged ?a0 ?b0 ?s0)) with (cellAt s0).
      unfold l. destruct (decide ((x, y) = (Tile.x o, Tile.y o))) as [Exy|Exy].
      - injection Exy as <- <-. now rewrite Hc.
      - now rewrite Hc. }
    assert (Hal : a ∈ l /\ zOrdered (heap s) l).
    { unfold l. destruct (decide _); [|split; [exact Ha | eapply Ho, Hc]].
      split; [|apply zOrdered_filter; eapply Ho, Hc].
      apply list_elem_of_filter. split; [|exact Ha].
      rewrite (idOf_indexed s ida a Hi Hida). intros [= ->].
      apply Hne. congruence. }
    destruct Hal as [Hal Hol].
    destruct HO' as (_ & _ & _ & Ho').
    rewrite (paintOrder_ordered s' x y _ Ho' Hcell). cbn [Cell.tiles].
    assert (Hzs : forall b, zIndexOf (<[r := setPosition o x y]> (heap s)) b
                            = zIndexOf (heap s) b)
      by (intros b; now apply zIndexOf_insert with (o := o)).
    apply precedes_insertByZ.
    + eapply zOrdered_ext; [|exact Hol]. intros b _. apply Hzs.
    + exact Hal.
    + rewrite !Hzs. unfold zIndexOf at 2. rewrite Hr. lia.
  - intros b ops Hne Hb Hops s' Has' Hbs' Hz.
    assert (Hs : aheadOf x y a b ida s).
    { split; [exact HO|]. split; [now apply idOf_indexed|].
      split; [apply (Hi ida a Hida)|].
      intros c0 Hc0 Hp. rewrite Hc in Hc0. injection Hc0 as <-. contradiction. }
    destruct (runOps_aheadOf env x y a b ida ops s Hops Hs)
      as ((_ & _ & _ & Ho') & _ & _ & Hahead).
    fold s' in Ho', Hahead.
    unfold paintOrder in *. destruct (cellAt s' x y) as [c'|] eqn:Hc'; [|inversion Has'].
    rewrite (sortByZ_ordered _ _ (Ho' _ _ _ Hc')) in *.
    assert (Hnot : ~ precedes b a (Cell.tiles c')).
    { intros Hp. specialize (Hahead c' eq_refl Hp). lia. }
    split; [|exact Hnot].
    destruct (precedes_total a b (Cell.tiles c') Has' Hbs') as [H|H];
      [congruence | exact H | contradiction].
Qed.

(** Tile [a] is in the cell (0,0); tiles [b] and [c] are created there with
    the same z-index and [b] is moved to its own position: [a] is still
    painted before [b]. *)
Lemma equal_z_painted_in_insertion_order_witness :
  let s := exec (perform demoEnv (CreateTile 0 0 "a" white black 1 1 BOTTOM)) demo in
  let s' := runOps demoEnv [CreateTile 0 0 "b" white black 1 1 BOTTOM;
                            CreateTile 0 0 "c" white black 1 1 BOTTOM;
                            MoveTile (demoId 1) 0 0] s in
  precedes 0%nat 1%nat (paintOrder s' 0 0) /\ ~ precedes 1%nat 0%nat (paintOrder s' 0 0).
Proof.
  intros s s'.
  destruct (equal_z_painted_in_insertion_order demoEnv demoConfig s 0 0
              (Cell.mk transparent [0%nat] true) 0%nat (demoId 0)) as (_ & _ & H).
  - apply reach_step; [apply reach_new | reflexivity].
  - vm_compute. reflexivity.
  - apply list_elem_of_here.
  - vm_compute. reflexivity.
  - apply (H 1%nat [CreateTile 0 0 "b" white black 1 1 BOTTOM;
                    CreateTile 0 0 "c" white black 1 1 BOTTOM;
                    MoveTile (demoId 1) 0 0]).
    + discriminate.
    + intros Hp. apply precedes_elem in Hp as [Hp _].
      apply list_elem_of_singleton in Hp. discriminate.
    + apply Forall_forall. intros op Hop. apply list_elem_of_In in Hop.
      destruct Hop as [<-|[<-|[<-|[]]]]; (split; [reflexivity|]);
        intros Hin; apply list_elem_of_In in Hin; vm_compute in Hin;
        [exact Hin | exact Hin | destruct Hin as [Hin|Hin]; [discriminate | exact Hin]].
    + apply list_elem_of_In. vm_compute. tauto.
    + apply list_elem_of_In. vm_compute. tauto.
    + vm_compute. reflexivity.
Defined.



(** * Word wrap *)




(** * Further properties of the engine *)

(** ** Invariants shown method by method *)

Lemma keeps_modify I f : (forall s, I s -> I (f s)) -> keeps I (modify f).
Proof. intros Hf s Hs. apply Hf, Hs. Qed.

Lemma keeps_deref I r : keeps I (deref r).
Proof. intros s Hs. unfold exec, deref. now destruct (heap s !! r). Qed.

Lemma keeps_alloc I o :
  (forall s, I s -> I (with_heap (heap s ++ [o]) s)) -> keeps I (alloc o).
Proof. intros Hf s Hs. apply Hf, Hs. Qed.

Lemma keeps_generateTileId I env :
  (forall s, I s -> I (with_tileIdCounter (S (tileIdCounter s)) s)) ->
  keeps I (generateTileId env).
Proof. intros Hf s Hs. apply Hf, Hs. Qed.

(** One step through the structure of a method: [special] is tried
    first, [leaf] closes the goals about a single assignment. *)
Ltac head_of m :=
  lazymatch m with
  | ?f _ => head_of f
  | _ => m
  end.

Ltac keeps_step special leaf :=
  cbv beta zeta;
  first
  [ special
  | lazymatch goal with
    | |- keeps _ (ret _) => apply keeps_ret
    | |- keeps _ (throw _) => apply keeps_throw
    | |- keeps _ (bind get _) => apply keeps_get_bind_all; intros ?
    | |- keeps _ (bind _ _) => apply keeps_bind; [|intros ?]
    | |- keeps _ (forEach _ _) => apply keeps_forEach; intros ?
    | |- keeps _ (foldM _ _ _) => apply keeps_foldM; intros ? ?
    | |- keeps _ (modify _) => apply keeps_modify; intros ? ?; leaf
    | |- keeps _ (deref _) => apply keeps_deref
    | |- keeps _ (alloc _) => apply keeps_alloc; intros ? ?; leaf
    | |- keeps _ (generateTileId _) => apply keeps_generateTileId; intros ? ?; leaf
    | |- keeps _ (match ?x with _ => _ end) => destruct x
    | |- keeps _ ((match ?x with _ => _ end) _) => destruct x
    | |- keeps _ (if ?b then _ else _) => destruct b
    | |- keeps _ ?m => let h := head_of m in unfold h
    end ].

Ltac keeps_auto special leaf := repeat keeps_step special leaf.

Lemma keeps_frame env F op : keeps (fun s => frame s = F) (perform env op).
Proof. destruct op; cbn [perform]; keeps_auto fail ltac:(assumption). Qed.

(** With auto-render off the render step of an operation does nothing. *)
Lemma keeps_pending_renderIfAuto out k : keeps (pending out k) renderIfAuto.
Proof.
  intros s Hs. unfold exec. rewrite renderIfAuto_off; [exact Hs | apply Hs].
Qed.

Ltac pending_leaf :=
  idtac;
  lazymatch goal with
  | H : pending _ ?k _ |- pending _ _ _ =>
      destruct H as (Ha & Ho & Hk);
      split; [exact Ha | split; [exact Ho |]];
      destruct k; [|exact I];
      first [ exact Hk
            | cbn [dirtyRects with_dirtyRects]; apply elem_of_addKey; left; exact Hk ]
  end.

Lemma keeps_pending env out k op :
  paints op = false -> keeps (pending out k) (perform env op).
Proof.
  destruct op; cbn [paints perform]; intros Hop; try discriminate;
    keeps_auto ltac:(apply keeps_pending_renderIfAuto) pending_leaf.
Qed.

(** [this.log] writes a message only if the log level admits it. *)
Lemma keeps_loggedUpTo_emit lvl before l m :
  0 < levelNumber l -> keeps (loggedUpTo lvl before) (emit l m).
Proof.
  intros Hpos s (Hl & msgs & Hc & Hm). split; [exact Hl|]. cbn.
  destruct (Z.geb_spec (levelNumber (logLevel s)) (levelNumber l)) as [Hge|Hlt].
  - exists (msgs ++ [(l, m)]). rewrite Hc, app_assoc. split; [reflexivity|].
    apply Forall_app. split; [exact Hm|]. constructor; [|constructor].
    cbn. rewrite <- Hl. lia.
  - exists msgs. split; assumption.
Qed.

Lemma keeps_loggedUpTo env lvl before op :
  isSetLogLevel op = false -> keeps (loggedUpTo lvl before) (perform env op).
Proof.
  destruct op; cbn [isSetLogLevel perform]; intros Hop; try discriminate;
    keeps_auto ltac:(apply keeps_loggedUpTo_emit; cbn; lia) ltac:(assumption).
Qed.

Lemma keeps_counterFrom env n op : keeps (counterFrom n) (perform env op).
Proof.
  destruct op; cbn [perform];
    keeps_auto fail ltac:(first [assumption | unfold counterFrom in *; cbn; lia]).
Qed.

(** ** The grid and the tile index under every operation *)

Lemma indexSound_counter s :
  indexSound s -> indexSound (with_tileIdCounter (S (tileIdCounter s)) s).
Proof. intros Hs id r Hid. destruct (Hs id r Hid) as [Ho Hn]. split; [exact Ho|]. cbn. lia. Qed.

Lemma indexSound_alloc s o : indexSound s -> indexSound (with_heap (heap s ++ [o]) s).
Proof.
  intros Hs id r Hid. destruct (Hs id r Hid) as [(o' & Hr & Ho') Hn]. split; [|exact Hn].
  exists o'. split; [|exact Ho']. cbn. now apply lookup_app_l_Some.
Qed.

Ltac storeSound_leaf :=
  idtac;
  lazymatch goal with
  | H : storeSound _ |- storeSound _ =>
      destruct H as [Hg Hi]; split;
      [ first [exact Hg | apply gridShaped_updateCell; exact Hg]
      | first [exact Hi | apply indexSound_counter; exact Hi
              | apply indexSound_alloc; exact Hi] ]
  end.

Lemma storeSound_store s s' : sameStore s s' -> storeSound s -> storeSound s'.
Proof.
  intros H [Hg Hi]. split; [eapply gridShaped_store | eapply indexSound_store]; eassumption.
Qed.

Lemma keeps_storeSound env op : keeps storeSound (perform env op).
Proof.
  destruct (gentle (fun _ => true) op) eqn:Hop.
  - revert Hop. apply gentle_keeps.
    + now intros s [? _].
    + now intros s [_ ?].
    + apply storeSound_store.
    + intros s x y ch col bg z p d [Hg Hi] o s0.
      assert (H0 : storeSound s0) by (split; [exact Hg | now apply indexSound_registered]).
      destruct (insideWorld s x y); [|exact H0]. destruct H0 as [Hg0 Hi0].
      split; [now apply gridShaped_inserted | exact Hi0].
    + intros s id r o nx ny c [Hg Hi] Hid Hr _ _. split.
      * apply gridShaped_inserted. apply (gridShaped_removed s id (Tile.x o) (Tile.y o)) in Hg.
        exact Hg.
      * apply (indexSound_stored (removed id (Tile.x o) (Tile.y o) s) r o); auto.
    + intros s id r o c [Hg Hi] _ _ _. split.
      * now apply (gridShaped_removed s id (Tile.x o) (Tile.y o)) in Hg.
      * apply (indexSound_delete (removed id (Tile.x o) (Tile.y o) s) id). exact Hi.
    + intros s id r o u _ [Hg Hi] _ Hr. split; [exact Hg|].
      apply (indexSound_stored s r o); auto using assign_id.
    + intros s x y f _ [Hg Hi]. split; [now apply gridShaped_updateCell | exact Hi].
  - destruct op; cbn [gentle] in Hop; try discriminate; cbn [perform];
      keeps_auto fail storeSound_leaf.
Qed.

Lemma storeSound_reachable env options s :
  reachable env options anyOp s -> storeSound s.
Proof.
  induction 1 as [|s op _ IH _].
  - split; [apply gridShaped_new | apply indexSound_new].
  - now apply keeps_storeSound.
Qed.

Lemma frame_reachable env options s :
  reachable env options anyOp s -> frame s = frame (newDisplay env options).
Proof.
  induction 1 as [|s op _ IH _]; [reflexivity|].
  now apply (keeps_frame env _ op).
Qed.

Lemma reachable_runOps env options allowed ops :
  forallb allowed ops = true ->
  reachable env options allowed (runOps env ops (newDisplay env options)).
Proof.
  unfold runOps. generalize (reach_new env options allowed).
  generalize (newDisplay env options).
  induction ops as [|op ops IH]; intros s Hs Hall; [exact Hs|].
  cbn in Hall. apply andb_true_iff in Hall as [Hop Hall]. cbn.
  apply IH; [|exact Hall]. now apply reach_step.
Qed.

(** X1: on every state reached from a freshly constructed engine by any
    sequence of public operations, returned or thrown, [this.cells[y][x]]
    is a cell exactly for the coordinates inside the world, and the size of
    the world, of the viewport and of a cell are those of the
    construction. *)
Theorem grid_kept_by_every_operation env options s :
  reachable env options anyOp s ->
  (forall x y, is_Some (cellAt s x y) <-> insideWorld s x y = true)
  /\ worldWidth s = Config.worldWidth options
  /\ worldHeight s = Config.worldHeight options
  /\ Viewport.width (viewport s) = Config.viewportWidth options
  /\ Viewport.height (viewport s) = Config.viewportHeight options
  /\ cellSize s = cellSize (newDisplay env options).
Proof.
  intros Hs. pose proof (frame_reachable env options s Hs) as Hf.
  destruct (storeSound_reachable env options s Hs) as [Hg _].
  injection Hf as Hw Hh Hvw Hvh _ _ _ _ Hcs.
  split; [intros x y; now apply gridShaped_cellAt|]. auto.
Qed.

Lemma grid_kept_by_every_operation_witness :
  let s := runOps demoEnv mixedOps demo in
  (forall x y, is_Some (cellAt s x y) <-> insideWorld s x y = true)
  /\ worldWidth s = 10 /\ worldHeight s = 10.
Proof.
  intros s.
  destruct (grid_kept_by_every_operation demoEnv demoConfig s) as (H & Hw & Hh & _).
  - apply reachable_runOps. reflexivity.
  - exact (conj H (conj Hw Hh)).
Defined.

(** X2: on every state reached by any sequence of public operations, a
    tile found under an id carries that id and a counter below the id
    counter; the id [createTile] returns is the pair of the clock and the
    id counter and is not in the tile index; and no operation lowers the id
    counter.  So an id is never handed out twice, also after
    [removeTile]. *)
Theorem tile_ids_never_reused env options s :
  reachable env options anyOp s ->
  (forall id o, getTile id s = Some o -> Tile.id o = id /\ (snd id < tileIdCounter s)%nat)
  /\ (forall x y ch col bg z p d id,
        result (createTile env x y ch col bg z p d) s = Ok id ->
        id = (now env (tileIdCounter s), tileIdCounter s) /\ getTile id s = None)
  /\ (forall op, (tileIdCounter s <= tileIdCounter (exec (perform env op) s))%nat).
Proof.
  intros Hs. destruct (storeSound_reachable env options s Hs) as [Hg Hi].
  split; [|split].
  - intros id o Hget. unfold getTile in Hget.
    destruct (tileMap s !! id) as [r|] eqn:Hid; [|discriminate].
    destruct (Hi id r Hid) as [(o' & Hr & Ho') Hn]. split; [congruence | exact Hn].
  - intros x y ch col bg z p d id Hres. unfold result in Hres.
    rewrite createTile_effect in Hres
      by (intros Hin; now apply gridShaped_cellAt).
    cbn zeta in Hres. unfold bind in Hres.
    destruct (renderIfAuto _) as [[[]|e] s1]; [|discriminate].
    cbn in Hres. injection Hres as <-. split; [reflexivity|].
    unfold getTile.
    destruct (tileMap s !! _) as [r|] eqn:Hid; [|reflexivity].
    destruct (Hi _ r Hid) as [_ Hn]. cbn in Hn. lia.
  - intros op. apply (keeps_counterFrom env (tileIdCounter s) op s). unfold counterFrom. lia.
Qed.

Lemma tile_ids_never_reused_witness :
  let s := runOps demoEnv mixedOps demo in
  (tileIdCounter s <= tileIdCounter (exec (perform demoEnv (RemoveTile (demoId 0))) s))%nat.
Proof.
  intros s.
  destruct (tile_ids_never_reused demoEnv demoConfig s) as (_ & _ & H).
  - apply reachable_runOps. reflexivity.
  - exact (H (RemoveTile (demoId 0))).
Defined.

(** X3: while auto-render is off, an operation other than [render],
    [clear] and [setAutoRender] issues no canvas call and leaves the
    metrics and the auto-render flag alone, and every key of the dirty set
    stays in it: the changes wait for the next [render]. *)
Theorem nothing_painted_while_auto_render_is_off env s op :
  autoRender s = false -> paints op = false ->
  let s' := exec (perform env op) s in
  autoRender s' = false
  /\ worldCtx s' = worldCtx s /\ displayCtx s' = displayCtx s /\ metrics s' = metrics s
  /\ (forall k, k ∈ dirtyRects s -> k ∈ dirtyRects s').
Proof.
  intros Hoff Hop s'.
  assert (H : forall k, match k with Some k => k ∈ dirtyRects s | None => True end ->
                        pending (output s) k s')
    by (intros k Hk; apply (keeps_pending env (output s) k op Hop); repeat split; assumption).
  destruct (H None I) as (Ha & Ho & _). injection Ho as Hw Hd Hm.
  repeat split; try assumption.
  intros k Hk. exact (proj2 (proj2 (H (Some k) Hk))).
Qed.

Lemma nothing_painted_while_auto_render_is_off_witness :
  let s := exec (setAutoRender false) demo in
  let s' := exec (perform demoEnv (CreateTile 0 0 "@" white black 1 1 BOTTOM)) s in
  worldCtx s' = worldCtx s /\ displayCtx s' = displayCtx s.
Proof.
  intros s s'.
  destruct (nothing_painted_while_auto_render_is_off demoEnv s
              (CreateTile 0 0 "@" white black 1 1 BOTTOM)) as (_ & Hw & Hd & _).
  - reflexivity.
  - reflexivity.
  - exact (conj Hw Hd).
Defined.

(** X4: an operation other than [setLogLevel] leaves the log level alone
    and only appends to the console, and every message it appends has a
    level between [ERROR] and the log level; at level [NONE] the console
    stays as it is. *)
Theorem console_respects_log_level env s op :
  isSetLogLevel op = false ->
  let s' := exec (perform env op) s in
  logLevel s' = logLevel s
  /\ (exists msgs, console s' = console s ++ msgs
        /\ Forall (fun e => 0 < levelNumber (fst e) <= levelNumber (logLevel s)) msgs)
  /\ (logLevel s = NONE -> console s' = console s).
Proof.
  intros Hop s'.
  destruct (keeps_loggedUpTo env (logLevel s) (console s) op Hop s) as (Hl & msgs & Hc & Hm).
  { split; [reflexivity|]. exists []. split; [now rewrite app_nil_r | constructor]. }
  split; [exact Hl|]. split; [exists msgs; split; assumption|].
  intros Hnone. fold s' in Hc. rewrite Hc. rewrite Hnone in Hm.
  destruct msgs as [|e msgs]; [now rewrite app_nil_r|].
  apply Forall_cons in Hm as [He _]. cbn in He. lia.
Qed.

Lemma console_respects_log_level_witness :
  let s' := exec (perform demoEnv (MoveTile (demoId 7) 0 0)) demo in
  logLevel s' = logLevel demo.
Proof.
  intros s'.
  destruct (console_respects_log_level demoEnv demo (MoveTile (demoId 7) 0 0)) as (H & _).
  - reflexivity.
  - exact H.
Defined.

(** ** The render pass *)

Lemma exec_eq {A} (m : M A) s r s' : m s = (r, s') -> exec m s = s'.
Proof. intros E. unfold exec. now rewrite E. Qed.

Lemma keeps_metrics_renderCell m cell x y :
  keeps (fun s => metrics s = m) (renderCell cell x y).
Proof. keeps_auto fail ltac:(assumption). Qed.

Lemma keeps_dirtyRects_renderCell d cell x y :
  keeps (fun s => dirtyRects s = d) (renderCell cell x y).
Proof. keeps_auto fail ltac:(assumption). Qed.

Lemma render_clears_dirty_set_aux s :
  wellFormed s -> exists s', render s = (Ok tt, s') /\ wellFormed s'.
Proof.
  intros Hwf. pose proof Hwf as (Hg & Hv & Hd & Hi).
  destruct (render_ok s Hg Hv Hd) as (s' & E & Ho & Hd').
  exists s'. split; [exact E|].
  apply (wellFormed_outputOnly s s' Ho); [|exact Hwf].
  unfold dirtyInside. rewrite Hd'. constructor.
Qed.



(** A loop throws if one of its rounds does and the rounds before it
    return or throw the same. *)
Lemma forEach_throw {A} (P : MatrixDisplay -> Prop) (l : list A) (f : A -> M unit) e a0 s :
  (forall a s, a ∈ l -> P s ->
               exists r s', f a s = (r, s') /\ P s' /\ (r = Ok tt \/ r = Throw e)) ->
  a0 ∈ l ->
  (forall s, P s -> exists s', f a0 s = (Throw e, s') /\ P s') ->
  P s -> exists s', forEach l f s = (Throw e, s') /\ P s'.
Proof.
  intros Hf Ha0 Hthrow. revert s. induction l as [|a l IH]; intros s Hs.
  { inversion Ha0. }
  cbn [forEach].
  destruct (Hf a s (list_elem_of_here _ _) Hs) as (r & s1 & E1 & H1 & [-> | ->]).
  - apply elem_of_cons in Ha0 as [<-|Ha0].
    + destruct (Hthrow s Hs) as (s' & E' & _). congruence.
    + rewrite (bind_ok _ _ _ _ _ E1). apply IH; [|exact Ha0|exact H1].
      intros b s' Hb. apply Hf. now apply list_elem_of_further.
  - exists s1. split; [|exact H1]. now rewrite (bind_throw _ _ _ _ _ E1).
Qed.

(** The cell a key names, as the render pass looks it up. *)
Lemma keyInside_item s k :
  gridShaped s ->
  keyInside s k = false ->
  match item (cells s) (snd k) with
  | Some row => item row (fst k) = None
  | None => True
  end.
Proof.
  intros Hg Hk. destruct k as [kx ky]. cbn [fst snd].
  destruct (item (cells s) ky) as [row|] eqn:Erow; [|exact I].
  destruct (item row kx) as [c|] eqn:Ec; [|reflexivity].
  destruct kx as [x| | | |], ky as [y| | | |]; try discriminate.
  cbn [item] in *. cbn in Hk.
  rewrite (proj1 (gridShaped_cellAt s x y Hg)) in Hk; [discriminate|].
  exists c. unfold cellAt. now rewrite Erow.
Qed.

(** A render pass stops at a dirty key that names no cell. *)
Lemma render_stops s k :
  gridShaped s -> refsValid s ->
  k ∈ dirtyRects s -> keyInside s k = false ->
  exists s', render s = (Throw TypeError, s')
             /\ outputOnly s s' /\ dirtyRects s' = dirtyRects s.
Proof.
  intros Hg Hv Hk Hout. unfold render.
  unfold bind at 1. cbn [get].
  unfold bind at 1. cbn [log_verbose emit modify].
  destruct (dirtyRects s) as [|k0 d] eqn:Ed; [inversion Hk|]. cbn [length Nat.eqb].
  unfold bind at 1. cbn [modify].
  unfold bind at 1. cbn [log_debug emit modify].
  set (s1 := with_console _ _).
  set (P := fun s' => outputOnly s s' /\ dirtyRects s' = k0 :: d).
  assert (H1 : P s1) by (split; [repeat split | exact Ed]).
  match goal with |- context [forEach _ ?f] => set (body := f) end.
  assert (Hcell : forall key s', P s' ->
            exists r s'', body key s' = (r, s'') /\ P s''
                          /\ (if keyInside s key then r = Ok tt
                              else r = Throw TypeError)).
  { intros key s' [Hs' Hd']. unfold body. unfold bind at 1. cbn [get].
    assert (Hcells : cells s' = cells s) by apply Hs'. rewrite Hcells.
    destruct (keyInside s key) eqn:Hin.
    - apply keyInside_spec in Hin as (kx & ky & -> & Hin).
      apply (gridShaped_cellAt s _ _ Hg) in Hin as [c Hc].
      unfold cellAt in Hc. cbn [fst snd cellKey item].
      destruct (index (cells s) ky) as [row|] eqn:Erow; [|discriminate].
      rewrite Hc.
      pose proof (keeps_dirtyRects_renderCell (k0 :: d) (Some c) (Int kx) (Int ky) s' Hd')
        as Hkeep.
      destruct (renderCell_ok s c (Int kx) (Int ky) s' Hs') as (s'' & E & Ho).
      { intros r Hr. apply (Hv kx ky c r); [|exact Hr].
        unfold cellAt. rewrite Erow. exact Hc. }
      exists (Ok tt), s''. rewrite (exec_eq _ _ _ _ E) in Hkeep.
      split; [exact E|]. split; [split; assumption | reflexivity].
    - pose proof (keyInside_item s key Hg Hin) as Hitem.
      destruct (item (cells s) (snd key)) as [row|] eqn:Erow.
      + rewrite Hitem.
        pose proof (keeps_dirtyRects_renderCell (k0 :: d) None (fst key) (snd key) s' Hd')
          as Hkeep.
        unfold renderCell in *. unfold bind at 1 in Hkeep. unfold bind at 1.
        cbn [get] in *. unfold bind at 1 in Hkeep. unfold bind at 1.
        cbn [draw modify throw] in *. eexists _, _. split; [reflexivity|].
        split; [|reflexivity]. split; [|exact Hkeep].
        eapply outputOnly_trans; [exact Hs'|]. repeat split.
      + exists (Throw TypeError), s'. split; [reflexivity|]. split; [split; assumption|].
        reflexivity. }
  destruct (forEach_throw P (k0 :: d) body TypeError k s1) as (s2 & E2 & Ho2 & Hd2);
    [| exact Hk | | exact H1 |].
  - intros key s' _ Hs'. destruct (Hcell key s' Hs') as (r & s'' & E & HP & Hr).
    exists r, s''. split; [exact E|]. split; [exact HP|].
    destruct (keyInside s key); auto.
  - intros s' Hs'. destruct (Hcell k s' Hs') as (r & s'' & E & HP & Hr).
    rewrite Hout in Hr. subst r. exists s''. split; assumption.
  - rewrite (bind_throw _ _ _ _ _ E2). exists s2. split; [reflexivity|].
    split; assumption.
Qed.

(** X6: when a key of the dirty set names no cell of the grid, [render]
    throws a [TypeError] out of the cell loop, before the dirty set is
    cleared: the grid, the tiles and the dirty set are as before, so the
    next [render] throws again. *)
Theorem render_throws_on_dirty_key_outside s k :
  gridShaped s -> refsValid s ->
  k ∈ dirtyRects s -> keyInside s k = false ->
  result render s = Throw TypeError
  /\ outputOnly s (exec render s)
  /\ dirtyRects (exec render s) = dirtyRects s
  /\ result render (exec render s) = Throw TypeError.
Proof.
  intros Hg Hv Hk Hout.
  destruct (render_stops s k Hg Hv Hk Hout) as (s' & E & Ho & Hd).
  unfold result, exec. rewrite E. cbn [fst snd].
  split; [reflexivity|]. split; [exact Ho|]. split; [exact Hd|].
  destruct (render_stops s' k) as (s'' & E' & _).
  - eapply gridShaped_store; [apply outputOnly_sameStore, Ho | exact Hg].
  - eapply refsValid_store; [apply outputOnly_sameStore, Ho | exact Hv].
  - now rewrite Hd.
  - rewrite (keyInside_frame s s' k); [exact Hout | apply Ho | apply Ho].
  - now rewrite E'.
Qed.

Lemma render_throws_on_dirty_key_outside_witness :
  let s := exec (setViewport 0 0) (newDisplay demoEnv narrowConfig) in
  result render s = Throw TypeError.
Proof.
  intros s.
  refine (proj1 (render_throws_on_dirty_key_outside s (cellKey 3 0) _ _ _ _)).
  - apply (keeps_storeSound demoEnv (SetViewport 0 0)).
    split; [apply gridShaped_new | apply indexSound_new].
  - intros x y c r Hc Hr.
    assert (Hcells : cells s = cells (newDisplay demoEnv narrowConfig))
      by (vm_compute; reflexivity).
    unfold cellAt in Hc. rewrite Hcells in Hc.
    apply (cellAt_new demoEnv narrowConfig x y c) in Hc.
    subst c. inversion Hr.
  - vm_compute. apply list_elem_of_further, list_elem_of_further, list_elem_of_further,
      list_elem_of_here.
  - reflexivity.
Defined.

Lemma refsValid_new env options : refsValid (newDisplay env options).
Proof. apply wellFormed_new. Qed.

Lemma setViewport_stops s x y :
  gridShaped s -> refsValid s -> wholeCells s -> autoRender s = true ->
  0 < Viewport.width (viewport s) -> 0 < Viewport.height (viewport s) ->
  worldWidth s < Viewport.width (viewport s)
  \/ worldHeight s < Viewport.height (viewport s) ->
  exists s', setViewport x y s = (Throw TypeError, s')
             /\ gridShaped s' /\ refsValid s'
             /\ exists k, k ∈ dirtyRects s' /\ keyInside s' k = false.
Proof.
  intros Hg Hv [Ew Eh] Ha Hvw Hvh Hbig. rewrite setViewport_effect. cbn zeta.
  rewrite Ew, Eh.
  set (cx := Z.max 0 (Z.min x (worldWidth s - Viewport.width (viewport s)))).
  set (cy := Z.max 0 (Z.min y (worldHeight s - Viewport.height (viewport s)))).
  change (Math.max (Int 0) (Math.min (Int x) (Int (worldWidth s)
            - Int (Viewport.width (viewport s)))))%num with (Int cx).
  change (Math.max (Int 0) (Math.min (Int y) (Int (worldHeight s)
            - Int (Viewport.height (viewport s)))))%num with (Int cy).
  set (X := with_dirtyRects _ _).
  assert (HgX : gridShaped X) by exact Hg.
  assert (HvX : refsValid X) by exact Hv.
  assert (Hkey : exists k, inRectangle cx cy (Viewport.width (viewport s))
                             (Viewport.height (viewport s)) k
                           /\ keyInside s k = false).
  { destruct Hbig as [Hw|Hh].
    - exists (cellKey (cx + Viewport.width (viewport s) - 1) cy). split.
      + eexists _, _. split; [reflexivity|]. lia.
      + cbn. destruct (insideWorld s _ _) eqn:Hin; [|reflexivity].
        apply insideWorld_spec in Hin. lia.
    - exists (cellKey cx (cy + Viewport.height (viewport s) - 1)). split.
      + eexists _, _. split; [reflexivity|]. lia.
      + cbn. destruct (insideWorld s _ _) eqn:Hin; [|reflexivity].
        apply insideWorld_spec in Hin. lia. }
  destruct Hkey as (k & Hk & Hout).
  assert (HkX : k ∈ dirtyRects X).
  { unfold X. cbn [dirtyRects with_dirtyRects]. apply elem_of_addKeys. right.
    now apply elem_of_viewportKeys. }
  destruct (render_stops X k HgX HvX HkX Hout) as (s' & E & Ho & Hd).
  exists s'. split.
  - unfold renderIfAuto, bind, get. change (autoRender X) with (autoRender s).
    rewrite Ha. exact E.
  - split; [eapply gridShaped_store; [apply outputOnly_sameStore, Ho | exact HgX]|].
    split; [eapply refsValid_store; [apply outputOnly_sameStore, Ho | exact HvX]|].
    exists k. split; [now rewrite Hd|].
    rewrite (keyInside_frame X s' k); [exact Hout | apply Ho | apply Ho].
Qed.

(** X7: on an engine whose viewport is wider or higher than its world,
    [setViewport] with auto-render on throws a [TypeError] for every
    argument: the viewport rectangle it marks dirty reaches beyond the
    grid.  The dirty set keeps a key outside the grid, so [render] throws
    from then on. *)
Theorem setViewport_throws_when_viewport_exceeds_world s x y :
  gridShaped s -> refsValid s -> wholeCells s -> autoRender s = true ->
  0 < Viewport.width (viewport s) -> 0 < Viewport.height (viewport s) ->
  worldWidth s < Viewport.width (viewport s)
  \/ worldHeight s < Viewport.height (viewport s) ->
  result (setViewport x y) s = Throw TypeError
  /\ result render (exec (setViewport x y) s) = Throw TypeError.
Proof.
  intros Hg Hv Hc Ha Hvw Hvh Hbig.
  destruct (setViewport_stops s x y Hg Hv Hc Ha Hvw Hvh Hbig)
    as (s' & E & Hg' & Hv' & k & Hk & Hout).
  unfold result, exec. rewrite E. cbn [fst snd]. split; [reflexivity|].
  destruct (render_stops s' k Hg' Hv' Hk Hout) as (s'' & E' & _). now rewrite E'.
Qed.

Lemma setViewport_throws_when_viewport_exceeds_world_witness :
  result (setViewport 0 0) (newDisplay demoEnv narrowConfig) = Throw TypeError.
Proof.
  refine (proj1 (setViewport_throws_when_viewport_exceeds_world
                   (newDisplay demoEnv narrowConfig) 0 0 _ _ _ _ _ _ _)).
  - apply gridShaped_new.
  - apply refsValid_new.
  - split; vm_compute; reflexivity.
  - reflexivity.
  - reflexivity.
  - reflexivity.
  - left. reflexivity.
Defined.

(** ** Single operations on a well-formed engine *)

Lemma after_render X :
  wellFormed X ->
  exists s', renderIfAuto X = (Ok tt, s') /\ outputOnly X s' /\ wellFormed s'.
Proof.
  intros HX. pose proof HX as (Hg & Hv & Hd & Hi).
  destruct (renderIfAuto_ok X Hg Hv Hd) as (s' & E & Ho & Hd').
  exists s'. split; [exact E|]. split; [exact Ho|].
  now apply (wellFormed_outputOnly X).
Qed.

Lemma refsValid_retile s x y f :
  (forall c, Cell.tiles (f c) = Cell.tiles c) -> refsValid s -> refsValid (updateCell x y f s).
Proof.
  intros Hf Hs x' y' c' r Hc' Hr.
  destruct (cellAt_retile_inv _ _ _ _ _ _ _ Hf Hc') as (c & Hc & Ht).
  rewrite Ht in Hr. exact (Hs x' y' c r Hc Hr).
Qed.

Lemma wellFormed_flagged s x y :
  insideWorld s x y = true -> wellFormed s -> wellFormed (flagged x y s).
Proof.
  intros Hin (Hg & Hv & Hd & Hi). unfold flagged.
  split; [now apply gridShaped_updateCell|].
  split; [now apply refsValid_retile|].
  split; [|exact Hi].
  eapply (dirtyInside_addKey s); [reflexivity | reflexivity | reflexivity | exact Hin | exact Hd].
Qed.

Lemma wellFormed_stored s r o o' :
  heap s !! r = Some o -> Tile.id o' = Tile.id o -> wellFormed s -> wellFormed (stored r o' s).
Proof.
  intros Hr Hid (Hg & Hv & Hd & Hi).
  split; [exact Hg|]. split; [now apply refsValid_stored|]. split; [exact Hd|].
  now apply (indexSound_stored s r o).
Qed.


Lemma updateTile_then_getTile_aux s id r o u c :
  wellFormed s -> tileMap s !! id = Some r -> heap s !! r = Some o ->
  movesOrSets u = false -> cellAt s (Tile.x o) (Tile.y o) = Some c ->
  exists s', updateTile id u s = (Ok tt, s') /\ wellFormed s'.
Proof.
  intros Hwf Hid Hr Hu Hc. pose proof Hwf as (Hg & _).
  rewrite (updateTile_effect s id r o u c Hid Hr Hu Hc). cbn zeta.
  destruct (after_render (flagged (Tile.x o) (Tile.y o)
                            (stored r (assign o u) (logged VERBOSE (MsgUpdating id) s))))
    as (s' & E & _ & Hwf').
  { apply wellFormed_flagged; [apply (gridShaped_cellAt s _ _ Hg); eauto|].
    apply (wellFormed_stored _ r o); [exact Hr | apply assign_id | exact Hwf]. }
  exists s'. split; assumption.
Qed.







Lemma wellFormed_retiled s x y f :
  (forall c, Cell.tiles (f c) = Cell.tiles c) ->
  insideWorld s x y = true -> wellFormed s ->
  wellFormed (with_dirtyRects (addKey (cellKey x y) (dirtyRects s)) (updateCell x y f s)).
Proof.
  intros Hf Hin (Hg & Hv & Hd & Hi).
  split; [now apply gridShaped_updateCell|].
  split; [now apply refsValid_retile|].
  split; [|exact Hi].
  eapply (dirtyInside_addKey s); [reflexivity | reflexivity | reflexivity | exact Hin | exact Hd].
Qed.

Lemma setOverlay_sets_or_warns_run s x y color :
  wellFormed s ->
  exists s', setOverlay x y color s = (Ok tt, s')
    /\ tileMap s' = tileMap s /\ heap s' = heap s
    /\ (forall x' y', (x', y') <> (x, y) -> cellAt s' x' y' = cellAt s x' y')
    /\ (if insideWorld s x y
        then exists c, cellAt s x y = Some c
                       /\ cellAt s' x y = Some (Cell.mk color (Cell.tiles c) true)
        else s' = logged WARN (MsgOverlayOutside x y) s)
    /\ wellFormed s'.
Proof.
  intros Hwf. pose proof Hwf as (Hg & _).
  unfold setOverlay. unfold bind at 1. cbn [get].
  rewrite outsideWorld_inside. destruct (insideWorld s x y) eqn:Hin; cbn [negb].
  - destruct (proj2 (gridShaped_cellAt s _ _ Hg) Hin) as [c Hc]. rewrite Hc.
    destruct (inside_nonneg _ _ _ Hin) as [Hx Hy].
    unfold bind at 1. cbn [modify]. unfold bind at 1. cbn [addDirty addDirtyKey modify].
    set (f := fun cell => Cell.mk color (Cell.tiles cell) true).
    destruct (after_render (with_dirtyRects (addKey (cellKey x y) (dirtyRects (updateCell x y f s)))
                              (updateCell x y f s))) as (s' & E & Ho & Hwf').
    { now apply (wellFormed_retiled s x y f). }
    exists s'. split; [exact E|].
    pose proof Ho as (_ & _ & _ & _ & _ & _ & _ & _ & _ & Ehp & Et & _).
    split; [exact Et|]. split; [exact Ehp|]. split; [|split; [|exact Hwf']].
    + intros x' y' Hne. rewrite (cellAt_outputOnly _ s' x' y' Ho).
      change (cellAt (with_dirtyRects ?d ?s0)) with (cellAt s0).
      now apply cellAt_updateCell_other.
    + exists c. split; [reflexivity|]. rewrite (cellAt_outputOnly _ s' x y Ho).
      change (cellAt (with_dirtyRects ?d ?s0)) with (cellAt s0).
      now rewrite (cellAt_updateCell_same s x y f c Hc).
  - eexists. split; [reflexivity|]. cbn. split; [reflexivity|]. split; [reflexivity|].
    split; [reflexivity|]. split; [reflexivity | exact Hwf].
Qed.



(** ** Sweeps over the grid: [clear] and [clearOverlays] *)

Lemma swept_app f ks1 ks2 s : swept f (ks1 ++ ks2) s = swept f ks2 (swept f ks1 s).
Proof. apply foldl_app. Qed.

Lemma sweep_row f y xs s :
  forEach xs (fun x => run modify (updateCell x y f); addDirty x y) s
  = (Ok tt, swept f ((fun x => (x, y)) <$> xs) s).
Proof.
  revert s. induction xs as [|x xs IH]; intros s; [reflexivity|].
  cbn [forEach]. unfold bind at 1. unfold bind at 1. cbn [modify addDirty addDirtyKey].
  now rewrite IH.
Qed.

Lemma sweep_rows f (rows : list (Z * list Z)) s :
  forEach rows (fun '(y, xs) =>
     forEach xs (fun x => run modify (updateCell x y f); addDirty x y)) s
  = (Ok tt, swept f (yxs ← rows; (fun x => (x, fst yxs)) <$> snd yxs) s).
Proof.
  revert s. induction rows as [|[y xs] rows IH]; intros s; [reflexivity|].
  cbn [forEach]. unfold bind at 1. rewrite sweep_row.
  change (((y, xs) :: rows) ≫= ?G) with (G (y, xs) ++ (rows ≫= G)).
  rewrite swept_app. now rewrite IH.
Qed.

Lemma swept_store f keys s :
  sameStore (with_cells (cells s) s) (with_cells (cells s) (swept f keys s))
  /\ outputOnly (with_cells (cells (swept f keys s)) s) (swept f keys s)
  /\ dirtyRects (swept f keys s) = addKeys (cellKeys keys) (dirtyRects s)
  /\ console (swept f keys s) = console s
  /\ worldCtx (swept f keys s) = worldCtx s /\ displayCtx (swept f keys s) = displayCtx s
  /\ metrics (swept f keys s) = metrics s.
Proof.
  revert s. induction keys as [|k keys IH]; intros s.
  - repeat split.
  - change (swept f (k :: keys) s)
      with (swept f keys (with_dirtyRects (addKey (cellKey (fst k) (snd k)) (dirtyRects s))
                            (updateCell (fst k) (snd k) f s))).
    destruct (IH (with_dirtyRects (addKey (cellKey (fst k) (snd k)) (dirtyRects s))
                     (updateCell (fst k) (snd k) f s)))
      as (Hs & Ho & Hd & Hc & Hw & Hdc & Hm).
    split; [|split; [|split; [|split; [|split; [|split]]]]]; try assumption.
    destruct Hs as (_ & ? & ? & ? & ? & ?). repeat split; assumption.
Qed.

Lemma gridShaped_swept f keys s : gridShaped s -> gridShaped (swept f keys s).
Proof.
  revert s. induction keys as [|k keys IH]; intros s Hs; [exact Hs|].
  apply IH. now apply gridShaped_updateCell.
Qed.

Lemma cellAt_swept f keys s x y :
  (forall c, f (f c) = f c) ->
  Forall (fun k => 0 <= fst k /\ 0 <= snd k) keys ->
  cellAt (swept f keys s) x y
  = if decide ((x, y) ∈ keys) then f <$> cellAt s x y else cellAt s x y.
Proof.
  intros Hf. revert s. induction keys as [|[kx ky] keys IH]; intros s Hkeys.
  - rewrite decide_False by apply not_elem_of_nil. reflexivity.
  - apply Forall_cons in Hkeys as [[Hx Hy] Hkeys]. cbn [fst snd] in *.
    change (swept f ((kx, ky) :: keys) s)
      with (swept f keys (with_dirtyRects (addKey (cellKey kx ky) (dirtyRects s))
                            (updateCell kx ky f s))).
    rewrite IH by exact Hkeys.
    change (cellAt (with_dirtyRects ?d ?s0)) with (cellAt s0).
    rewrite cellAt_updateCell by assumption.
    destruct (decide ((x, y) = (kx, ky))) as [E|E].
    + injection E as -> ->.
      rewrite (decide_True (P := (kx, ky) ∈ (kx, ky) :: keys)) by apply list_elem_of_here.
      destruct (decide ((kx, ky) ∈ keys)); [|reflexivity].
      destruct (cellAt s kx ky); cbn; [|reflexivity]. now rewrite Hf.
    + destruct (decide ((x, y) ∈ keys)) as [Hin|Hin].
      * rewrite decide_True by now apply list_elem_of_further. reflexivity.
      * rewrite decide_False; [reflexivity|].
        intros H. apply elem_of_cons in H as [H|H]; [congruence | contradiction].
Qed.

Lemma elem_of_gridKeys s x y : (x, y) ∈ gridKeys (cells s) <-> is_Some (cellAt s x y).
Proof.
  unfold gridKeys. rewrite list_elem_of_bind. split.
  - intros ([y0 xs] & Hxy & Hrow). cbn [fst snd] in Hxy.
    apply list_elem_of_fmap in Hxy as (x0 & [= -> ->] & Hx0).
    apply list_elem_of_lookup in Hrow as (i & Hi).
    rewrite list_lookup_imap in Hi.
    destruct (cells s !! i) as [row|] eqn:Erow; [|discriminate].
    cbn in Hi. injection Hi as <- <-. apply elem_of_range in Hx0.
    destruct (lookup_lt_is_Some_2 row (Z.to_nat x0)) as [c Hc]; [lia|].
    exists c. apply cellAt_Some. exists row.
    rewrite Nat2Z.id. repeat split; try lia; assumption.
  - intros [c Hc]. apply cellAt_Some in Hc as (row & Hy & Hrow & Hx & Hc).
    exists (y, range (Z.of_nat (length row))). split.
    + cbn [fst snd]. apply list_elem_of_fmap. exists x. split; [reflexivity|].
      apply elem_of_range. apply lookup_lt_Some in Hc. lia.
    + apply list_elem_of_lookup. exists (Z.to_nat y).
      rewrite list_lookup_imap, Hrow. cbn. now rewrite Z2Nat.id.
Qed.

Lemma elem_of_cellKeys k ks :
  k ∈ cellKeys ks <-> exists x y, k = cellKey x y /\ (x, y) ∈ ks.
Proof.
  unfold cellKeys. rewrite list_elem_of_fmap. split.
  - intros ([x y] & -> & H). now exists x, y.
  - intros (x & y & -> & H). now exists (x, y).
Qed.

Lemma gridKeys_nonneg cs : Forall (fun k => 0 <= fst k /\ 0 <= snd k) (gridKeys cs).
Proof.
  apply Forall_forall. intros [x y] Hk. unfold gridKeys in Hk.
  apply list_elem_of_bind in Hk as ([y0 xs] & Hxy & Hrow). cbn [fst snd] in Hxy.
  apply list_elem_of_fmap in Hxy as (x0 & [= -> ->] & Hx0).
  apply list_elem_of_lookup in Hrow as (i & Hi).
  rewrite list_lookup_imap in Hi.
  destruct (cs !! i) as [row|]; [|discriminate]. cbn in Hi. injection Hi as <- <-.
  apply elem_of_range in Hx0. cbn. lia.
Qed.

(** The cells after a sweep of the whole grid. *)
Lemma cellAt_swept_grid f s x y :
  (forall c, f (f c) = f c) ->
  cellAt (swept f (gridKeys (cells s)) s) x y = f <$> cellAt s x y.
Proof.
  intros Hf. rewrite cellAt_swept by (exact Hf || apply gridKeys_nonneg).
  destruct (decide _) as [Hin|Hin]; [reflexivity|].
  destruct (cellAt s x y) as [c|] eqn:Hc; [|reflexivity].
  exfalso. apply Hin, elem_of_gridKeys. now exists c.
Qed.

Lemma wellFormed_swept f s :
  (forall c, f (f c) = f c) ->
  (forall c r, r ∈ Cell.tiles (f c) -> r ∈ Cell.tiles c) ->
  wellFormed s -> wellFormed (swept f (gridKeys (cells s)) s).
Proof.
  intros Hf Ht (Hg & Hv & Hd & Hi).
  destruct (swept_store f (gridKeys (cells s)) s) as (Hs & _ & Hdirty & _).
  destruct Hs as (_ & Hh & Htm & Hn & Hw & Hhh).
  set (s1 := swept f (gridKeys (cells s)) s) in *.
  change (heap s1 = heap s) in Hh. change (tileMap s1 = tileMap s) in Htm.
  change (tileIdCounter s1 = tileIdCounter s) in Hn.
  change (worldWidth s1 = worldWidth s) in Hw. change (worldHeight s1 = worldHeight s) in Hhh.
  split; [now apply gridShaped_swept|]. split; [|split].
  - intros x y c' r Hc' Hr. unfold s1 in Hc'. rewrite cellAt_swept_grid in Hc' by exact Hf.
    destruct (cellAt s x y) as [c|] eqn:Hc; [|discriminate].
    cbn in Hc'. injection Hc' as <-. rewrite Hh. eapply Hv; [exact Hc|]. now apply Ht.
  - unfold dirtyInside. rewrite Hdirty. apply Forall_forall. intros k Hk.
    rewrite (keyInside_frame s s1 k Hw Hhh).
    apply elem_of_addKeys in Hk as [Hk|Hk].
    + unfold dirtyInside in Hd. rewrite Forall_forall in Hd. exact (Hd _ Hk).
    + apply elem_of_cellKeys in Hk as (x & y & -> & Hk). cbn [keyInside cellKey].
      apply (gridShaped_cellAt s x y Hg). now apply elem_of_gridKeys.
  - unfold indexSound. rewrite Hh, Htm, Hn. exact Hi.
Qed.

Lemma clear_empties_cells_and_keeps_index_run s :
  wellFormed s ->
  exists s', clear s = (Ok tt, s')
    /\ (forall x y, insideWorld s x y = true -> cellAt s' x y = Some emptyCellObject)
    /\ tileMap s' = tileMap s /\ heap s' = heap s /\ tileIdCounter s' = tileIdCounter s
    /\ (forall id, getTile id s' = getTile id s)
    /\ (autoRender s = false ->
        (forall x y, insideWorld s x y = true -> cellKey x y ∈ dirtyRects s')
        /\ worldCtx s' = worldCtx s ++ [ClearRect (Int 0) (Int 0) (Int (worldCanvasWidth s))
                                          (Int (worldCanvasHeight s))]
        /\ displayCtx s' = displayCtx s ++ [ClearRect (Int 0) (Int 0) (Int (displayCanvasWidth s))
                                              (Int (displayCanvasHeight s))])
    /\ wellFormed s'.
Proof.
  intros Hwf. pose proof Hwf as (Hg & _).
  unfold clear. unfold bind at 1. cbn [log_info emit modify].
  fold (logged INFO MsgClearing s). set (s0 := logged INFO MsgClearing s).
  unfold bind at 1. cbn [get]. unfold bind at 1.
  set (f := fun _ : Cell.t => emptyCellObject).
  rewrite (sweep_rows f). fold (gridKeys (cells s0)).
  set (s1 := swept f (gridKeys (cells s0)) s0).
  assert (H1 : wellFormed s1).
  { apply wellFormed_swept; [reflexivity | intros c r Hr; inversion Hr | exact Hwf]. }
  destruct (swept_store f (gridKeys (cells s0)) s0) as (Hs & Hso & Hdirty & _ & Hw & Hdc & _).
  fold s1 in Hs, Hso, Hdirty, Hw, Hdc.
  assert (Hauto : autoRender s1 = autoRender s) by apply Hso.
  destruct Hs as (_ & Hh & Htm & Hn & Hww & Hhh).
  change (heap s1 = heap s) in Hh. change (tileMap s1 = tileMap s) in Htm.
  change (tileIdCounter s1 = tileIdCounter s) in Hn.
  unfold bind at 1. cbn [drawDisplay modify]. unfold bind at 1. cbn [draw modify].
  match goal with |- context [renderIfAuto ?X0] => set (X := X0) end.
  destruct (after_render X) as (s' & E & Ho & Hwf'); [exact H1|].
  exists s'. split; [exact E|].
  pose proof Ho as (_ & _ & _ & _ & _ & _ & _ & _ & _ & Ehp & Et & En & Ea & _).
  split; [|split; [|split; [|split; [|split; [|split]]]]].
  - intros x y Hin. rewrite (cellAt_outputOnly X s' x y Ho).
    change (cellAt X) with (cellAt s1). unfold s1.
    rewrite cellAt_swept_grid by reflexivity. change (cellAt s0) with (cellAt s).
    destruct (proj2 (gridShaped_cellAt s x y Hg) Hin) as [c ->]. reflexivity.
  - now rewrite Et.
  - now rewrite Ehp.
  - now rewrite En.
  - intros id. unfold getTile. rewrite Et, Ehp.
    change (tileMap X) with (tileMap s1). change (heap X) with (heap s1).
    now rewrite Htm, Hh.
  - intros Hoff.
    assert (E' : renderIfAuto X = (Ok tt, X))
      by (apply renderIfAuto_off; change (autoRender X) with (autoRender s1); congruence).
    rewrite E' in E. injection E as <-. split; [|split].
    + intros x y Hin. change (dirtyRects X) with (dirtyRects s1). rewrite Hdirty.
      apply elem_of_addKeys. right. apply elem_of_cellKeys. exists x, y.
      split; [reflexivity|]. apply elem_of_gridKeys.
      change (cellAt s0) with (cellAt s). now apply gridShaped_cellAt.
    + unfold X. cbn [worldCtx with_worldCtx with_displayCtx]. rewrite Hw. reflexivity.
    + unfold X. cbn [displayCtx with_worldCtx with_displayCtx]. rewrite Hdc. reflexivity.
  - exact Hwf'.
Qed.



Lemma clearOverlays_resets_every_overlay_run s :
  wellFormed s ->
  exists s', clearOverlays s = (Ok tt, s')
    /\ (forall x y c, cellAt s x y = Some c ->
          cellAt s' x y = Some (Cell.mk transparent (Cell.tiles c) true))
    /\ tileMap s' = tileMap s /\ heap s' = heap s
    /\ wellFormed s'.
Proof.
  intros Hwf.
  unfold clearOverlays. unfold bind at 1. cbn [log_debug emit modify].
  fold (logged DEBUG MsgClearingOverlays s). set (s0 := logged DEBUG MsgClearingOverlays s).
  unfold bind at 1. cbn [get]. unfold bind at 1.
  set (f := fun cell : Cell.t => Cell.mk transparent (Cell.tiles cell) true).
  rewrite (sweep_rows f). fold (gridKeys (cells s0)).
  set (s1 := swept f (gridKeys (cells s0)) s0).
  assert (H1 : wellFormed s1).
  { apply wellFormed_swept; [reflexivity | intros c r Hr; exact Hr | exact Hwf]. }
  destruct (swept_store f (gridKeys (cells s0)) s0) as (Hs & _).
  fold s1 in Hs. destruct Hs as (_ & Hh & Htm & _).
  change (heap s1 = heap s) in Hh. change (tileMap s1 = tileMap s) in Htm.
  destruct (after_render s1) as (s' & E & Ho & Hwf'); [exact H1|].
  exists s'. split; [exact E|].
  pose proof Ho as (_ & _ & _ & _ & _ & _ & _ & _ & _ & Ehp & Et & _).
  split; [|split; [|split]].
  - intros x y c Hc. rewrite (cellAt_outputOnly s1 s' x y Ho). unfold s1.
    rewrite cellAt_swept_grid by reflexivity. change (cellAt s0) with (cellAt s).
    now rewrite Hc.
  - now rewrite Et.
  - now rewrite Ehp.
  - exact Hwf'.
Qed.



(** ** [setBackground] *)

Lemma forEach_app {A} (l1 l2 : list A) (f : A -> M unit) s :
  forEach (l1 ++ l2) f s = bind (forEach l1 f) (fun _ => forEach l2 f) s.
Proof.
  revert s. induction l1 as [|a l1 IH]; intros s; [reflexivity|].
  cbn [app forEach]. rewrite bind_assoc. apply bind_ext. intros _ s'. apply IH.
Qed.

Lemma forEach_fmap {A B} (g : A -> B) (l : list A) (f : B -> M unit) s :
  forEach (g <$> l) f s = forEach l (fun a => f (g a)) s.
Proof.
  revert s. induction l as [|a l IH]; intros s; [reflexivity|].
  cbn [fmap list_fmap forEach]. apply bind_ext. intros _ s'. apply IH.
Qed.

Lemma bind_cong {A B} (m m' : M A) (k k' : A -> M B) s :
  m s = m' s -> (forall a s', k a s' = k' a s') -> bind m k s = bind m' k' s.
Proof. intros Hm Hk. unfold bind. rewrite Hm. destruct (m' s) as [[a|e] s']; auto. Qed.

(** Two nested counting loops run through the keys row by row. *)
Lemma forEach_nested (ys xs : list Z) (body : Z -> Z -> M unit) s :
  forEach ys (fun y => forEach xs (fun x => body x y)) s
  = forEach (y ← ys; (fun x => (x, y)) <$> xs) (fun k => body (fst k) (snd k)) s.
Proof.
  revert s. induction ys as [|y ys IH]; intros s; [reflexivity|].
  change ((y :: ys) ≫= ?G) with (G y ++ (ys ≫= G)).
  rewrite forEach_app. cbn [forEach]. apply bind_cong.
  - now rewrite forEach_fmap.
  - intros _ s'. apply IH.
Qed.

Lemma NoDup_range n : NoDup (range n).
Proof.
  unfold range. apply NoDup_fmap_2; [|apply NoDup_seq].
  intros a b. apply Nat2Z.inj.
Qed.

Lemma NoDup_worldKeys w h : NoDup (worldKeys w h).
Proof.
  unfold worldKeys. apply NoDup_bind.
  - intros y1 y2 k _ _ H1 H2.
    apply list_elem_of_fmap in H1 as (x1 & -> & _).
    apply list_elem_of_fmap in H2 as (x2 & [= _ ->] & _). reflexivity.
  - intros y _. apply NoDup_fmap_2; [|apply NoDup_range]. intros a b [= ->]. reflexivity.
  - apply NoDup_range.
Qed.

Lemma elem_of_worldKeys w h x y : (x, y) ∈ worldKeys w h <-> 0 <= x < w /\ 0 <= y < h.
Proof.
  unfold worldKeys. rewrite list_elem_of_bind. split.
  - intros (y0 & Hxy & Hy0). apply list_elem_of_fmap in Hxy as (x0 & [= -> ->] & Hx0).
    apply elem_of_range in Hx0, Hy0. lia.
  - intros [Hx Hy]. exists y. split; [|now apply elem_of_range].
    apply list_elem_of_fmap. exists x. split; [reflexivity | now apply elem_of_range].
Qed.

Lemma length_range n : length (range n) = Z.to_nat n.
Proof. unfold range. now rewrite length_fmap, length_seq. Qed.

Lemma length_worldKeys w h : length (worldKeys w h) = (Z.to_nat w * Z.to_nat h)%nat.
Proof.
  unfold worldKeys. rewrite <- (length_range h).
  induction (range h) as [|y ys IH]; [cbn; lia|].
  change ((y :: ys) ≫= ?G) with (G y ++ (ys ≫= G)).
  rewrite length_app, IH, length_fmap, length_range. cbn [length]. lia.
Qed.

(** One round of the loop of [setBackground]. *)
Lemma setBackground_round env symbol fg bg s k c :
  cellAt s (fst k) (snd k) = Some c ->
  (do id <- generateTileId env;
   do backgroundTile <- alloc (Tile.mk id (fst k) (snd k) symbol fg bg (-1) 1 BOTTOM);
   do s' <- get;
   match cellAt s' (fst k) (snd k) with
   | None => throw TypeError
   | Some _ =>
       run modify (updateCell (fst k) (snd k) (fun cell =>
             Cell.mk (Cell.overlay cell)
               (filter (fun t => zIndexOf (heap s') t ≠ -1) (Cell.tiles cell)
                  ++ [backgroundTile]) true));
       addDirty (fst k) (snd k)
   end) s
  = (Ok tt, backed env symbol fg bg s k).
Proof.
  intros Hc. unfold bind at 1. cbn [generateTileId]. unfold bind at 1. cbn [alloc].
  unfold bind at 1. cbn [get].
  match goal with |- context [cellAt ?s0 _ _] =>
    change (cellAt s0 (fst k) (snd k)) with (cellAt s (fst k) (snd k)) end.
  rewrite Hc. unfold bind at 1. cbn [modify addDirty addDirtyKey]. destruct k. reflexivity.
Qed.

Lemma cellAt_backed env symbol fg bg s k x y :
  0 <= fst k -> 0 <= snd k ->
  cellAt (backed env symbol fg bg s k) x y
  = if decide ((x, y) = k)
    then (fun cell =>
            Cell.mk (Cell.overlay cell)
              (filter (fun t => zIndexOf (heap s ++ [backgroundTile env symbol fg bg
                                                        (tileIdCounter s) k]) t ≠ -1)
                      (Cell.tiles cell) ++ [length (heap s)]) true)
           <$> cellAt s (fst k) (snd k)
    else cellAt s x y.
Proof.
  intros Hx Hy. unfold backed. cbn zeta.
  change (cellAt (with_dirtyRects ?d ?s0)) with (cellAt s0).
  rewrite cellAt_updateCell by assumption. destruct k as [kx ky]. reflexivity.
Qed.

Lemma filter_background h o (l : list nat) :
  (forall r, r ∈ l -> (r < length h)%nat) ->
  filter (fun t => zIndexOf (h ++ [o]) t ≠ -1) l = filter (fun t => zIndexOf h t ≠ -1) l.
Proof.
  intros Hl. apply filter_ext_in. intros a Ha. now rewrite zIndexOf_app by auto.
Qed.

Lemma wellFormed_backed env symbol fg bg s k :
  insideWorld s (fst k) (snd k) = true -> wellFormed s ->
  wellFormed (backed env symbol fg bg s k).
Proof.
  intros Hin (Hg & Hv & Hd & Hi). destruct (inside_nonneg _ _ _ Hin) as [Hx Hy].
  split; [|split; [|split]].
  - unfold backed. cbn zeta. apply (gridShaped_updateCell _ (fst k) (snd k)). exact Hg.
  - intros x y c' r Hc' Hr. rewrite cellAt_backed in Hc' by assumption.
    change (length (heap (backed env symbol fg bg s k)))
      with (length (heap s ++ [backgroundTile env symbol fg bg (tileIdCounter s) k])).
    rewrite length_app. cbn [length].
    destruct (decide ((x, y) = k)) as [E|E].
    + destruct (cellAt s (fst k) (snd k)) as [c|] eqn:Hc; [|discriminate].
      cbn in Hc'. injection Hc' as <-. cbn [Cell.tiles] in Hr.
      apply elem_of_app in Hr as [Hr|Hr].
      * apply list_elem_of_filter in Hr as [_ Hr]. specialize (Hv _ _ _ _ Hc Hr). lia.
      * apply list_elem_of_singleton in Hr as ->. lia.
    + specialize (Hv _ _ _ _ Hc' Hr). lia.
  - eapply (dirtyInside_addKey s _ (fst k) (snd k));
      [reflexivity | reflexivity | | exact Hin | exact Hd].
    unfold backed. cbn. now destruct k.
  - intros id r Hid. change (tileMap (backed env symbol fg bg s k)) with (tileMap s) in Hid.
    destruct (Hi id r Hid) as [(o & Hr & Ho) Hn]. split.
    + exists o. split; [|exact Ho]. cbn. now apply lookup_app_l_Some.
    + cbn. lia.
Qed.

Lemma setBackground_rounds env symbol fg bg ks :
  forall s, wellFormed s -> NoDup ks ->
    Forall (fun k => insideWorld s (fst k) (snd k) = true) ks ->
    exists s',
      forEach ks (fun k =>
        do id <- generateTileId env;
        do backgroundTile <- alloc (Tile.mk id (fst k) (snd k) symbol fg bg (-1) 1 BOTTOM);
        do s' <- get;
        match cellAt s' (fst k) (snd k) with
        | None => throw TypeError
        | Some _ =>
            run modify (updateCell (fst k) (snd k) (fun cell =>
                  Cell.mk (Cell.overlay cell)
                    (filter (fun t => zIndexOf (heap s') t ≠ -1) (Cell.tiles cell)
                       ++ [backgroundTile]) true));
            addDirty (fst k) (snd k)
        end) s = (Ok tt, s')
      /\ wellFormed s'
      /\ tileMap s' = tileMap s
      /\ tileIdCounter s' = (tileIdCounter s + length ks)%nat
      /\ (exists news, heap s' = heap s ++ news)
      /\ worldWidth s' = worldWidth s /\ worldHeight s' = worldHeight s
      /\ (forall x y, (x, y) ∉ ks -> cellAt s' x y = cellAt s x y)
      /\ (forall x y c, (x, y) ∈ ks -> cellAt s x y = Some c ->
            exists b n,
              cellAt s' x y
              = Some (Cell.mk (Cell.overlay c)
                        (filter (fun t => zIndexOf (heap s) t ≠ -1) (Cell.tiles c) ++ [b])
                        true)
              /\ heap s' !! b = Some (backgroundTile env symbol fg bg n (x, y))
              /\ (tileIdCounter s <= n)%nat).
Proof.
  induction ks as [|k ks IH]; intros s Hwf Hnd Hin.
  { exists s. split; [reflexivity|]. split; [exact Hwf|]. split; [reflexivity|].
    split; [cbn; lia|]. split; [exists []; now rewrite app_nil_r|].
    split; [reflexivity|]. split; [reflexivity|]. split; [reflexivity|].
    intros x y c Hk. inversion Hk. }
  apply NoDup_cons in Hnd as [Hk Hnd]. apply Forall_cons in Hin as [Hink Hin].
  pose proof Hwf as (Hg & Hv & _).
  destruct (proj2 (gridShaped_cellAt s _ _ Hg) Hink) as [c0 Hc0].
  destruct (inside_nonneg _ _ _ Hink) as [Hx Hy].
  set (s1 := backed env symbol fg bg s k).
  destruct (IH s1) as (s' & E & Hwf' & Ht & Hn & (news & Hh) & Hw & Hhh & Hother & Hcells).
  { now apply wellFormed_backed. }
  { exact Hnd. }
  { exact Hin. }
  exists s'. cbn [forEach].
  rewrite (bind_ok _ _ _ _ _ (setBackground_round env symbol fg bg s k c0 Hc0)).
  split; [exact E|]. split; [exact Hwf'|]. split; [exact Ht|].
  split; [rewrite Hn; cbn; lia|].
  split.
  { exists (backgroundTile env symbol fg bg (tileIdCounter s) k :: news).
    rewrite Hh. cbn. now rewrite <- app_assoc. }
  split; [exact Hw|]. split; [exact Hhh|]. split.
  - intros x y Hxy. rewrite Hother by (intros H; apply Hxy; now apply list_elem_of_further).
    unfold s1. rewrite cellAt_backed by assumption.
    rewrite decide_False; [reflexivity|]. intros <-. apply Hxy, list_elem_of_here.
  - intros x y c Hxy Hc. apply elem_of_cons in Hxy as [E'|Hxy].
    + subst k. exists (length (heap s)), (tileIdCounter s).
      rewrite Hother by exact Hk. unfold s1. rewrite cellAt_backed by assumption.
      rewrite decide_True by reflexivity. cbn [fst snd] in *. rewrite Hc0 in Hc.
      injection Hc as <-. rewrite Hc0. cbn [fmap option_fmap option_map].
      rewrite filter_background by (intros r Hr; exact (Hv _ _ _ _ Hc0 Hr)).
      split; [reflexivity|]. split; [|lia].
      rewrite Hh. apply lookup_app_l_Some. cbn.
      rewrite lookup_app_r by lia. now rewrite Nat.sub_diag.
    + assert (Hne : (x, y) <> k) by (intros <-; contradiction).
      assert (Hc1 : cellAt s1 x y = Some c).
      { unfold s1. rewrite cellAt_backed by assumption. now rewrite decide_False. }
      destruct (Hcells x y c Hxy Hc1) as (b & n & Hcell & Hb & Hn').
      exists b, n. split; [|split; [exact Hb | cbn in Hn'; lia]].
      rewrite Hcell. f_equal. f_equal. f_equal.
      apply filter_background. intros r Hr. exact (Hv _ _ _ _ Hc Hr).
Qed.

Lemma setBackground_adds_unindexed_tiles_run env s symbol fg bg :
  wellFormed s ->
  exists s', setBackground env symbol fg bg s = (Ok tt, s')
    /\ tileMap s' = tileMap s
    /\ (forall id, getTile id s' = getTile id s)
    /\ tileIdCounter s'
       = (tileIdCounter s + Z.to_nat (worldWidth s) * Z.to_nat (worldHeight s))%nat
    /\ (forall x y c, cellAt s x y = Some c ->
          exists b n,
            cellAt s' x y
            = Some (Cell.mk (Cell.overlay c)
                      (filter (fun t => zIndexOf (heap s) t ≠ -1) (Cell.tiles c) ++ [b])
                      true)
            /\ heap s' !! b = Some (backgroundTile env symbol fg bg n (x, y))
            /\ getTile (now env n, n) s' = None)
    /\ wellFormed s'.
Proof.
  intros Hwf. pose proof Hwf as (Hg & Hv & Hd & Hi).
  unfold setBackground. unfold bind at 1. cbn [get]. unfold bind at 1.
  rewrite forEach_nested. fold (worldKeys (worldWidth s) (worldHeight s)).
  destruct (setBackground_rounds env symbol fg bg (worldKeys (worldWidth s) (worldHeight s)) s)
    as (s1 & E1 & Hwf1 & Ht & Hn & (news & Hh) & Hw & Hhh & _ & Hcells).
  { exact Hwf. }
  { apply NoDup_worldKeys. }
  { apply Forall_forall. intros [x y] Hk. apply elem_of_worldKeys in Hk.
    now apply insideWorld_spec. }
  cbv beta in E1 |- *. rewrite E1.
  destruct (after_render s1 Hwf1) as (s' & E & Ho & Hwf').
  exists s'. split; [exact E|].
  pose proof Ho as (_ & _ & _ & _ & _ & _ & _ & _ & _ & Ehp & Et & En & _).
  rewrite length_worldKeys in Hn.
  split; [congruence|]. split; [|split; [congruence|split; [|exact Hwf']]].
  - intros id. unfold getTile. rewrite Et, Ehp, Ht, Hh.
    destruct (tileMap s !! id) as [r|] eqn:Hid; [|reflexivity].
    destruct (Hi id r Hid) as [(o & Hr & _) _]. rewrite Hr. now apply lookup_app_l_Some.
  - intros x y c Hc.
    destruct (Hcells x y c) as (b & n & Hcell & Hb & Hn'); [|exact Hc|].
    { apply elem_of_worldKeys. apply insideWorld_spec, (gridShaped_cellAt s x y Hg). eauto. }
    exists b, n. rewrite (cellAt_outputOnly s1 s' x y Ho), Ehp.
    split; [exact Hcell|]. split; [exact Hb|].
    unfold getTile. rewrite Et, Ht.
    destruct (tileMap s !! (now env n, n)) as [r|] eqn:Hid; [|reflexivity].
    destruct (Hi _ r Hid) as [_ Hlt]. cbn in Hlt. lia.
Qed.



(** ** Removing tiles: [removeTiles] and [emptyCell] *)

Lemma tidy_wellFormed s : tidy s -> wellFormed s.
Proof.
  intros [(Hg & Hi & Hc & _) Hd]. split; [exact Hg|]. split; [|split; assumption].
  intros x y c r Hcell Hr. destruct (Hc x y c r Hcell Hr) as (o & Ho & _).
  eapply lookup_lt_Some, Ho.
Qed.

Lemma filter_all {A} (P : A -> Prop) `{forall a, Decision (P a)} (l : list A) :
  (forall a, a ∈ l -> P a) -> filter P l = l.
Proof.
  induction l as [|a l IH]; intros Hl; [reflexivity|].
  rewrite filter_cons_True by apply Hl, list_elem_of_here.
  f_equal. apply IH. intros b Hb. now apply Hl, list_elem_of_further.
Qed.

(** In a placed grid the objects of an id are in the cell of its tile
    only. *)
Lemma withoutId_elsewhere s id x y c :
  placementInv s ->
  (forall r o, tileMap s !! id = Some r -> heap s !! r = Some o ->
               (Tile.x o, Tile.y o) <> (x, y)) ->
  cellAt s x y = Some c ->
  withoutId (heap s) id (Cell.tiles c) = Cell.tiles c.
Proof.
  intros (_ & Hi & Hc & _) Hpos Hcell. apply filter_all. intros a Ha E.
  destruct (Hc x y c a Hcell Ha) as (oa & Hoa & Hta & Hx & Hy).
  unfold idOf in E. rewrite Hoa in E. cbn in E. injection E as E. rewrite E in Hta.
  apply (Hpos a oa Hta Hoa). congruence.
Qed.

Lemma removeTile_tidy s id :
  tidy s -> storedInside s [id] ->
  exists s', removeTile id s = (Ok tt, s')
    /\ tidy s'
    /\ tileMap s' = delete id (tileMap s) /\ heap s' = heap s
    /\ worldWidth s' = worldWidth s /\ worldHeight s' = worldHeight s
    /\ (forall x y, Cell.tiles <$> cellAt s' x y
                    = withoutId (heap s) id <$> (Cell.tiles <$> cellAt s x y))
    /\ (forall x y, Cell.overlay <$> cellAt s' x y = Cell.overlay <$> cellAt s x y).
Proof.
  intros [Hp Hd] Hin. pose proof Hp as (Hg & Hi & Hc & _).
  destruct (tileMap s !! id) as [r|] eqn:Hid.
  - destruct (Hi id r Hid) as [(o & Hr & Ho) _].
    assert (Hino : insideWorld s (Tile.x o) (Tile.y o) = true).
    { apply (Hin id o); [apply list_elem_of_here|]. unfold getTile. now rewrite Hid. }
    destruct (proj2 (gridShaped_cellAt s _ _ Hg) Hino) as [c Hcell].
    destruct (inside_nonneg _ _ _ Hino) as [Hx Hy].
    rewrite (removeTile_effect s id r o c Hid Hr Hcell). cbn zeta.
    set (s0 := logged VERBOSE (MsgRemoving id) s).
    set (X := with_tileMap _ _).
    assert (HpX : placementInv X).
    { apply (placementInv_remove s0 id r o c); assumption. }
    assert (HdX : dirtyInside X).
    { eapply (dirtyInside_addKey s X (Tile.x o) (Tile.y o));
        [reflexivity | reflexivity | reflexivity | exact Hino | exact Hd]. }
    destruct (after_render X (tidy_wellFormed X (conj HpX HdX))) as (s' & E & Hout & Hwf').
    exists s'. split; [exact E|].
    pose proof Hout as (_ & _ & _ & Ew & Eh & _ & _ & _ & _ & Ehp & Et & _).
    split; [|split; [exact Et|split; [exact Ehp|split; [exact Ew|split; [exact Eh|split]]]]].
    + split; [|apply Hwf'].
      eapply placementInv_store; [apply outputOnly_sameStore, Hout | exact HpX].
    + intros x y. rewrite (cellAt_outputOnly X s' x y Hout).
      change (cellAt X x y) with (cellAt (removed id (Tile.x o) (Tile.y o) s0) x y).
      rewrite cellAt_removed by assumption.
      change (cellAt s0) with (cellAt s). change (heap s0) with (heap s).
      destruct (decide ((x, y) = (Tile.x o, Tile.y o))) as [E'|E'].
      * injection E' as -> ->. now rewrite Hcell.
      * destruct (cellAt s x y) as [c'|] eqn:Hc'; [|reflexivity]. cbn. f_equal.
        symmetry. apply (withoutId_elsewhere s id x y c' Hp); [|exact Hc'].
        intros r' o' Hr' Ho'. assert (r' = r) by congruence. subst r'.
        assert (o' = o) by congruence. subst o'. congruence.
    + intros x y. rewrite (cellAt_outputOnly X s' x y Hout).
      change (cellAt X x y) with (cellAt (removed id (Tile.x o) (Tile.y o) s0) x y).
      rewrite cellAt_removed by assumption. change (cellAt s0) with (cellAt s).
      destruct (decide ((x, y) = (Tile.x o, Tile.y o))) as [E'|E']; [|reflexivity].
      injection E' as -> ->. now rewrite Hcell.
  - rewrite (removeTile_missing s id Hid). eexists. split; [reflexivity|].
    split; [split; [eapply placementInv_store; [|exact Hp]; repeat split | exact Hd]|].
    split; [cbn; now rewrite delete_id|]. split; [reflexivity|].
    split; [reflexivity|]. split; [reflexivity|]. split; [|reflexivity].
    intros x y. change (cellAt (logged ?a ?b ?s0)) with (cellAt s0).
    destruct (cellAt s x y) as [c'|] eqn:Hc'; [|reflexivity]. cbn. f_equal.
    symmetry. apply (withoutId_elsewhere s id x y c' Hp); [|exact Hc'].
    intros r' o' Hr'. congruence.
Qed.

Lemma withoutIds_nil h l : withoutIds h [] l = l.
Proof. apply filter_all. intros a _ H. inversion H. Qed.

Lemma withoutIds_cons h id ids l :
  withoutIds h (id :: ids) l = withoutIds h ids (withoutId h id l).
Proof.
  unfold withoutIds, withoutId. rewrite list_filter_filter. apply list_filter_iff.
  intros a. cbn [fmap list_fmap]. rewrite not_elem_of_cons. tauto.
Qed.

Lemma removeRun_tidy ids :
  forall s, tidy s -> storedInside s ids ->
    exists s', forEach ids removeTile s = (Ok tt, s')
      /\ tidy s'
      /\ (forall id, tileMap s' !! id = if decide (id ∈ ids) then None else tileMap s !! id)
      /\ heap s' = heap s
      /\ worldWidth s' = worldWidth s /\ worldHeight s' = worldHeight s
      /\ (forall x y, Cell.tiles <$> cellAt s' x y
                      = withoutIds (heap s) ids <$> (Cell.tiles <$> cellAt s x y))
      /\ (forall x y, Cell.overlay <$> cellAt s' x y = Cell.overlay <$> cellAt s x y).
Proof.
  induction ids as [|id ids IH]; intros s Hs Hin.
  { exists s. split; [reflexivity|]. split; [exact Hs|]. split; [reflexivity|].
    split; [reflexivity|]. split; [reflexivity|]. split; [reflexivity|].
    split; [|reflexivity]. intros x y.
    destruct (cellAt s x y); cbn; [|reflexivity]. now rewrite withoutIds_nil. }
  destruct (removeTile_tidy s id Hs) as (s1 & E1 & Hs1 & Ht1 & Hh1 & Hw1 & Hhh1 & Hc1 & Ho1).
  { intros id' o Hid' Hget. apply list_elem_of_singleton in Hid' as ->.
    apply (Hin id o); [apply list_elem_of_here | exact Hget]. }
  destruct (IH s1 Hs1) as (s' & E & Hs' & Ht & Hh & Hw & Hhh & Hc & Hov).
  { intros id' o Hid' Hget. unfold insideWorld. rewrite Hw1, Hhh1.
    apply (Hin id' o); [now apply list_elem_of_further|].
    unfold getTile in *. rewrite Ht1, Hh1 in Hget.
    rewrite lookup_delete in Hget. destruct (decide (id = id')); [discriminate | exact Hget]. }
  exists s'. cbn [forEach]. rewrite (bind_ok _ _ _ _ _ E1).
  split; [exact E|]. split; [exact Hs'|].
  split; [|split; [congruence|split; [congruence|split; [congruence|split]]]].
  - intros id'. rewrite Ht, Ht1, lookup_delete.
    destruct (decide (id' ∈ ids)) as [Hi'|Hi'].
    + rewrite decide_True by now apply list_elem_of_further. reflexivity.
    + destruct (decide (id = id')) as [<-|Hne].
      * rewrite decide_True by apply list_elem_of_here. reflexivity.
      * rewrite decide_False; [reflexivity|].
        intros H. apply elem_of_cons in H as [H|H]; [congruence | contradiction].
  - intros x y. rewrite Hc, Hc1, Hh1.
    destruct (cellAt s x y); cbn; [|reflexivity]. now rewrite withoutIds_cons.
  - intros x y. now rewrite Hov, Ho1.
Qed.

Lemma removeTiles_removes_listed_tiles_run s ids :
  tidy s -> storedInside s ids ->
  exists s', removeTiles ids s = (Ok tt, s')
    /\ (forall id, getTile id s' = if decide (id ∈ ids) then None else getTile id s)
    /\ (forall x y, Cell.tiles <$> cellAt s' x y
                    = withoutIds (heap s) ids <$> (Cell.tiles <$> cellAt s x y))
    /\ tidy s'.
Proof.
  intros Hs Hin.
  destruct (removeRun_tidy ids s Hs Hin) as (s' & E & Hs' & Ht & Hh & _ & _ & Hc & _).
  exists s'. split; [exact E|]. split; [|split; [exact Hc | exact Hs']].
  intros id. unfold getTile. rewrite Ht, Hh. now destruct (decide (id ∈ ids)).
Qed.


Lemma tidy_new env options : tidy (newDisplay env options).
Proof. split; [apply placementInv_new | apply wellFormed_new]. Qed.






(** ** [createString] *)

(** The loop over the characters of a string. *)
Lemma stringRun_ok env y z (cs : list (CodePoint * Color)) :
  forall s cx acc, wellFormed s ->
    exists s',
      foldM (fun (b : Z * list (Z * nat)) (c : CodePoint * Color) =>
               let '(currentX, tileIds) := b in
               do tileId <- createTile env currentX y (charString (fst c)) (snd c)
                              "#000000FF"%string z 1 BOTTOM;
               ret (currentX + 1, tileIds ++ [tileId])) (cx, acc) cs s
      = (Ok (cx + Z.of_nat (length cs), acc ++ idsFrom env (tileIdCounter s) (length cs)), s')
      /\ wellFormed s'
      /\ tileIdCounter s' = (tileIdCounter s + length cs)%nat
      /\ Forall2 (textTile "#000000FF"%string z s')
           (idsFrom env (tileIdCounter s) (length cs)) (rowCells cx y cs)
      /\ (forall id o, getTile id s = Some o -> getTile id s' = Some o).
Proof.
  induction cs as [|[ch color] cs IH]; intros s cx acc Hs.
  - exists s. cbn. rewrite app_nil_r, Z.add_0_r. split; [reflexivity|].
    split; [exact Hs|]. split; [lia|]. split; [constructor | auto].
  - cbn [foldM fst snd].
    destruct (createTile_ok env s cx y (charString ch) color "#000000FF"%string z 1 BOTTOM Hs)
      as (s1 & E1 & Hs1 & Hn1 & _ & _ & Hget1 & Hf1).
    destruct (IH s1 (cx + 1) (acc ++ [(now env (tileIdCounter s), tileIdCounter s)]) Hs1)
      as (s' & E' & Hs' & Hn' & Hall' & Hf').
    exists s'. split.
    { erewrite bind_ok; [|erewrite bind_ok; [reflexivity | exact E1]].
      rewrite E'. rewrite Hn1, <- app_assoc. cbn [length]. rewrite idsFrom_cons.
      replace (cx + 1 + Z.of_nat (length cs)) with (cx + Z.of_nat (S (length cs))) by lia.
      reflexivity. }
    split; [exact Hs'|]. split; [cbn [length]; lia|]. split.
    + cbn [length]. rewrite idsFrom_cons. unfold rowCells. cbn [imap]. constructor.
      * cbn. apply Hf'. rewrite Z.add_0_r. exact Hget1.
      * rewrite Hn1 in Hall'. unfold rowCells in Hall'.
        erewrite imap_ext; [exact Hall'|]. intros i c _. cbn. f_equal. f_equal. f_equal. lia.
    + intros id o Hid. apply Hf', Hf1, Hid.
Qed.

Lemma foldM_ext {A B} (f g : B -> A -> M B) b l s :
  (forall b a s, f b a s = g b a s) -> foldM f b l s = foldM g b l s.
Proof.
  intros Hfg. revert b s. induction l as [|a l IH]; intros b s; [reflexivity|].
  cbn [foldM]. apply bind_cong; [apply Hfg | intros b' s'; apply IH].
Qed.

(** The two nested loops of [createString] are one loop over the
    characters of the text. *)
Lemma stringLoop_flat env y z text b s :
  foldM (fun acc segment =>
           foldM (fun '(currentX, tileIds) char =>
                    do tileId <- createTile env currentX y (charString char) (snd segment)
                                   "#000000FF"%string z 1 BOTTOM;
                    ret (currentX + 1, tileIds ++ [tileId]))
                 acc (codePoints (fst segment)))
        b (parse env text) s
  = foldM (fun (b : Z * list (Z * nat)) (c : CodePoint * Color) =>
             let '(currentX, tileIds) := b in
             do tileId <- createTile env currentX y (charString (fst c)) (snd c)
                            "#000000FF"%string z 1 BOTTOM;
             ret (currentX + 1, tileIds ++ [tileId])) b (charsOf env text) s.
Proof.
  unfold charsOf. generalize (parse env text). intros segments.
  revert b s. induction segments as [|segment segments IH]; intros b s; [reflexivity|].
  cbn [foldM]. change ((segment :: segments) ≫= ?f) with (f segment ++ (segments ≫= f)).
  rewrite foldM_app. apply bind_cong; [|intros b' s'; apply IH].
  rewrite foldM_fmap. apply foldM_ext. intros [currentX tileIds] c s0. reflexivity.
Qed.

Lemma createString_creates_one_tile_per_character_run env s x y text z :
  wellFormed s ->
  let cs := charsOf env text in
  let ids := idsFrom env (tileIdCounter s) (length cs) in
  exists s', createString env x y text z s = (Ok ids, s')
    /\ Forall2 (textTile "#000000FF"%string z s') ids (rowCells x y cs)
    /\ (forall id o, getTile id s = Some o -> getTile id s' = Some o)
    /\ wellFormed s'.
Proof.
  intros Hs cs ids. subst ids cs. unfold createString. cbn zeta.
  destruct (stringRun_ok env y z (charsOf env text) s x [] Hs)
    as (s' & E & Hs' & _ & Hall & Hf).
  exists s'. split; [|split; [exact Hall | split; [exact Hf | exact Hs']]].
  rewrite <- stringLoop_flat in E. rewrite (bind_ok _ _ _ _ _ E). reflexivity.
Qed.



(** ** [moveTiles] *)







(** ** The constructor *)

Lemma cellAt_new_inside env options x y :
  cellAt (newDisplay env options) x y
  = if insideWorld (newDisplay env options) x y then Some emptyCellObject else None.
Proof.
  pose proof (gridShaped_cellAt _ x y (gridShaped_new env options)) as Hiff.
  destruct (cellAt (newDisplay env options) x y) as [c|] eqn:Hc.
  - rewrite (proj1 Hiff (ex_intro _ c eq_refl)). f_equal. eapply cellAt_new, Hc.
  - destruct (insideWorld _ x y); [|reflexivity].
    destruct (proj2 Hiff eq_refl) as [c [=]].
Qed.

(** X18: the constructor throws [elementId is required] exactly when the
    element id is missing or empty; [Canvas element not found] when no
    element has the id; and a [TypeError] when the element is no canvas or
    the canvas gives no 2d context.  Only for a canvas with a 2d context
    does it return an engine: of the configured world and viewport size,
    with all cells empty, flagged dirty and without overlay, with no tile,
    an empty dirty set, the viewport at the origin and auto-render on.
    This engine is well-formed and keeps the placement invariant. *)
Theorem construct_checks_element_and_builds_empty_grid env options :
  (forall s, construct env options = Ok s ->
     (exists elementId, Config.elementId options = Some elementId
                        /\ elementId <> EmptyString
                        /\ getElementById env elementId = Some (CanvasElement true))
     /\ wellFormed s /\ tidy s
     /\ (forall x y, cellAt s x y
                     = if insideWorld s x y then Some emptyCellObject else None)
     /\ worldWidth s = Config.worldWidth options
     /\ worldHeight s = Config.worldHeight options
     /\ viewport s = Viewport.mk (Int 0) (Int 0) (Config.viewportWidth options)
                       (Config.viewportHeight options)
     /\ tileMap s = ∅ /\ dirtyRects s = [] /\ autoRender s = true
     /\ logLevel s = default WARN (Config.logLevel options))
  /\ (construct env options = Throw (Error "elementId is required in MatrixDisplayConfig")
      <-> Config.elementId options = None \/ Config.elementId options = Some EmptyString)
  /\ (forall elementId,
        Config.elementId options = Some elementId -> elementId <> EmptyString ->
        (getElementById env elementId = None ->
         construct env options
         = Throw (Error ("Canvas element not found: " ++ elementId)))
        /\ (getElementById env elementId = Some OtherElement ->
            construct env options = Throw TypeError)
        /\ (getElementById env elementId = Some (CanvasElement false) ->
            construct env options = Throw TypeError)
        /\ (getElementById env elementId = Some (CanvasElement true) ->
            construct env options = Ok (newDisplay env options))).
Proof.
  unfold construct. destruct (Config.elementId options) as [elementId|].
  2:{ split; [discriminate|]. split; [split; auto|]. discriminate. }
  unfold truthy. rewrite negb_involutive.
  destruct (String.eqb_spec elementId EmptyString) as [->|Hne].
  { split; [discriminate|]. split; [split; auto|]. intros e [= <-] He. congruence. }
  cbn [negb].
  destruct (getElementById env elementId) as [[[|]|]|] eqn:Hel.
  - split; [|split].
    + intros s [= <-]. split; [exists elementId; auto|].
      split; [apply wellFormed_new|]. split; [apply tidy_new|].
      split; [apply cellAt_new_inside|]. repeat split.
    + split; [discriminate|]. intros [H|H]; congruence.
    + intros e [= <-] _. rewrite Hel. repeat split; congruence.
  - split; [discriminate|]. split.
    + split; [discriminate|]. intros [H|H]; congruence.
    + intros e [= <-] _. rewrite Hel. repeat split; congruence.
  - split; [discriminate|]. split.
    + split; [discriminate|]. intros [H|H]; congruence.
    + intros e [= <-] _. rewrite Hel. repeat split; congruence.
  - split; [discriminate|]. split.
    + split; [discriminate|]. intros [H|H]; congruence.
    + intros e [= <-] _. rewrite Hel. repeat split; congruence.
Qed.

Lemma construct_checks_element_and_builds_empty_grid_witness :
  exists s, construct demoEnv demoConfig = Ok s /\ wellFormed s.
Proof.
  exists demo. split; [reflexivity|].
  destruct (construct_checks_element_and_builds_empty_grid demoEnv demoConfig) as (H & _).
  destruct (H demo eq_refl) as (_ & Hwf & _). exact Hwf.
Defined.

(** ** Well-formedness under the operations *)

Lemma keeps_and I J {A} (m : M A) : keeps I m -> keeps J m -> keeps (fun s => I s /\ J s) m.
Proof. intros HI HJ s [Hi Hj]. split; [apply HI, Hi | apply HJ, Hj]. Qed.

Lemma keeps_wellFormed_renderIfAuto : keeps wellFormed renderIfAuto.
Proof.
  intros s Hs. destruct (after_render s Hs) as (s' & E & _ & Hs').
  now rewrite (exec_eq _ _ _ _ E).
Qed.

Lemma keeps_wellFormed_render : keeps wellFormed render.
Proof.
  intros s Hs. destruct (render_clears_dirty_set_aux s Hs) as (s' & E & Hs').
  now rewrite (exec_eq _ _ _ _ E).
Qed.

Lemma keeps_wellFormed_createTile env x y ch col bg z p d :
  keeps wellFormed (createTile env x y ch col bg z p d).
Proof.
  intros s Hs. destruct (createTile_ok env s x y ch col bg z p d Hs) as (s' & E & Hs' & _).
  now rewrite (exec_eq _ _ _ _ E).
Qed.

Lemma keeps_wellFormed_moveTile id nx ny : keeps wellFormed (moveTile id nx ny).
Proof.
  intros s Hs. pose proof Hs as (Hg & _ & _ & Hi).
  destruct (tileMap s !! id) as [r|] eqn:Hid.
  2:{ unfold exec. rewrite moveTile_missing by assumption. exact Hs. }
  destruct (Hi id r Hid) as [(o & Hr & _) _].
  destruct (insideWorld s nx ny) eqn:Hin.
  2:{ unfold exec. erewrite moveTile_outside by eassumption. exact Hs. }
  destruct (cellAt s (Tile.x o) (Tile.y o)) as [c|] eqn:Hc.
  2:{ unfold exec. erewrite moveTile_off_grid by eassumption. exact Hs. }
  destruct (moveTile_ok s id o nx ny Hs) as (s' & E & Hs' & _).
  - unfold getTile. now rewrite Hid.
  - apply (gridShaped_cellAt s _ _ Hg). eauto.
  - exact Hin.
  - now rewrite (exec_eq _ _ _ _ E).
Qed.

Lemma keeps_wellFormed_removeTile id : keeps wellFormed (removeTile id).
Proof.
  intros s Hs. pose proof Hs as (Hg & _ & _ & Hi).
  destruct (tileMap s !! id) as [r|] eqn:Hid.
  2:{ unfold exec. rewrite removeTile_missing by assumption. exact Hs. }
  destruct (Hi id r Hid) as [(o & Hr & _) _].
  destruct (cellAt s (Tile.x o) (Tile.y o)) as [c|] eqn:Hc.
  2:{ unfold exec. erewrite removeTile_off_grid by eassumption. exact Hs. }
  destruct (removeTile_ok s id o Hs) as (s' & E & Hs' & _).
  - unfold getTile. now rewrite Hid.
  - apply (gridShaped_cellAt s _ _ Hg). eauto.
  - now rewrite (exec_eq _ _ _ _ E).
Qed.

Lemma keeps_wellFormed_updateTile id u : keeps wellFormed (updateTile id u).
Proof.
  intros s Hs. pose proof Hs as (Hg & _ & _ & Hi).
  destruct (tileMap s !! id) as [r|] eqn:Hid.
  2:{ unfold exec. rewrite updateTile_missing by assumption. exact Hs. }
  destruct (Hi id r Hid) as [(o & Hr & _) _].
  assert (H1 : wellFormed (stored r (assign o u) (logged VERBOSE (MsgUpdating id) s)))
    by (apply (wellFormed_stored _ r o); [exact Hr | apply assign_id | exact Hs]).
  destruct (movesOrSets u) eqn:Hu.
  - unfold exec. rewrite (updateTile_position s id r o u Hid Hr Hu).
    apply keeps_wellFormed_moveTile, H1.
  - destruct (cellAt s (Tile.x o) (Tile.y o)) as [c|] eqn:Hc.
    + destruct (updateTile_then_getTile_aux s id r o u c Hs Hid Hr Hu Hc) as (s' & E & Hs').
      now rewrite (exec_eq _ _ _ _ E).
    + unfold exec. rewrite (updateTile_off_grid s id r o u Hid Hr Hu Hc). exact H1.
Qed.

Lemma keeps_wellFormed_setOverlay x y color : keeps wellFormed (setOverlay x y color).
Proof.
  intros s Hs.
  destruct (setOverlay_sets_or_warns_run s x y color Hs) as (s' & E & _ & _ & _ & _ & Hs').
  now rewrite (exec_eq _ _ _ _ E).
Qed.

Lemma keeps_wellFormed_clear : keeps wellFormed clear.
Proof.
  intros s Hs.
  destruct (clear_empties_cells_and_keeps_index_run s Hs)
    as (s' & E & _ & _ & _ & _ & _ & _ & Hs').
  now rewrite (exec_eq _ _ _ _ E).
Qed.

Lemma keeps_wellFormed_clearOverlays : keeps wellFormed clearOverlays.
Proof.
  intros s Hs.
  destruct (clearOverlays_resets_every_overlay_run s Hs) as (s' & E & _ & _ & _ & Hs').
  now rewrite (exec_eq _ _ _ _ E).
Qed.

Lemma keeps_wellFormed_setBackground env symbol fg bg :
  keeps wellFormed (setBackground env symbol fg bg).
Proof.
  intros s Hs.
  destruct (setBackground_adds_unindexed_tiles_run env s symbol fg bg Hs)
    as (s' & E & _ & _ & _ & _ & Hs').
  now rewrite (exec_eq _ _ _ _ E).
Qed.

Lemma fits_frame s s' : frame s' = frame s -> fits s -> fits s'.
Proof.
  intros Hf H. unfold fits, wholeCells in *.
  injection Hf as E1 E2 E3 E4 E5 E6 _ _ E7.
  rewrite E1, E2, E3, E4, E5, E6, E7. exact H.
Qed.

Lemma keeps_fits env op : keeps fits (perform env op).
Proof.
  intros s Hs. apply (fits_frame s); [|exact Hs].
  now apply (keeps_frame env (frame s) op).
Qed.

Lemma setViewport_run s x y :
  sturdy s ->
  exists s', setViewport x y s = (Ok tt, s') /\ sturdy s'.
Proof.
  intros [Hwf Hfit]. pose proof Hwf as (Hg & Hv & Hd & Hi).
  pose proof Hfit as ([Ew Eh] & Hw & Hh).
  rewrite setViewport_effect. cbn zeta. rewrite Ew, Eh.
  set (cx := Z.max 0 (Z.min x (worldWidth s - Viewport.width (viewport s)))).
  set (cy := Z.max 0 (Z.min y (worldHeight s - Viewport.height (viewport s)))).
  change (Math.max (Int 0) (Math.min (Int x) (Int (worldWidth s)
            - Int (Viewport.width (viewport s)))))%num with (Int cx).
  change (Math.max (Int 0) (Math.min (Int y) (Int (worldHeight s)
            - Int (Viewport.height (viewport s)))))%num with (Int cy).
  set (X := with_dirtyRects _ _).
  assert (HX : wellFormed X).
  { split; [exact Hg|]. split; [exact Hv|]. split; [|exact Hi].
    unfold dirtyInside, X. cbn [dirtyRects with_dirtyRects].
    apply Forall_forall. intros k Hk.
    change (keyInside s k = true).
    apply elem_of_addKeys in Hk as [Hk|Hk].
    - unfold dirtyInside in Hd. rewrite Forall_forall in Hd. exact (Hd _ Hk).
    - apply elem_of_viewportKeys in Hk as (kx & ky & -> & Hkx & Hky).
      cbn [keyInside cellKey]. apply insideWorld_spec. lia. }
  destruct (after_render X HX) as (s' & E & Ho & Hwf').
  exists s'. split; [exact E|]. split; [exact Hwf'|].
  apply (fits_frame s); [|exact Hfit].
  destruct Ho as (_ & Ev & Ecs & Eww & Ewh & Ecw & Ech & Edw & Edh & _).
  unfold frame. rewrite Ev, Ecs, Eww, Ewh, Ecw, Ech, Edw, Edh. reflexivity.
Qed.

Lemma keeps_sturdy_setViewport x y : keeps sturdy (setViewport x y).
Proof.
  intros s Hs. destruct (setViewport_run s x y Hs) as (s' & E & Hs').
  now rewrite (exec_eq _ _ _ _ E).
Qed.

Ltac wellFormed_special :=
  first [ apply keeps_wellFormed_createTile | apply keeps_wellFormed_moveTile
        | apply keeps_wellFormed_removeTile | apply keeps_wellFormed_updateTile
        | apply keeps_wellFormed_setOverlay | apply keeps_wellFormed_clear
        | apply keeps_wellFormed_clearOverlays | apply keeps_wellFormed_setBackground
        | apply keeps_wellFormed_render | apply keeps_wellFormed_renderIfAuto ].

Lemma keeps_wellFormed env op :
  checked op = true -> (forall x y, op <> SetViewport x y) ->
  keeps wellFormed (perform env op).
Proof.
  destruct op; cbn [checked perform]; intros Hop Hv; try discriminate;
    try (exfalso; eapply Hv; reflexivity);
    keeps_auto wellFormed_special ltac:(assumption).
Qed.

Lemma keeps_sturdy env op : checked op = true -> keeps sturdy (perform env op).
Proof.
  intros Hop.
  assert (H : (exists x y, op = SetViewport x y) \/ forall x y, op <> SetViewport x y)
    by (destruct op; try (right; discriminate); left; eauto).
  destruct H as [(x & y & ->)|Hne].
  - apply keeps_sturdy_setViewport.
  - apply (keeps_and wellFormed fits); [|apply keeps_fits].
    now apply keeps_wellFormed.
Qed.

Lemma sturdy_new env options : sound env options -> sturdy (newDisplay env options).
Proof.
  intros Hs. pose proof Hs as (_ & Hw & Hh). split; [apply wellFormed_new|].
  split; [now apply wholeCells_new|]. split; assumption.
Qed.

Lemma sturdy_reachable env options s :
  sound env options -> reachable env options checked s -> sturdy s.
Proof.
  intros Hsound. induction 1 as [|s op _ IH Hop].
  - now apply sturdy_new.
  - now apply keeps_sturdy.
Qed.

(** X19: when the cell size times the device pixel ratio is a positive
    whole number, the world canvas is within the limit of a canvas and the
    viewport is not larger than the world, every state reached from the
    fresh engine by operations other than [setTiles], returned or thrown,
    is well-formed: the grid has its shape, every entry of a cell list names
    a tile object, every dirty key names a cell, and every entry of the
    tile index names an object that carries its id; the viewport still
    fits the world. *)
Theorem well_formed_after_checked_operations env options s :
  sound env options -> reachable env options checked s ->
  wellFormed s /\ fits s.
Proof. apply sturdy_reachable. Qed.

Lemma sound_demo : sound demoEnv demoConfig.
Proof.
  split; [exists 20; repeat split; vm_compute; congruence|].
  split; vm_compute; congruence.
Qed.

Lemma well_formed_after_checked_operations_witness :
  wellFormed (runOps demoEnv (createdOutside ++ [MoveTile (demoId 0) 0 0; SetViewport 9 9]) demo).
Proof.
  refine (proj1 (well_formed_after_checked_operations demoEnv demoConfig _ _ _)).
  - exact sound_demo.
  - apply reachable_runOps. reflexivity.
Defined.

(** X20: on these states the operations that touch no indexed tile never
    throw: [createTile], [createString], [setOverlay], [setViewport],
    [render], [clear], [clearOverlays], [setBackground], [setAutoRender]
    and [setLogLevel] return for all arguments, inside the world or
    not. *)
Theorem display_operations_return env options s op :
  sound env options -> reachable env options checked s ->
  displayOp op = true ->
  exists s', perform env op s = (Ok tt, s').
Proof.
  intros Hsound Hs Hop. pose proof (sturdy_reachable env options s Hsound Hs) as [Hwf Hfit].
  destruct op; cbn [displayOp] in Hop; try discriminate; cbn [perform].
  - destruct (createTile_ok env s x y char color backgroundColor zIndex bgPercent
                fillDirection Hwf) as (s' & E & _).
    exists s'. unfold discard. now rewrite (bind_ok _ _ _ _ _ E).
  - destruct (setOverlay_sets_or_warns_run s x y color Hwf) as (s' & E & _). eauto.
  - destruct (setViewport_run s x y (conj Hwf Hfit)) as (s' & E & _). eauto.
  - destruct (render_clears_dirty_set_aux s Hwf) as (s' & E & _). eauto.
  - destruct (clear_empties_cells_and_keeps_index_run s Hwf) as (s' & E & _). eauto.
  - destruct (clearOverlays_resets_every_overlay_run s Hwf) as (s' & E & _). eauto.
  - destruct (setBackground_adds_unindexed_tiles_run env s symbol fgColor bgColor Hwf)
      as (s' & E & _). eauto.
  - eexists. reflexivity.
  - eexists. reflexivity.
  - destruct (createString_creates_one_tile_per_character_run env s x y text zIndex Hwf)
      as (s' & E & _).
    exists s'. unfold discard. now rewrite (bind_ok _ _ _ _ _ E).
Qed.

Lemma display_operations_return_witness :
  exists s', perform demoEnv (SetViewport 20 20)
               (runOps demoEnv (createdOutside ++ [MoveTile (demoId 0) 0 0]) demo)
             = (Ok tt, s').
Proof.
  apply (display_operations_return demoEnv demoConfig).
  - exact sound_demo.
  - apply reachable_runOps. reflexivity.
  - reflexivity.
Defined.

(** ** The compositor *)

Lemma insertSorted_perm h r l : insertSorted h r l ≡ₚ r :: l.
Proof.
  induction l as [|b l IH]; [reflexivity|]. cbn.
  destruct (_ <=? _); [reflexivity|]. rewrite IH. apply Permutation_swap.
Qed.

Lemma sortByZ_perm h l : sortByZ h l ≡ₚ l.
Proof.
  induction l as [|b l IH]; [reflexivity|]. cbn. fold (sortByZ h l).
  rewrite insertSorted_perm. now rewrite IH.
Qed.

Lemma elem_of_insertSorted h r l a : a ∈ insertSorted h r l <-> a = r \/ a ∈ l.
Proof. rewrite insertSorted_perm. apply elem_of_cons. Qed.

Lemma zOrdered_insertSorted h r l : zOrdered h l -> zOrdered h (insertSorted h r l).
Proof.
  induction l as [|b l IH]; intros Hl.
  - cbn [insertSorted]. rewrite zOrdered_cons. split; [|exact I]. intros a Ha. inversion Ha.
  - cbn [insertSorted]. destruct (Z.leb_spec (zIndexOf h r) (zIndexOf h b)) as [Hle|Hgt].
    + rewrite zOrdered_cons. split; [|exact Hl].
      apply zOrdered_cons in Hl as [Hb _].
      intros a Ha. apply elem_of_cons in Ha as [->|Ha]; [lia|].
      specialize (Hb a Ha). lia.
    + apply zOrdered_cons in Hl as [Hb Hrest].
      rewrite zOrdered_cons. split; [|now apply IH].
      intros a Ha. apply elem_of_insertSorted in Ha as [->|Ha]; [lia | now apply Hb].
Qed.

Lemma sortByZ_zOrdered h l : zOrdered h (sortByZ h l).
Proof.
  induction l as [|b l IH]; [exact I|]. cbn. fold (sortByZ h l).
  now apply zOrdered_insertSorted.
Qed.

Lemma precedes_insertSorted_keep h r l a b :
  precedes a b l -> precedes a b (insertSorted h r l).
Proof.
  revert a b. induction l as [|c l IH]; intros a b Hab.
  { destruct Hab as (l1 & l2 & l3 & E). destruct l1; discriminate. }
  cbn. destruct (_ <=? _); [now apply precedes_cons|].
  destruct Hab as ([|c' l1] & l2 & l3 & E).
  - cbn in E. injection E as <- ->. apply precedes_head.
    apply elem_of_insertSorted. right. apply elem_of_app. right. apply list_elem_of_here.
  - cbn in E. injection E as <- ->. apply precedes_cons, IH. now exists l1, l2, l3.
Qed.

Lemma precedes_insertSorted_new h r l b :
  b ∈ l -> zIndexOf h r <= zIndexOf h b -> precedes r b (insertSorted h r l).
Proof.
  induction l as [|c l IH]; intros Hb Hz; [inversion Hb|].
  cbn. destruct (Z.leb_spec (zIndexOf h r) (zIndexOf h c)) as [Hle|Hgt].
  - now apply precedes_head.
  - apply elem_of_cons in Hb as [->|Hb]; [lia|]. now apply precedes_cons, IH.
Qed.

(** The sort keeps the list order of tiles that need not be swapped. *)
Lemma sortByZ_stable h l a b :
  precedes a b l -> zIndexOf h a <= zIndexOf h b -> precedes a b (sortByZ h l).
Proof.
  intros (l1 & l2 & l3 & ->) Hz. induction l1 as [|c l1 IH].
  - cbn. fold (sortByZ h (l2 ++ b :: l3)). apply precedes_insertSorted_new; [|exact Hz].
    rewrite sortByZ_perm. apply elem_of_app. right. apply list_elem_of_here.
  - cbn. fold (sortByZ h (l1 ++ a :: l2 ++ b :: l3)).
    now apply precedes_insertSorted_keep.
Qed.

Lemma paintLoop_effect s0 x y (l : list TileRef) :
  forall s, heap s = heap s0 -> cellSize s = cellSize s0 ->
    (forall r, r ∈ l -> is_Some (heap s0 !! r)) ->
    forEach l (fun r =>
       do tile <- deref r;
       draw (paintTile (cellSize s0) (Int x * cellSize s0 / Int 2)%num
               (Int y * cellSize s0)%num tile)) s
    = (Ok tt, with_worldCtx (worldCtx s ++ (l ≫= tileCommands s0 x y)) s).
Proof.
  induction l as [|r l IH]; intros s Hh Hcs Hl.
  - cbn. rewrite app_nil_r. now destruct s.
  - cbn [forEach]. destruct (Hl r (list_elem_of_here _ _)) as [o Ho].
    unfold bind at 1. unfold bind at 1. unfold deref. rewrite Hh, Ho. cbn [draw modify].
    rewrite IH; [| exact Hh | exact Hcs | intros r' Hr'; now apply Hl, list_elem_of_further].
    change ((r :: l) ≫= ?G) with (G r ++ (l ≫= G)).
    unfold tileCommands at 2. rewrite Ho. cbn [worldCtx with_worldCtx].
    now rewrite <- app_assoc.
Qed.

(** X21: [renderCell] saves and clips the canvas, clears the cell, paints
    the tiles of the cell, then the overlay, and restores the canvas.  The
    tiles are painted in the order of a stable sort by z-index, whatever
    the order of the cell list: the painted order is a permutation of the
    list in ascending z-index, and a tile that comes before another one in
    the list and has no greater z-index is painted before it. *)
Theorem renderCell_paints_in_z_order s c x y :
  (forall r, r ∈ Cell.tiles c -> is_Some (heap s !! r)) ->
  let painted := sortByZ (heap s) (Cell.tiles c) in
  renderCell (Some c) (Int x) (Int y) s
  = (Ok tt, with_worldCtx (worldCtx s ++ cellCommands s c x y painted) s)
  /\ painted ≡ₚ Cell.tiles c
  /\ zOrdered (heap s) painted
  /\ (forall a b, precedes a b (Cell.tiles c) ->
        zIndexOf (heap s) a <= zIndexOf (heap s) b -> precedes a b painted).
Proof.
  intros Hrefs painted.
  split; [|split; [apply sortByZ_perm | split; [apply sortByZ_zOrdered|]]].
  2:{ intros a b. apply sortByZ_stable. }
  unfold renderCell. unfold bind at 1. cbn [get]. unfold bind at 1. cbn [draw modify].
  unfold bind at 1. rewrite (paintLoop_effect s x y painted); try reflexivity.
  2:{ intros r Hr. apply Hrefs. unfold painted in Hr. now rewrite sortByZ_perm in Hr. }
  unfold cellCommands. cbn zeta. cbn [worldCtx with_worldCtx].
  destruct (truthy (Cell.overlay c) && negb (String.eqb (Cell.overlay c) transparent)).
  - unfold bind, draw, modify. cbn [worldCtx with_worldCtx]. f_equal.
    rewrite <- !app_assoc. reflexivity.
  - unfold bind, draw, modify, ret. cbn [worldCtx with_worldCtx]. f_equal.
    rewrite <- !app_assoc. reflexivity.
Qed.

Lemma renderCell_paints_in_z_order_witness :
  let s := runOps demoEnv raisedInPlace demo in
  glyphs (cellCommands s (Cell.mk transparent [0%nat; 1%nat] true) 0 0
            (sortByZ (heap s) [0%nat; 1%nat]))
  = ["b"; "a"]%string
  /\ exists s', renderCell (Some (Cell.mk transparent [0%nat; 1%nat] true)) (Int 0) (Int 0) s
                = (Ok tt, s').
Proof.
  intros s. split; [vm_compute; reflexivity|].
  destruct (renderCell_paints_in_z_order s (Cell.mk transparent [0%nat; 1%nat] true) 0 0)
    as (E & _).
  - intros r Hr. cbn in Hr.
    apply elem_of_cons in Hr as [->|Hr]; [vm_compute; eauto|].
    apply list_elem_of_singleton in Hr as ->. vm_compute. eauto.
  - eexists. exact E.
Defined.

(** ** [setTiles] *)

(** X22: [setTiles] on a cell of the grid replaces the list of that cell
    by the given one, verbatim, flags the cell and adds its key to the
    dirty set; it does not render, also with auto-render on, and leaves the
    tile index and all other cells alone.  For coordinates that name no
    cell it throws a [TypeError] and changes nothing. *)
Theorem setTiles_replaces_list_without_render s x y tiles :
  match cellAt s x y with
  | Some c =>
      exists s', setTiles x y tiles s = (Ok tt, s')
        /\ cellAt s' x y = Some (Cell.mk (Cell.overlay c) tiles true)
        /\ (forall x' y', (x', y') <> (x, y) -> cellAt s' x' y' = cellAt s x' y')
        /\ dirtyRects s' = addKey (cellKey x y) (dirtyRects s)
        /\ tileMap s' = tileMap s /\ heap s' = heap s
        /\ output s' = output s
  | None => setTiles x y tiles s = (Throw TypeError, s)
  end.
Proof.
  destruct (cellAt s x y) as [c|] eqn:Hc.
  2:{ unfold setTiles. unfold bind at 1. cbn [get]. now rewrite Hc. }
  destruct (cellAt_nonneg s x y c Hc) as [Hx Hy].
  unfold setTiles. unfold bind at 1. cbn [get]. rewrite Hc.
  eexists. split; [reflexivity|].
  change (cellAt (with_dirtyRects ?d ?s0)) with (cellAt s0).
  split; [|split; [|repeat split]].
  - now rewrite (cellAt_updateCell_same s x y _ c Hc).
  - intros x' y' Hne. now apply cellAt_updateCell_other.
Qed.

(** ** The background box of [createWrappedString] *)










(** ** Strings that are moved or removed *)

Lemma frame_createString env s x y text z s1 ids :
  createString env x y text z s = (Ok ids, s1) ->
  worldWidth s1 = worldWidth s /\ worldHeight s1 = worldHeight s.
Proof.
  intros E. pose proof (keeps_frame env (frame s) (CreateString x y text z) s eq_refl) as Hf.
  cbn [perform] in Hf. rewrite exec_discard, (exec_eq _ _ _ _ E) in Hf.
  injection Hf as Hw Hh _ _ _ _ _ _ _. auto.
Qed.

Lemma rowCells_lookup x y cs i e :
  rowCells x y cs !! i = Some e ->
  exists c, cs !! i = Some c /\ e = (x + Z.of_nat i, y, fst c, snd c).
Proof.
  unfold rowCells. rewrite list_lookup_imap.
  destruct (cs !! i) as [c|]; [|discriminate]. cbn. intros [= <-]. eauto.
Qed.

(** The tiles of a string that lies inside the world are stored inside
    the world. *)
Lemma string_storedInside tbg z s x y cs ids :
  Forall2 (textTile tbg z s) ids (rowCells x y cs) ->
  0 <= x -> x + Z.of_nat (length cs) <= worldWidth s -> 0 <= y < worldHeight s ->
  storedInside s ids.
Proof.
  intros Hall Hx Hw Hy id o Hid Hget.
  apply list_elem_of_lookup in Hid as (i & Hi).
  destruct (Forall2_lookup_l _ _ _ _ _ Hall Hi) as (e & He & Hte).
  apply rowCells_lookup in He as (c & Hc & ->). cbn in Hte.
  rewrite Hget in Hte. injection Hte as ->. cbn.
  apply lookup_lt_Some in Hc. apply insideWorld_spec. lia.
Qed.

Lemma idsFrom_fresh env s id :
  indexSound s -> forall len, id ∈ idsFrom env (tileIdCounter s) len -> getTile id s = None.
Proof.
  intros Hi len Hid. apply elem_of_idsFrom in Hid.
  destruct (getTile id s) as [o|] eqn:Hget; [|reflexivity].
  pose proof (getTile_fresh s id o Hi Hget). lia.
Qed.



(** ** A string that is created and removed again *)

Lemma filter_insertByZ_out (P : TileRef -> Prop) `{forall a, Decision (P a)} h r l :
  ~ P r -> filter P (insertByZ h r l) = filter P l.
Proof.
  intros Hr. induction l as [|b l IH].
  - rewrite insertByZ_nil. now rewrite filter_cons_False.
  - rewrite insertByZ_cons. destruct (_ <? _).
    + now rewrite filter_cons_False.
    + rewrite !filter_cons, IH. reflexivity.
Qed.

(** The references of a placed grid are not objects of an id that has not
    been handed out, also after the heap has grown. *)
Lemma withoutId_fresh s id extra x y c :
  placementInv s -> (tileIdCounter s <= snd id)%nat -> cellAt s x y = Some c ->
  withoutId (heap s ++ extra) id (Cell.tiles c) = Cell.tiles c.
Proof.
  intros (_ & Hi & Hc & _) Hid Hcell. apply filter_all. intros a Ha E.
  destruct (Hc x y c a Hcell Ha) as (oa & Hoa & Hta & _).
  unfold idOf in E. rewrite (lookup_app_l_Some _ _ _ _ Hoa) in E. cbn in E.
  injection E as E. rewrite E in Hta. destruct (Hi id a Hta) as [_ Hlt]. lia.
Qed.

Lemma withoutIds_cons_outer h id ids l :
  withoutIds h (id :: ids) l = withoutId h id (withoutIds h ids l).
Proof.
  unfold withoutIds, withoutId. rewrite list_filter_filter. apply list_filter_iff.
  intros a. cbn [fmap list_fmap]. rewrite not_elem_of_cons. tauto.
Qed.

Lemma withoutId_grown h extra id l :
  (forall a, a ∈ l -> (a < length h)%nat) ->
  withoutId (h ++ extra) id l = withoutId h id l.
Proof.
  intros Hl. apply filter_ext_in. intros a Ha. unfold idOf.
  now rewrite lookup_app_l by (apply Hl, Ha).
Qed.

(** [createTile] on a placed grid: the object is appended to the heap and
    indexed, and the lists of the cells are the old ones but for the new
    object. *)
Lemma createTile_placed env s x y ch col bg z p d :
  tidy s ->
  let id := (now env (tileIdCounter s), tileIdCounter s) in
  let o := Tile.mk id x y ch col bg z p d in
  exists s', createTile env x y ch col bg z p d s = (Ok id, s')
    /\ tidy s'
    /\ tileIdCounter s' = S (tileIdCounter s)
    /\ heap s' = heap s ++ [o]
    /\ tileMap s' = <[id := length (heap s)]> (tileMap s)
    /\ (forall x' y', withoutId (heap s') id <$> (Cell.tiles <$> cellAt s' x' y')
                      = Cell.tiles <$> cellAt s x' y').
Proof.
  intros Hs id o. pose proof (tidy_wellFormed s Hs) as Hwf.
  destruct (createTile_ok env s x y ch col bg z p d Hwf) as (s' & E & Hwf' & Hn & _).
  exists s'. split; [exact E|].
  assert (Hp' : placementInv s').
  { pose proof (keepsPlacement_keeps env (CreateTile x y ch col bg z p d) eq_refl s (proj1 Hs))
      as H. cbn [perform] in H. now rewrite exec_discard, (exec_eq _ _ _ _ E) in H. }
  split; [split; [exact Hp' | apply Hwf']|]. split; [exact Hn|].
  pose proof (createTile_effect env s x y ch col bg z p d
                (fun Hin => proj2 (gridShaped_cellAt s x y (proj1 Hwf)) Hin)) as Eff.
  cbn zeta in Eff. rewrite E in Eff.
  fold id in Eff. fold o in Eff.
  set (s0 := registered o (logged VERBOSE (MsgCreating id x y)
                             (with_tileIdCounter (S (tileIdCounter s)) s))) in Eff.
  set (X := if insideWorld s x y then inserted (length (heap s)) o s0 else s0) in Eff.
  assert (Ho : outputOnly X s').
  { pose proof (quiet_renderIfAuto X) as Hq. unfold exec in Hq. unfold bind in Eff.
    destruct (renderIfAuto X) as [[a|e] s''];
      cbn in Eff, Hq; [injection Eff as ->; exact Hq | discriminate]. }
  pose proof Ho as (_ & _ & _ & _ & _ & _ & _ & _ & _ & Ehp & Et & _).
  assert (HhX : heap X = heap s ++ [o]) by (unfold X; now destruct (insideWorld s x y)).
  assert (HtX : tileMap X = <[id := length (heap s)]> (tileMap s))
    by (unfold X; now destruct (insideWorld s x y)).
  split; [congruence|]. split; [congruence|].
  intros x' y'. rewrite (cellAt_outputOnly X s' x' y' Ho), Ehp, HhX.
  assert (Hold : forall c, cellAt s x' y' = Some c ->
                   withoutId (heap s ++ [o]) id (Cell.tiles c) = Cell.tiles c).
  { intros c Hc. apply (withoutId_fresh s id [o] x' y' c (proj1 Hs)); [cbn; lia | exact Hc]. }
  assert (Hsame : withoutId (heap s ++ [o]) id <$> (Cell.tiles <$> cellAt s x' y')
                  = Cell.tiles <$> cellAt s x' y').
  { destruct (cellAt s x' y') as [c|] eqn:Hc; cbn; [|reflexivity]. now rewrite (Hold c). }
  unfold X. destruct (insideWorld s x y) eqn:Hin; [|exact Hsame].
  destruct (inside_nonneg _ _ _ Hin) as [Hx Hy].
  rewrite cellAt_inserted by assumption. cbn [Tile.x Tile.y o].
  destruct (decide ((x', y') = (x, y))) as [Exy|Exy]; [|exact Hsame].
  injection Exy as -> ->. change (cellAt s0 x y) with (cellAt s x y).
  destruct (cellAt s x y) as [c|] eqn:Hc; cbn; [|reflexivity]. f_equal.
  rewrite filter_insertByZ_out; [exact (Hold c eq_refl)|].
  intros Hne. apply Hne. unfold idOf. rewrite lookup_app_r by lia.
  now rewrite Nat.sub_diag.
Qed.

(** The loop of [createString] on a placed grid. *)
Lemma stringRun_placed env y z (cs : list (CodePoint * Color)) :
  forall s cx acc, tidy s ->
    exists s' extra,
      foldM (fun (b : Z * list (Z * nat)) (c : CodePoint * Color) =>
               let '(currentX, tileIds) := b in
               do tileId <- createTile env currentX y (charString (fst c)) (snd c)
                              "#000000FF"%string z 1 BOTTOM;
               ret (currentX + 1, tileIds ++ [tileId])) (cx, acc) cs s
      = (Ok (cx + Z.of_nat (length cs), acc ++ idsFrom env (tileIdCounter s) (length cs)), s')
      /\ tidy s'
      /\ heap s' = heap s ++ extra
      /\ (forall id, id ∉ idsFrom env (tileIdCounter s) (length cs) ->
            tileMap s' !! id = tileMap s !! id)
      /\ (forall x' y',
            withoutIds (heap s') (idsFrom env (tileIdCounter s) (length cs))
              <$> (Cell.tiles <$> cellAt s' x' y')
            = Cell.tiles <$> cellAt s x' y').
Proof.
  induction cs as [|[ch color] cs IH]; intros s cx acc Hs.
  - exists s, []. cbn. rewrite !app_nil_r, Z.add_0_r. split; [reflexivity|].
    split; [exact Hs|]. split; [reflexivity|]. split; [reflexivity|].
    intros x' y'. destruct (cellAt s x' y'); cbn; [|reflexivity]. now rewrite withoutIds_nil.
  - cbn [foldM fst snd].
    destruct (createTile_placed env s cx y (charString ch) color "#000000FF"%string z 1 BOTTOM Hs)
      as (s1 & E1 & Hs1 & Hn1 & Hh1 & Ht1 & Hc1).
    destruct (IH s1 (cx + 1) (acc ++ [(now env (tileIdCounter s), tileIdCounter s)]) Hs1)
      as (s' & extra & E' & Hs' & Hh' & Ht' & Hc').
    rewrite Hn1 in E', Ht', Hc'.
    exists s'. eexists. split.
    { erewrite bind_ok; [|erewrite bind_ok; [reflexivity | exact E1]].
      rewrite E'. rewrite <- app_assoc. cbn [length]. rewrite idsFrom_cons.
      do 3 f_equal. lia. }
    split; [exact Hs'|]. split; [rewrite Hh', Hh1, <- app_assoc; reflexivity|].
    cbn [length]. rewrite idsFrom_cons. split.
    + intros id Hid. apply not_elem_of_cons in Hid as [Hne Hid].
      rewrite (Ht' id Hid), Ht1. now rewrite lookup_insert_ne.
    + intros x' y'. specialize (Hc' x' y'). specialize (Hc1 x' y').
      rewrite <- Hc1.
      destruct (cellAt s' x' y') as [c'|], (cellAt s1 x' y') as [c1|] eqn:Hcell1;
        cbn in Hc' |- *; try discriminate; [|reflexivity].
      injection Hc' as Hc'. f_equal. rewrite withoutIds_cons_outer, Hc', Hh'.
      apply withoutId_grown. intros a Ha.
      pose proof (tidy_wellFormed s1 Hs1) as (_ & Hv & _). exact (Hv x' y' c1 a Hcell1 Ha).
Qed.

Lemma createString_then_removeTiles_run env s x y text z :
  let cs := charsOf env text in
  let ids := idsFrom env (tileIdCounter s) (length cs) in
  tidy s ->
  0 <= x -> x + Z.of_nat (length cs) <= worldWidth s -> 0 <= y < worldHeight s ->
  exists s1 s2,
    createString env x y text z s = (Ok ids, s1)
    /\ removeTiles ids s1 = (Ok tt, s2)
    /\ (forall id, getTile id s2 = getTile id s)
    /\ (forall x' y', Cell.tiles <$> cellAt s2 x' y' = Cell.tiles <$> cellAt s x' y')
    /\ tidy s2.
Proof.
  intros cs ids Hs Hx Hw Hy. pose proof (tidy_wellFormed s Hs) as Hwf.
  destruct (createString_creates_one_tile_per_character_run env s x y text z Hwf)
    as (s1 & E1 & Hall & _ & _).
  fold cs in E1, Hall. fold ids in E1, Hall.
  destruct (stringRun_placed env y z cs s x [] Hs) as (s1' & extra & E & Hs1 & Hh1 & Ht1 & Hc1).
  fold ids in E, Ht1, Hc1.
  assert (s1' = s1) as ->.
  { unfold cs in E. rewrite <- stringLoop_flat in E. unfold createString in E1.
    cbn zeta in E1. rewrite (bind_ok _ _ _ _ _ E) in E1. now injection E1. }
  destruct (frame_createString env s x y text z s1 ids E1) as [Hw1 Hhh1].
  destruct (removeTiles_removes_listed_tiles_run s1 ids Hs1) as (s2 & E2 & Hget2 & Hc2 & Hs2).
  { apply (string_storedInside "#000000FF"%string z s1 x y cs);
      [exact Hall | lia | rewrite Hw1; lia | rewrite Hhh1; lia]. }
  exists s1, s2. split; [exact E1|]. split; [exact E2|].
  split; [|split; [|exact Hs2]].
  - intros id. rewrite Hget2. pose proof Hwf as (_ & _ & _ & Hi).
    destruct (decide (id ∈ ids)) as [Hid|Hid].
    + symmetry. exact (idsFrom_fresh env s id Hi _ Hid).
    + unfold getTile. rewrite (Ht1 id Hid), Hh1.
      destruct (tileMap s !! id) as [r|] eqn:Hr; [|reflexivity].
      destruct (Hi id r Hr) as [(o & Ho & _) _]. rewrite Ho.
      now apply lookup_app_l_Some.
  - intros x' y'. rewrite Hc2. apply Hc1.
Qed.

(** X25: on every state reached from a freshly constructed engine of a
    sound configuration by operations other than [setTiles], [clear],
    [setBackground] and [updateTile] with a position, where every tile is
    in its cell and no array is the list of two cells, creating a string
    that lies inside the world with [createString] and handing the returned
    ids to [removeTiles] undoes the creation: both calls return, every id
    is found (or not found) as before, and every cell has the list of tiles
    it had before. *)
Theorem createString_then_removeTiles_restores_tiles env options s x y text z :
  let cs := charsOf env text in
  let ids := idsFrom env (tileIdCounter s) (length cs) in
  sound env options -> reachable env options keepsPlacement s ->
  0 <= x -> x + Z.of_nat (length cs) <= worldWidth s -> 0 <= y < worldHeight s ->
  exists s1 s2,
    createString env x y text z s = (Ok ids, s1)
    /\ removeTiles ids s1 = (Ok tt, s2)
    /\ (forall id, getTile id s2 = getTile id s)
    /\ (forall x' y', Cell.tiles <$> cellAt s2 x' y' = Cell.tiles <$> cellAt s x' y')
    /\ tidy s2.
Proof.
  intros cs ids Hsound Hs. apply (createString_then_removeTiles_run env s x y text z).
  split; [now apply (placementInv_reachable env options)|].
  apply (sturdy_reachable env options s Hsound).
  apply (reachable_weaken env options keepsPlacement checked); [|exact Hs].
  intros op. destruct op; cbn; congruence.
Qed.

(** A tile stands at (0,0); the string [abc] is written over it from
    (0,0) on and removed again: the cell holds the tile as before. *)
Lemma createString_then_removeTiles_restores_tiles_witness :
  let s := runOps demoEnv [CreateTile 0 0 "@" white black 1 1 BOTTOM] demo in
  Cell.tiles <$> cellAt s 0 0 = Some [0%nat]
  /\ exists s1 s2,
       createString demoEnv 0 0 "abc" 1 s = (Ok (idsFrom demoEnv 1 3), s1)
       /\ Cell.tiles <$> cellAt s1 0 0 = Some [0%nat; 1%nat]
       /\ removeTiles (idsFrom demoEnv 1 3) s1 = (Ok tt, s2)
       /\ (forall id, getTile id s2 = getTile id s)
       /\ Cell.tiles <$> cellAt s2 0 0 = Some [0%nat].
Proof.
  intros s. split; [vm_compute; reflexivity|].
  destruct (createString_then_removeTiles_restores_tiles demoEnv demoConfig s 0 0 "abc" 1)
    as (s1 & s2 & E1 & E2 & Hget & Hcells & _).
  - exact sound_demo.
  - apply reachable_runOps. reflexivity.
  - lia.
  - vm_compute. discriminate.
  - vm_compute. split; [discriminate | reflexivity].
  - exists s1, s2. split; [exact E1|]. split.
    { rewrite <- (exec_eq _ _ _ _ E1). vm_compute. reflexivity. }
    split; [exact E2|]. split; [exact Hget|].
    rewrite Hcells. vm_compute. reflexivity.
Defined.
